(** * Psychometric Duel: the game engine and its action space

    A shallow embedding of [pythonport.py] (rule tables, monster statistics,
    legal-action enumeration, the transition function) and of the parts of
    [train_alphazero.py] that sit on top of it (the static action space and
    the two game loops), followed by the properties proved about them.

    Conventions of the embedding.
    - Python [int] is [Z]; Python [float] is an IEEE 754 binary64 value,
      represented by the Standard Library's [spec_float] with [prec = 53] and
      [emax = 1024], so that every arithmetic step rounds as CPython does.
      [x ** 0.5] is taken to be the correctly rounded square root; CPython
      computes it with the platform's [pow], which may differ from it in the
      last bit, so that on such an input a [round(... * 10000)] that falls on
      the other side of a half gives an attack value off by one.  No proof
      below looks inside the square root.  [sum] over floats adds from left
      to right, as CPython does before 3.12.
    - A Python exception is the result [None] of an [option]-valued function.
    - The state dictionaries are records; the two three-element lists of a
      player zone ([constructs], [monsters]) are a record of three optional
      entries, indexed as Python indexes a list of length three.
    - Display-only strings of a card or monster ([name], [construct], [short],
      [adverseStarsText]) and the constant [mulligan] entry of the state are
      never read by the engine and are left out. *)

From Stdlib Require Import ZArith Bool Lia.
From Stdlib Require Import Floats.SpecFloat.
From stdpp Require Import base option list strings pretty gmap.

Local Open Scope Z_scope.

(** ** Python numbers *)

Module PyNum.

Definition float : Type := spec_float.

Definition prec : Z := 53.
Definition emax : Z := 1024.

Definition fmul : float → float → float := SFmul prec emax.
Definition fadd : float → float → float := SFadd prec emax.
Definition fsqrt : float → float := SFsqrt prec emax.
Definition fabs : float → float := SFabs.
Definition fltb : float → float → bool := SFltb.
Definition fleb : float → float → bool := SFleb.

Definition is_zero (x : float) : bool :=
  match x with S754_zero _ => true | _ => false end.

Definition is_finite (x : float) : bool :=
  match x with S754_zero _ | S754_finite _ _ _ => true | _ => false end.

(** [float / float]: ZeroDivisionError on a zero divisor. *)
Definition fdiv (x y : float) : option float :=
  if is_zero y then None else Some (SFdiv prec emax x y).

(** Conversion of an [int] operand in mixed arithmetic: round to nearest
    even, OverflowError when the integer is too large. *)
Definition int_to_float (z : Z) : option float :=
  let r := binary_normalize prec emax z 0 false in
  if is_finite r then Some r else None.

(** Exact conversion of a small integer constant. *)
Definition of_int (z : Z) : float := binary_normalize prec emax z 0 false.

(** The decimal literal [n / 10^k], read as Python reads it: the binary64
    value nearest to the decimal (both operands are exact for the
    literals of this program, so the quotient is rounded once). *)
Definition dec (n : Z) (k : nat) : float :=
  SFdiv prec emax (of_int n) (of_int (10 ^ Z.of_nat k)).

(** [int / int] (true division): the correctly rounded quotient. *)
Definition int_truediv (a b : Z) : option float :=
  if b =? 0 then None
  else if a =? 0 then Some (S754_zero (b <? 0))
  else
    let '(q, e, l) := SFdiv_core_binary prec emax (Z.abs a) 0 (Z.abs b) 0 in
    let r := binary_round_aux prec emax (xorb (a <? 0) (b <? 0)) q e l in
    if is_finite r then Some r else None.

(** Nearest integer to [m * 2^e], ties to the even integer. *)
Definition round_half_even (m : positive) (e : Z) : Z :=
  if 0 <=? e then Z.pos m * 2 ^ e
  else
    let d := 2 ^ (- e) in
    let q := Z.pos m / d in
    let r := Z.pos m mod d in
    match 2 * r ?= d with
    | Lt => q
    | Gt => q + 1
    | Eq => if Z.even q then q else q + 1
    end.

(** [round(x)] with one argument: an [int], ties to even; ValueError on
    NaN and OverflowError on an infinity. *)
Definition round (x : float) : option Z :=
  match x with
  | S754_zero _ => Some 0
  | S754_finite s m e => Some (cond_Zopp s (round_half_even m e))
  | S754_infinity _ | S754_nan => None
  end.

(** [max(a, b)] and [min(a, b)] of two arguments: the first argument is
    kept unless the second compares strictly beyond it. *)
Definition fmax (a b : float) : float := if fltb a b then b else a.
Definition fmin (a b : float) : float := if fltb b a then b else a.

(** [clamp] of the source, on floats and on integers (on integers
    Python's [max] and [min] are [Z.max] and [Z.min]). *)
Definition clamp (v lo hi : float) : float := fmax lo (fmin hi v).

Definition clampZ (v lo hi : Z) : Z := Z.max lo (Z.min hi v).

End PyNum.

Import PyNum.

(** ** Rule tables *)

Definition MAX_HAND_SIZE : Z := 12.
Definition STARTING_HAND_SIZE : Z := 12.
Definition EXPERIENCE_MISS_THRESHOLD : Z := 4.
Definition EXPERIENCE_DRAW_COUNT : Z := 3.

(** [CONSTRUCTS]: construct id to its ["type"] and ["avgR"]. *)
Definition CONSTRUCTS : list (string * (string * float)) :=
  [ ("cog_ability", ("predictor", dec 65 2));
    ("conscient",   ("predictor", dec 45 2));
    ("struct_int",  ("predictor", dec 55 2));
    ("work_sample", ("predictor", dec 50 2));
    ("job_perf",    ("outcome",   dec 52 2));
    ("turnover",    ("outcome",   dec 40 2));
    ("job_sat",     ("outcome",   dec 48 2));
    ("ocb",         ("outcome",   dec 44 2)) ]%string.

Definition outcome_row (a b c d : Z) : list (string * float) :=
  [ ("job_perf", dec a 2); ("turnover", dec b 2);
    ("job_sat", dec c 2); ("ocb", dec d 2) ]%string.

Definition TRUE_VALIDITY : list (string * list (string * float)) :=
  [ ("cog_ability", outcome_row 51 20 15 12);
    ("conscient",   outcome_row 31 26 25 30);
    ("struct_int",  outcome_row 51 22 18 15);
    ("work_sample", outcome_row 54 15 12 10) ]%string.

Definition ADVERSE_IMPACT_BWD : list (string * list (string * float)) :=
  [ ("cog_ability", outcome_row 95 60 58 55);
    ("conscient",   outcome_row 20 5 5 5);
    ("struct_int",  outcome_row 35 22 22 22);
    ("work_sample", outcome_row 55 40 40 40) ]%string.

(** [COUNTS], in the insertion order that [buildStartingDeck] iterates. *)
Definition COUNTS : list (string * nat) :=
  [ ("cog_ability", 4); ("conscient", 4); ("struct_int", 4); ("work_sample", 4);
    ("job_perf", 4); ("turnover", 4); ("job_sat", 4); ("ocb", 4);
    ("sample_size", 3); ("job_relevance", 4); ("imputation", 1); ("missing_data", 1);
    ("range_restrict", 2); ("item_leakage", 2); ("correction", 2); ("p_hacking", 1);
    ("practice_effect", 2); ("bootstrapping", 2); ("item_analysis", 2);
    ("construct_drift", 1); ("criterion_contam", 1) ]%string%nat.

Definition TARGETING_MONSTER_SPELLS : list string :=
  [ "sample_size"; "job_relevance"; "imputation"; "p_hacking"; "practice_effect";
    "range_restrict"; "item_leakage"; "correction"; "bootstrapping";
    "criterion_contam" ]%string.

Definition TARGETING_CONSTRUCT_SPELLS : list string :=
  [ "missing_data"; "construct_drift"; "item_analysis" ]%string.

(** [d.get(k)] on a table written as an association list. *)
Fixpoint assoc {V : Type} (k : string) (d : list (string * V)) : option V :=
  match d with
  | [] => None
  | (k', v) :: d' => if String.eqb k k' then Some v else assoc k d'
  end.

(** [T.get(pred_id, {}).get(out_id, dflt)] *)
Definition table_get (T : list (string * list (string * float)))
    (pred_id out_id : string) (dflt : float) : float :=
  default dflt (assoc out_id (default [] (assoc pred_id T))).

Definition str_in (s : string) (l : list string) : bool :=
  existsb (String.eqb s) l.

(** ** Cards, stacks, monsters *)

Inductive Card : Type :=
  | ItemCard (type constructId : string) (avgR : float)
  | SpellCard (id : string).

Definition isItem (c : Card) : bool :=
  match c with ItemCard _ _ _ => true | SpellCard _ => false end.

Record Stack : Type := mkStack {
  stack_type : string;
  stack_constructId : string;
  cards : list Card
}.

Record Monster : Type := mkMonster {
  predId : string;
  outId : string;
  predAlpha : float;
  outAlpha : float;
  rTrue : float;
  adverseImpact : float;
  adverseStars : Z;
  requiresJobRelevance : bool;
  rObs : float;
  baseAtk : Z;
  atk : Z;
  baseN : Z;
  n : Z;
  power : float;
  attacksMade : Z;
  maxAttacks : Z;
  summoningSick : bool;
  hasJobRelevance : bool;
  hasImputation : bool;
  hasPHacking : bool;
  hasPracticeEffect : bool;
  itemLeakageApplied : bool;
  correctionApplied : bool;
  rangeRestrictionStacks : Z;
  validityMultiplier : float;
  isMeta : bool
}.

Definition set_rObs (v : float) (m : Monster) : Monster :=
  {| predId := predId m; outId := outId m; predAlpha := predAlpha m; outAlpha := outAlpha m;
     rTrue := rTrue m; adverseImpact := adverseImpact m; adverseStars := adverseStars m;
     requiresJobRelevance := requiresJobRelevance m; rObs := v; baseAtk := baseAtk m;
     atk := atk m; baseN := baseN m; n := n m; power := power m; attacksMade := attacksMade m;
     maxAttacks := maxAttacks m; summoningSick := summoningSick m;
     hasJobRelevance := hasJobRelevance m; hasImputation := hasImputation m;
     hasPHacking := hasPHacking m; hasPracticeEffect := hasPracticeEffect m;
     itemLeakageApplied := itemLeakageApplied m; correctionApplied := correctionApplied m;
     rangeRestrictionStacks := rangeRestrictionStacks m;
     validityMultiplier := validityMultiplier m; isMeta := isMeta m |}.

Definition set_baseAtk (v : Z) (m : Monster) : Monster :=
  {| predId := predId m; outId := outId m; predAlpha := predAlpha m; outAlpha := outAlpha m;
     rTrue := rTrue m; adverseImpact := adverseImpact m; adverseStars := adverseStars m;
     requiresJobRelevance := requiresJobRelevance m; rObs := rObs m; baseAtk := v; atk := atk m;
     baseN := baseN m; n := n m; power := power m; attacksMade := attacksMade m;
     maxAttacks := maxAttacks m; summoningSick := summoningSick m;
     hasJobRelevance := hasJobRelevance m; hasImputation := hasImputation m;
     hasPHacking := hasPHacking m; hasPracticeEffect := hasPracticeEffect m;
     itemLeakageApplied := itemLeakageApplied m; correctionApplied := correctionApplied m;
     rangeRestrictionStacks := rangeRestrictionStacks m;
     validityMultiplier := validityMultiplier m; isMeta := isMeta m |}.

Definition set_atk (v : Z) (m : Monster) : Monster :=
  {| predId := predId m; outId := outId m; predAlpha := predAlpha m; outAlpha := outAlpha m;
     rTrue := rTrue m; adverseImpact := adverseImpact m; adverseStars := adverseStars m;
     requiresJobRelevance := requiresJobRelevance m; rObs := rObs m; baseAtk := baseAtk m;
     atk := v; baseN := baseN m; n := n m; power := power m; attacksMade := attacksMade m;
     maxAttacks := maxAttacks m; summoningSick := summoningSick m;
     hasJobRelevance := hasJobRelevance m; hasImputation := hasImputation m;
     hasPHacking := hasPHacking m; hasPracticeEffect := hasPracticeEffect m;
     itemLeakageApplied := itemLeakageApplied m; correctionApplied := correctionApplied m;
     rangeRestrictionStacks := rangeRestrictionStacks m;
     validityMultiplier := validityMultiplier m; isMeta := isMeta m |}.

Definition set_baseN (v : Z) (m : Monster) : Monster :=
  {| predId := predId m; outId := outId m; predAlpha := predAlpha m; outAlpha := outAlpha m;
     rTrue := rTrue m; adverseImpact := adverseImpact m; adverseStars := adverseStars m;
     requiresJobRelevance := requiresJobRelevance m; rObs := rObs m; baseAtk := baseAtk m;
     atk := atk m; baseN := v; n := n m; power := power m; attacksMade := attacksMade m;
     maxAttacks := maxAttacks m; summoningSick := summoningSick m;
     hasJobRelevance := hasJobRelevance m; hasImputation := hasImputation m;
     hasPHacking := hasPHacking m; hasPracticeEffect := hasPracticeEffect m;
     itemLeakageApplied := itemLeakageApplied m; correctionApplied := correctionApplied m;
     rangeRestrictionStacks := rangeRestrictionStacks m;
     validityMultiplier := validityMultiplier m; isMeta := isMeta m |}.

Definition set_n (v : Z) (m : Monster) : Monster :=
  {| predId := predId m; outId := outId m; predAlpha := predAlpha m; outAlpha := outAlpha m;
     rTrue := rTrue m; adverseImpact := adverseImpact m; adverseStars := adverseStars m;
     requiresJobRelevance := requiresJobRelevance m; rObs := rObs m; baseAtk := baseAtk m;
     atk := atk m; baseN := baseN m; n := v; power := power m; attacksMade := attacksMade m;
     maxAttacks := maxAttacks m; summoningSick := summoningSick m;
     hasJobRelevance := hasJobRelevance m; hasImputation := hasImputation m;
     hasPHacking := hasPHacking m; hasPracticeEffect := hasPracticeEffect m;
     itemLeakageApplied := itemLeakageApplied m; correctionApplied := correctionApplied m;
     rangeRestrictionStacks := rangeRestrictionStacks m;
     validityMultiplier := validityMultiplier m; isMeta := isMeta m |}.

Definition set_power (v : float) (m : Monster) : Monster :=
  {| predId := predId m; outId := outId m; predAlpha := predAlpha m; outAlpha := outAlpha m;
     rTrue := rTrue m; adverseImpact := adverseImpact m; adverseStars := adverseStars m;
     requiresJobRelevance := requiresJobRelevance m; rObs := rObs m; baseAtk := baseAtk m;
     atk := atk m; baseN := baseN m; n := n m; power := v; attacksMade := attacksMade m;
     maxAttacks := maxAttacks m; summoningSick := summoningSick m;
     hasJobRelevance := hasJobRelevance m; hasImputation := hasImputation m;
     hasPHacking := hasPHacking m; hasPracticeEffect := hasPracticeEffect m;
     itemLeakageApplied := itemLeakageApplied m; correctionApplied := correctionApplied m;
     rangeRestrictionStacks := rangeRestrictionStacks m;
     validityMultiplier := validityMultiplier m; isMeta := isMeta m |}.

Definition set_attacksMade (v : Z) (m : Monster) : Monster :=
  {| predId := predId m; outId := outId m; predAlpha := predAlpha m; outAlpha := outAlpha m;
     rTrue := rTrue m; adverseImpact := adverseImpact m; adverseStars := adverseStars m;
     requiresJobRelevance := requiresJobRelevance m; rObs := rObs m; baseAtk := baseAtk m;
     atk := atk m; baseN := baseN m; n := n m; power := power m; attacksMade := v;
     maxAttacks := maxAttacks m; summoningSick := summoningSick m;
     hasJobRelevance := hasJobRelevance m; hasImputation := hasImputation m;
     hasPHacking := hasPHacking m; hasPracticeEffect := hasPracticeEffect m;
     itemLeakageApplied := itemLeakageApplied m; correctionApplied := correctionApplied m;
     rangeRestrictionStacks := rangeRestrictionStacks m;
     validityMultiplier := validityMultiplier m; isMeta := isMeta m |}.

Definition set_maxAttacks (v : Z) (m : Monster) : Monster :=
  {| predId := predId m; outId := outId m; predAlpha := predAlpha m; outAlpha := outAlpha m;
     rTrue := rTrue m; adverseImpact := adverseImpact m; adverseStars := adverseStars m;
     requiresJobRelevance := requiresJobRelevance m; rObs := rObs m; baseAtk := baseAtk m;
     atk := atk m; baseN := baseN m; n := n m; power := power m; attacksMade := attacksMade m;
     maxAttacks := v; summoningSick := summoningSick m; hasJobRelevance := hasJobRelevance m;
     hasImputation := hasImputation m; hasPHacking := hasPHacking m;
     hasPracticeEffect := hasPracticeEffect m; itemLeakageApplied := itemLeakageApplied m;
     correctionApplied := correctionApplied m;
     rangeRestrictionStacks := rangeRestrictionStacks m;
     validityMultiplier := validityMultiplier m; isMeta := isMeta m |}.

Definition set_summoningSick (v : bool) (m : Monster) : Monster :=
  {| predId := predId m; outId := outId m; predAlpha := predAlpha m; outAlpha := outAlpha m;
     rTrue := rTrue m; adverseImpact := adverseImpact m; adverseStars := adverseStars m;
     requiresJobRelevance := requiresJobRelevance m; rObs := rObs m; baseAtk := baseAtk m;
     atk := atk m; baseN := baseN m; n := n m; power := power m; attacksMade := attacksMade m;
     maxAttacks := maxAttacks m; summoningSick := v; hasJobRelevance := hasJobRelevance m;
     hasImputation := hasImputation m; hasPHacking := hasPHacking m;
     hasPracticeEffect := hasPracticeEffect m; itemLeakageApplied := itemLeakageApplied m;
     correctionApplied := correctionApplied m;
     rangeRestrictionStacks := rangeRestrictionStacks m;
     validityMultiplier := validityMultiplier m; isMeta := isMeta m |}.

Definition set_hasJobRelevance (v : bool) (m : Monster) : Monster :=
  {| predId := predId m; outId := outId m; predAlpha := predAlpha m; outAlpha := outAlpha m;
     rTrue := rTrue m; adverseImpact := adverseImpact m; adverseStars := adverseStars m;
     requiresJobRelevance := requiresJobRelevance m; rObs := rObs m; baseAtk := baseAtk m;
     atk := atk m; baseN := baseN m; n := n m; power := power m; attacksMade := attacksMade m;
     maxAttacks := maxAttacks m; summoningSick := summoningSick m; hasJobRelevance := v;
     hasImputation := hasImputation m; hasPHacking := hasPHacking m;
     hasPracticeEffect := hasPracticeEffect m; itemLeakageApplied := itemLeakageApplied m;
     correctionApplied := correctionApplied m;
     rangeRestrictionStacks := rangeRestrictionStacks m;
     validityMultiplier := validityMultiplier m; isMeta := isMeta m |}.

Definition set_hasImputation (v : bool) (m : Monster) : Monster :=
  {| predId := predId m; outId := outId m; predAlpha := predAlpha m; outAlpha := outAlpha m;
     rTrue := rTrue m; adverseImpact := adverseImpact m; adverseStars := adverseStars m;
     requiresJobRelevance := requiresJobRelevance m; rObs := rObs m; baseAtk := baseAtk m;
     atk := atk m; baseN := baseN m; n := n m; power := power m; attacksMade := attacksMade m;
     maxAttacks := maxAttacks m; summoningSick := summoningSick m;
     hasJobRelevance := hasJobRelevance m; hasImputation := v; hasPHacking := hasPHacking m;
     hasPracticeEffect := hasPracticeEffect m; itemLeakageApplied := itemLeakageApplied m;
     correctionApplied := correctionApplied m;
     rangeRestrictionStacks := rangeRestrictionStacks m;
     validityMultiplier := validityMultiplier m; isMeta := isMeta m |}.

Definition set_hasPHacking (v : bool) (m : Monster) : Monster :=
  {| predId := predId m; outId := outId m; predAlpha := predAlpha m; outAlpha := outAlpha m;
     rTrue := rTrue m; adverseImpact := adverseImpact m; adverseStars := adverseStars m;
     requiresJobRelevance := requiresJobRelevance m; rObs := rObs m; baseAtk := baseAtk m;
     atk := atk m; baseN := baseN m; n := n m; power := power m; attacksMade := attacksMade m;
     maxAttacks := maxAttacks m; summoningSick := summoningSick m;
     hasJobRelevance := hasJobRelevance m; hasImputation := hasImputation m; hasPHacking := v;
     hasPracticeEffect := hasPracticeEffect m; itemLeakageApplied := itemLeakageApplied m;
     correctionApplied := correctionApplied m;
     rangeRestrictionStacks := rangeRestrictionStacks m;
     validityMultiplier := validityMultiplier m; isMeta := isMeta m |}.

Definition set_hasPracticeEffect (v : bool) (m : Monster) : Monster :=
  {| predId := predId m; outId := outId m; predAlpha := predAlpha m; outAlpha := outAlpha m;
     rTrue := rTrue m; adverseImpact := adverseImpact m; adverseStars := adverseStars m;
     requiresJobRelevance := requiresJobRelevance m; rObs := rObs m; baseAtk := baseAtk m;
     atk := atk m; baseN := baseN m; n := n m; power := power m; attacksMade := attacksMade m;
     maxAttacks := maxAttacks m; summoningSick := summoningSick m;
     hasJobRelevance := hasJobRelevance m; hasImputation := hasImputation m;
     hasPHacking := hasPHacking m; hasPracticeEffect := v;
     itemLeakageApplied := itemLeakageApplied m; correctionApplied := correctionApplied m;
     rangeRestrictionStacks := rangeRestrictionStacks m;
     validityMultiplier := validityMultiplier m; isMeta := isMeta m |}.

Definition set_itemLeakageApplied (v : bool) (m : Monster) : Monster :=
  {| predId := predId m; outId := outId m; predAlpha := predAlpha m; outAlpha := outAlpha m;
     rTrue := rTrue m; adverseImpact := adverseImpact m; adverseStars := adverseStars m;
     requiresJobRelevance := requiresJobRelevance m; rObs := rObs m; baseAtk := baseAtk m;
     atk := atk m; baseN := baseN m; n := n m; power := power m; attacksMade := attacksMade m;
     maxAttacks := maxAttacks m; summoningSick := summoningSick m;
     hasJobRelevance := hasJobRelevance m; hasImputation := hasImputation m;
     hasPHacking := hasPHacking m; hasPracticeEffect := hasPracticeEffect m;
     itemLeakageApplied := v; correctionApplied := correctionApplied m;
     rangeRestrictionStacks := rangeRestrictionStacks m;
     validityMultiplier := validityMultiplier m; isMeta := isMeta m |}.

Definition set_correctionApplied (v : bool) (m : Monster) : Monster :=
  {| predId := predId m; outId := outId m; predAlpha := predAlpha m; outAlpha := outAlpha m;
     rTrue := rTrue m; adverseImpact := adverseImpact m; adverseStars := adverseStars m;
     requiresJobRelevance := requiresJobRelevance m; rObs := rObs m; baseAtk := baseAtk m;
     atk := atk m; baseN := baseN m; n := n m; power := power m; attacksMade := attacksMade m;
     maxAttacks := maxAttacks m; summoningSick := summoningSick m;
     hasJobRelevance := hasJobRelevance m; hasImputation := hasImputation m;
     hasPHacking := hasPHacking m; hasPracticeEffect := hasPracticeEffect m;
     itemLeakageApplied := itemLeakageApplied m; correctionApplied := v;
     rangeRestrictionStacks := rangeRestrictionStacks m;
     validityMultiplier := validityMultiplier m; isMeta := isMeta m |}.

Definition set_rangeRestrictionStacks (v : Z) (m : Monster) : Monster :=
  {| predId := predId m; outId := outId m; predAlpha := predAlpha m; outAlpha := outAlpha m;
     rTrue := rTrue m; adverseImpact := adverseImpact m; adverseStars := adverseStars m;
     requiresJobRelevance := requiresJobRelevance m; rObs := rObs m; baseAtk := baseAtk m;
     atk := atk m; baseN := baseN m; n := n m; power := power m; attacksMade := attacksMade m;
     maxAttacks := maxAttacks m; summoningSick := summoningSick m;
     hasJobRelevance := hasJobRelevance m; hasImputation := hasImputation m;
     hasPHacking := hasPHacking m; hasPracticeEffect := hasPracticeEffect m;
     itemLeakageApplied := itemLeakageApplied m; correctionApplied := correctionApplied m;
     rangeRestrictionStacks := v; validityMultiplier := validityMultiplier m; isMeta := isMeta m
     |}.

(** ** Derived statistics *)

Definition spearmanBrown (k : Z) (avgR : float) : option float :=
  fdiv (fmul (of_int k) avgR) (fadd (of_int 1) (fmul (of_int (k - 1)) avgR)).

Definition adverseImpactStarsFromBwd (rawBwd : float) : Z :=
  let d := fabs rawBwd in
  if fleb d (dec 10 2) then 5
  else if fleb d (dec 25 2) then 4
  else if fleb d (dec 45 2) then 3
  else if fleb d (dec 65 2) then 2
  else 1.

(** [getPairAdverseImpact]: the triple (bwd, stars, requiresJobRelevance). *)
Definition getPairAdverseImpact (pred_id out_id : string) : float * Z * bool :=
  let bwd := table_get ADVERSE_IMPACT_BWD pred_id out_id (dec 3 1) in
  let stars := adverseImpactStarsFromBwd bwd in
  (bwd, stars, stars <=? 3).

(** [alphaFromStack] on a present stack; a spell card at the bottom of the
    stack has no ["avgR"] (KeyError). *)
Definition alphaFromStack (stack : Stack) : option float :=
  match cards stack with
  | [] => Some (S754_zero false)
  | ItemCard _ _ r :: _ => spearmanBrown (Z.of_nat (length (cards stack))) r
  | SpellCard _ :: _ => None
  end.

Definition approxPowerFromROBSandN (r_obs : float) (n : Z) : option float :=
  let r := clamp (fabs r_obs) (S754_zero false) (dec 999999 6) in
  let nn := Z.max 4 n in
  frac ← int_truediv (nn - 3) nn;
  Some (clamp (fadd (dec 5 2) (fmul (fmul (dec 94 2) r) frac)) (dec 5 2) (dec 99 2)).

(** The loop [for _ in range(k): next_atk = round(next_atk / 2)]. *)
Fixpoint halve (k : nat) (next_atk : Z) : option Z :=
  match k with
  | O => Some next_atk
  | S k' => x ← int_truediv next_atk 2; a ← round x; halve k' a
  end.

Definition effective_multiplier (m : Monster) : float :=
  let validity_multiplier := fmax (S754_zero false) (validityMultiplier m) in
  if itemLeakageApplied m then S754_zero false else validity_multiplier.

Definition observed (m : Monster) : float :=
  fmul (fmul (rTrue m)
             (fsqrt (fmul (fmax (dec 5 2) (predAlpha m)) (fmax (dec 5 2) (outAlpha m)))))
       (effective_multiplier m).

(** [effective_atk_base] of [refreshMonsterStats]: the value [next_atk]
    starts from, before the range-restriction loop. *)
Definition effective_atk_base (m : Monster) : option Z :=
  base_atk ← round (fmul (fabs (observed m)) (of_int 10000));
  correction_base ←
    round (fmul (fmul (fabs (rTrue m)) (effective_multiplier m)) (of_int 10000));
  Some (if correctionApplied m then correction_base else base_atk).

Definition refreshMonsterStats (m : Monster) : option Monster :=
  if isMeta m then
    Some (set_power (clamp (power m) (dec 7 1) (dec 99 2)) m)
  else
    let m := set_rObs (observed m) m in
    base_atk ← round (fmul (fabs (rObs m)) (of_int 10000));
    let m := set_baseAtk base_atk m in
    correction_base ←
      round (fmul (fmul (fabs (rTrue m)) (effective_multiplier m)) (of_int 10000));
    let effective := if correctionApplied m then correction_base else baseAtk m in
    next_atk ← halve (Z.to_nat (Z.max 0 (rangeRestrictionStacks m))) effective;
    let m := set_atk next_atk m in
    a ← int_to_float (Z.abs (atk m));
    r ← fdiv a (of_int 10000);
    p ← approxPowerFromROBSandN r (n m);
    Some (set_power p m).

(** [makeItemCard]: a KeyError for an id that is not in [CONSTRUCTS]. *)
Definition makeItemCard (construct_id : string) : option Card :=
  c ← assoc construct_id CONSTRUCTS;
  Some (ItemCard (fst c) construct_id (snd c)).

Definition makeSpellCard (card_id : string) : Card := SpellCard card_id.

(** The ["type"] and ["constructId"] entries of a card (KeyError on a spell). *)
Definition card_type (c : Card) : option string :=
  match c with ItemCard t _ _ => Some t | SpellCard _ => None end.

Definition card_constructId (c : Card) : option string :=
  match c with ItemCard _ cid _ => Some cid | SpellCard _ => None end.

Definition makeConstructStackFromCard (card : Card) : option Stack :=
  t ← card_type card;
  cid ← card_constructId card;
  Some (mkStack t cid [card]).

Definition buildMonster (pred_stack out_stack : Stack) : option Monster :=
  let rho :=
    table_get TRUE_VALIDITY (stack_constructId pred_stack) (stack_constructId out_stack)
      (dec 1 1) in
  let '(bwd, stars, requires) :=
    getPairAdverseImpact (stack_constructId pred_stack) (stack_constructId out_stack) in
  pa ← alphaFromStack pred_stack;
  oa ← alphaFromStack out_stack;
  refreshMonsterStats
    {| predId := stack_constructId pred_stack;
       outId := stack_constructId out_stack;
       predAlpha := pa;
       outAlpha := oa;
       rTrue := rho;
       adverseImpact := bwd;
       adverseStars := stars;
       requiresJobRelevance := requires;
       rObs := S754_zero false;
       baseAtk := 0;
       atk := 0;
       baseN := 50;
       n := 50;
       power := dec 1 1;
       attacksMade := 0;
       maxAttacks := 1;
       summoningSick := true;
       hasJobRelevance := false;
       hasImputation := false;
       hasPHacking := false;
       hasPracticeEffect := false;
       itemLeakageApplied := false;
       correctionApplied := false;
       rangeRestrictionStacks := 0;
       validityMultiplier := of_int 1;
       isMeta := false |}.

Definition buildMetaMonster (monsters : list Monster) : option Monster :=
  let total := foldl (λ acc m, fadd acc (fabs (rObs m))) (of_int 0) monsters in
  mean_r ← fdiv total (of_int (Z.of_nat (length monsters)));
  let meta_r_true := clamp (fmul mean_r (dec 135 2)) (dec 35 2) (dec 95 2) in
  let combined_n := foldl (λ acc m, acc + baseN m) 0 monsters in
  base_atk ← round (fmul (fabs meta_r_true) (of_int 10000));
  q ← int_truediv combined_n 1000;
  Some {| predId := "META";
          outId := "META";
          predAlpha := dec 99 2;
          outAlpha := dec 99 2;
          rTrue := meta_r_true;
          adverseImpact := of_int 0;
          adverseStars := 5;
          requiresJobRelevance := false;
          rObs := meta_r_true;
          baseAtk := base_atk;
          atk := base_atk;
          baseN := combined_n;
          n := combined_n;
          power := clamp (fadd (dec 9 1) q) (dec 9 1) (dec 99 2);
          attacksMade := 0;
          maxAttacks := 1;
          summoningSick := false;
          hasJobRelevance := false;
          hasImputation := false;
          hasPHacking := false;
          hasPracticeEffect := false;
          itemLeakageApplied := false;
          correctionApplied := false;
          rangeRestrictionStacks := 0;
          validityMultiplier := of_int 1;
          isMeta := true |}.

(** ** Player zones and game states *)

(** A Python list of length three. *)
Record Slots (A : Type) : Type := mkSlots {
  slot0 : option A;
  slot1 : option A;
  slot2 : option A
}.
Arguments mkSlots {A} _ _ _.
Arguments slot0 {A} _.
Arguments slot1 {A} _.
Arguments slot2 {A} _.

Definition empty_slots {A : Type} : Slots A := mkSlots None None None.

Definition slots_list {A : Type} (s : Slots A) : list (option A) :=
  [slot0 s; slot1 s; slot2 s].

(** Python indexing of a list of length [len]: negative indexes count from
    the end, anything else out of range is an IndexError. *)
Definition py_index (len : nat) (i : Z) : option nat :=
  if (0 <=? i) && (i <? Z.of_nat len) then Some (Z.to_nat i)
  else if (i <? 0) && (0 <=? i + Z.of_nat len) then Some (Z.to_nat (i + Z.of_nat len))
  else None.

(** [l[i]] *)
Definition py_get {A : Type} (l : list A) (i : Z) : option A :=
  k ← py_index (length l) i; l !! k.

(** [l.pop(i)]: the element and the list without it. *)
Definition py_pop {A : Type} (l : list A) (i : Z) : option (A * list A) :=
  k ← py_index (length l) i; x ← l !! k; Some (x, delete k l).

(** [arr[i]] *)
Definition slot_get {A : Type} (s : Slots A) (i : Z) : option (option A) :=
  py_get (slots_list s) i.

(** [arr[i] = v] *)
Definition slot_set {A : Type} (s : Slots A) (i : Z) (v : option A) : option (Slots A) :=
  k ← py_index 3 i;
  match k with
  | 0%nat => Some (mkSlots v (slot1 s) (slot2 s))
  | 1%nat => Some (mkSlots (slot0 s) v (slot2 s))
  | 2%nat => Some (mkSlots (slot0 s) (slot1 s) v)
  | _ => None
  end.

(** [enumerate(l)] *)
Definition enumerate {A : Type} (l : list A) : list (Z * A) :=
  imap (λ i x, (Z.of_nat i, x)) l.

Record Player : Type := mkPlayer {
  lp : Z;
  deck : list Card;
  hand : list Card;
  constructs : Slots Stack;
  monsters : Slots Monster;
  summoned : bool;
  experienceTokens : Z;
  pendingDiscard : Z
}.

Definition set_lp (v : Z) (p : Player) : Player :=
  {| lp := v; deck := deck p; hand := hand p; constructs := constructs p;
     monsters := monsters p; summoned := summoned p;
     experienceTokens := experienceTokens p; pendingDiscard := pendingDiscard p |}.

Definition set_deck (v : list Card) (p : Player) : Player :=
  {| lp := lp p; deck := v; hand := hand p; constructs := constructs p;
     monsters := monsters p; summoned := summoned p;
     experienceTokens := experienceTokens p; pendingDiscard := pendingDiscard p |}.

Definition set_hand (v : list Card) (p : Player) : Player :=
  {| lp := lp p; deck := deck p; hand := v; constructs := constructs p;
     monsters := monsters p; summoned := summoned p;
     experienceTokens := experienceTokens p; pendingDiscard := pendingDiscard p |}.

Definition set_constructs (v : Slots Stack) (p : Player) : Player :=
  {| lp := lp p; deck := deck p; hand := hand p; constructs := v;
     monsters := monsters p; summoned := summoned p;
     experienceTokens := experienceTokens p; pendingDiscard := pendingDiscard p |}.

Definition set_monsters (v : Slots Monster) (p : Player) : Player :=
  {| lp := lp p; deck := deck p; hand := hand p; constructs := constructs p;
     monsters := v; summoned := summoned p;
     experienceTokens := experienceTokens p; pendingDiscard := pendingDiscard p |}.

Definition set_summoned (v : bool) (p : Player) : Player :=
  {| lp := lp p; deck := deck p; hand := hand p; constructs := constructs p;
     monsters := monsters p; summoned := v;
     experienceTokens := experienceTokens p; pendingDiscard := pendingDiscard p |}.

Definition set_experienceTokens (v : Z) (p : Player) : Player :=
  {| lp := lp p; deck := deck p; hand := hand p; constructs := constructs p;
     monsters := monsters p; summoned := summoned p;
     experienceTokens := v; pendingDiscard := pendingDiscard p |}.

Definition set_pendingDiscard (v : Z) (p : Player) : Player :=
  {| lp := lp p; deck := deck p; hand := hand p; constructs := constructs p;
     monsters := monsters p; summoned := summoned p;
     experienceTokens := experienceTokens p; pendingDiscard := v |}.

Inductive Status : Type := active | finished.

(** The two players, 1 and 2; also the keys ["1"] and ["2"] of [players]. *)
Inductive PlayerId : Type := P1 | P2.

Definition player_number (p : PlayerId) : Z :=
  match p with P1 => 1 | P2 => 2 end.

#[global] Instance PlayerId_eq_dec : EqDecision PlayerId.
Proof. solve_decision. Defined.

Record GameState : Type := mkState {
  status : Status;
  currentPlayer : PlayerId;
  winner : option PlayerId;
  player1 : Player;
  player2 : Player
}.

(** [s["players"][pid]] *)
Definition player (S : GameState) (pid : PlayerId) : Player :=
  match pid with P1 => player1 S | P2 => player2 S end.

(** [oppid = "2" if pid == "1" else "1"] *)
Definition other (pid : PlayerId) : PlayerId :=
  match pid with P1 => P2 | P2 => P1 end.

(** The state in which the zone of [pid] is [me] and the other one [opp]. *)
Definition with_players (S : GameState) (pid : PlayerId) (me opp : Player) : GameState :=
  match pid with
  | P1 => mkState (status S) (currentPlayer S) (winner S) me opp
  | P2 => mkState (status S) (currentPlayer S) (winner S) opp me
  end.

Definition set_currentPlayer (pid : PlayerId) (S : GameState) : GameState :=
  mkState (status S) pid (winner S) (player1 S) (player2 S).

Definition drawn (p : Player) (c : Card) : Player :=
  set_hand (hand p ++ [c]) (set_deck (removelast (deck p)) p).

(** [drawCards(player, k, allowOverflow)]; the deck is drawn from its tail. *)
Fixpoint drawCards (k : nat) (allowOverflow : bool) (p : Player) : Player :=
  match k with
  | O => p
  | S k' =>
      if negb allowOverflow && (MAX_HAND_SIZE <=? Z.of_nat (length (hand p))) then p
      else
        match last (deck p) with
        | Some c => drawCards k' allowOverflow (drawn p c)
        | None => drawCards k' allowOverflow p
        end
  end.

Definition enforceHandLimit (p : Player) : Player :=
  set_pendingDiscard (Z.max 0 (Z.of_nat (length (hand p)) - MAX_HAND_SIZE)) p.

(** [firstEmptySlot]: the first index holding [None], or [-1]. *)
Definition firstEmptySlot {A : Type} (arr : Slots A) : Z :=
  match slot0 arr, slot1 arr, slot2 arr with
  | None, _, _ => 0
  | _, None, _ => 1
  | _, _, None => 2
  | _, _, _ => -1
  end.

(** [buildStartingDeck]: ids of [CONSTRUCTS] give item cards, the others
    spell cards. *)
Definition deck_card (cid : string) : Card :=
  match makeItemCard cid with Some c => c | None => makeSpellCard cid end.

Definition buildStartingDeck : list Card :=
  flat_map (λ '(cid, k), replicate k (deck_card cid)) COUNTS.

Definition starting_player : Player :=
  drawCards (Z.to_nat STARTING_HAND_SIZE) false
    {| lp := 8000; deck := buildStartingDeck; hand := [];
       constructs := empty_slots; monsters := empty_slots;
       summoned := false; experienceTokens := 0; pendingDiscard := 0 |}.

Definition initial_state : GameState :=
  {| status := active; currentPlayer := P1; winner := None;
     player1 := starting_player; player2 := starting_player |}.

(** ** Actions *)

Inductive Owner : Type := Me | Opp.

Inductive TargetType : Type := TMonster | TConstruct | TLp.

(** The action descriptors, one constructor per ["type"]; [replace] is the
    optional ["replace_monster_slot"] and the [target_slot] of an attack may
    be [None]. *)
Inductive Action : Type :=
  | EndTurn
  | Meta
  | ExperienceDraw
  | Discard (hand_index : Z)
  | Place (hand_index slot : Z)
  | PlaySpell (hand_index : Z) (target_owner : Owner) (target_type : TargetType)
      (target_slot : Z)
  | Summon (pred_slot out_slot : Z) (replace : option Z)
  | Attack (attacker_slot : Z) (target_type : TargetType) (target_slot : option Z).

(** ** Legal actions *)

Definition range3 : list Z := [0; 1; 2].

(** [x is not None] *)
Definition present {A : Type} (x : option A) : bool :=
  match x with Some _ => true | None => false end.

(** Indexes of the entries of [arr] that are not [None]. *)
Definition occupied {A : Type} (arr : Slots A) : list Z :=
  flat_map (λ '(i, x), match x with Some _ => [i] | None => [] end)
    (enumerate (slots_list arr)).

(** The two tests of the [place_card] loop that [continue]. *)
Definition place_allowed (stack : option Stack) (card_cid : string) : bool :=
  match stack with
  | None => true
  | Some st =>
      String.eqb (stack_constructId st) card_cid && (length (cards st) <? 3)%nat
  end.

Definition owner_zone (me opp : Player) (o : Owner) : Player :=
  match o with Me => me | Opp => opp end.

Definition card_moves (me opp : Player) (h : Z) (card : Card) : list Action :=
  match card with
  | ItemCard _ cid _ =>
      flat_map (λ '(slot, stack),
                 if place_allowed stack cid then [Place h slot] else [])
        (enumerate (slots_list (constructs me)))
  | SpellCard cid =>
      (if str_in cid TARGETING_MONSTER_SPELLS then
         flat_map (λ o, map (PlaySpell h o TMonster) (occupied (monsters (owner_zone me opp o))))
           [Me; Opp]
       else [])
      ++
      (if str_in cid TARGETING_CONSTRUCT_SPELLS then
         flat_map (λ o, map (PlaySpell h o TConstruct)
                          (occupied (constructs (owner_zone me opp o))))
           [Me; Opp]
       else [])
  end.

Definition summon_moves (p : Player) : list Action :=
  if summoned p then []
  else
    let open_slot := firstEmptySlot (monsters p) in
    flat_map (λ pred_slot,
      flat_map (λ out_slot,
        if negb (open_slot =? -1) then [Summon pred_slot out_slot None]
        else map (λ r, Summon pred_slot out_slot (Some r)) (occupied (monsters p)))
        range3)
      range3.

Definition localCanMeta (p : Player) : bool :=
  match slot0 (monsters p), slot1 (monsters p), slot2 (monsters p) with
  | Some m0, Some m1, Some m2 =>
      let same_pred :=
        forallb (λ x, String.eqb (predId x) (predId m0) && negb (String.eqb (predId x) "META"))
          [m0; m1; m2] in
      let same_out :=
        forallb (λ x, String.eqb (outId x) (outId m0) && negb (String.eqb (outId x) "META"))
          [m0; m1; m2] in
      same_pred || same_out
  | _, _, _ => false
  end.

Definition canMonsterAttack (monster : option Monster) : bool :=
  match monster with
  | None => false
  | Some m =>
      if summoningSick m || (maxAttacks m <=? attacksMade m) then false
      else if requiresJobRelevance m && negb (hasJobRelevance m) then false
      else true
  end.

Definition attack_moves (me opp : Player) : list Action :=
  let opponent_has_monsters := existsb present (slots_list (monsters opp)) in
  flat_map (λ '(a, m),
    if negb (canMonsterAttack m) then []
    else
      (if negb opponent_has_monsters then [Attack a TLp None] else [])
      ++ map (λ t, Attack a TMonster (Some t)) (occupied (monsters opp)))
    (enumerate (slots_list (monsters me))).

Definition legal_actions (S : GameState) : list Action :=
  match status S with
  | finished => []
  | active =>
      let pid := currentPlayer S in
      let p := player S pid in
      let opp := player S (other pid) in
      if 0 <? pendingDiscard p then
        map (λ i, Discard (Z.of_nat i)) (seq 0 (length (hand p)))
      else
        flat_map (λ '(h, card), card_moves p opp h card) (enumerate (hand p))
        ++ (if (EXPERIENCE_MISS_THRESHOLD <=? experienceTokens p)
               && (0 <? length (deck p))%nat
            then [ExperienceDraw] else [])
        ++ summon_moves p
        ++ (if localCanMeta p then [Meta] else [])
        ++ attack_moves p opp
        ++ [EndTurn]
  end.

(** ** Transitions *)

Definition _mark_game_over (S : GameState) : GameState :=
  if (lp (player1 S) <=? 0) || (lp (player2 S) <=? 0) then
    {| status := finished;
       currentPlayer := currentPlayer S;
       winner := Some (if 0 <? lp (player1 S) then P1 else P2);
       player1 := player1 S;
       player2 := player2 S |}
  else S.

(** The tail of every branch of [next_state] that does not return early:
    store both zones, then [_mark_game_over]. *)
Definition finish (S : GameState) (pid : PlayerId) (me opp : Player) : GameState :=
  _mark_game_over (with_players S pid me opp).

(** [range_restrict] on its target: one more stack, then the refresh. *)
Definition cast_range_restrict (target : Monster) : option Monster :=
  refreshMonsterStats
    (set_rangeRestrictionStacks (Z.max 0 (rangeRestrictionStacks target) + 1) target).

(** The effect of a spell on a present monster [target]: [Some m] is the
    monster left in the slot, [None] an emptied slot.  [is_monster] is the
    test [action["target_type"] == "monster"]. *)
Definition spell_on_monster (cid : string) (owner : Owner) (is_monster : bool)
    (target : Monster) : option (option Monster) :=
  let is_me := match owner with Me => true | Opp => false end in
  let is_opp := negb is_me in
  if String.eqb cid "sample_size" && is_monster then
    Some <$> refreshMonsterStats (set_n (clampZ (n target + 150) 50 420) target)
  else if String.eqb cid "job_relevance" && is_monster && is_me then
    Some (Some (set_hasJobRelevance true target))
  else if String.eqb cid "imputation" && is_monster && is_me then
    Some (Some (set_hasImputation true target))
  else if String.eqb cid "p_hacking" && is_monster && is_me then
    Some (Some (set_hasPHacking true target))
  else if String.eqb cid "practice_effect" && is_monster then
    Some (Some (set_hasPracticeEffect true target))
  else if String.eqb cid "missing_data" then
    if is_monster && hasImputation target then Some (Some (set_hasImputation false target))
    else Some None
  else if String.eqb cid "range_restrict" && is_monster && is_opp then
    Some <$> cast_range_restrict target
  else if String.eqb cid "item_leakage" && is_monster && is_opp then
    Some <$> refreshMonsterStats (set_itemLeakageApplied true target)
  else if String.eqb cid "correction" && is_monster && is_me then
    Some <$> refreshMonsterStats
      (set_rangeRestrictionStacks 0 (set_correctionApplied true target))
  else if String.eqb cid "bootstrapping" && is_monster && is_me then
    Some <$> refreshMonsterStats (set_n (n target + 50) (set_baseN (baseN target + 50) target))
  else if String.eqb cid "criterion_contam" && is_monster && is_opp then
    Some <$> refreshMonsterStats
      (set_baseN (Z.max 1 (baseN target / 2)) (set_n (Z.max 1 (n target / 2)) target))
  else Some (Some target).

Definition set_cards (v : list Card) (st : Stack) : Stack :=
  mkStack (stack_type st) (stack_constructId st) v.

(** The effect of a spell on a present construct stack [target]; for a
    stack every test [action["target_type"] == "monster"] fails, so of the
    monster spells only the unconditional [missing_data] branch remains. *)
Definition spell_on_construct (cid : string) (owner : Owner) (target : Stack)
    : option (option Stack) :=
  let is_me := match owner with Me => true | Opp => false end in
  let is_opp := negb is_me in
  if String.eqb cid "missing_data" then Some None
  else if String.eqb cid "item_analysis" && is_me && (length (cards target) <? 3)%nat then
    c ← last (cards target);
    Some (Some (set_cards (cards target ++ [c]) target))
  else if String.eqb cid "construct_drift" && is_opp then
    if (1 <? length (cards target))%nat
    then Some (Some (set_cards (removelast (cards target)) target))
    else Some None
  else Some (Some target).

(** [play_spell] after the card has left the hand: the zone that owns the
    target, updated. *)
Definition resolve_spell (cid : string) (owner : Owner) (target_type : TargetType)
    (target_slot : Z) (zone : Player) : option Player :=
  match target_type with
  | TConstruct =>
      target ← slot_get (constructs zone) target_slot;
      match target with
      | None => Some zone
      | Some st =>
          r ← spell_on_construct cid owner st;
          arr ← slot_set (constructs zone) target_slot r;
          Some (set_constructs arr zone)
      end
  | TMonster | TLp =>
      target ← slot_get (monsters zone) target_slot;
      match target with
      | None => Some zone
      | Some m =>
          let is_monster := match target_type with TMonster => true | _ => false end in
          r ← spell_on_monster cid owner is_monster m;
          arr ← slot_set (monsters zone) target_slot r;
          Some (set_monsters arr zone)
      end
  end.

(** Apply [f] to every present monster of a zone, in slot order. *)
Definition for_monsters (f : Monster → option Monster) (arr : Slots Monster)
    : option (Slots Monster) :=
  let on (x : option Monster) : option (option Monster) :=
    match x with None => Some None | Some m => Some <$> f m end in
  a ← on (slot0 arr); b ← on (slot1 arr); c ← on (slot2 arr);
  Some (mkSlots a b c).

Definition end_of_turn_refresh (m : Monster) : option Monster :=
  refreshMonsterStats (set_itemLeakageApplied false (set_correctionApplied false m)).

Definition start_of_turn_refresh (m : Monster) : option Monster :=
  refreshMonsterStats (set_maxAttacks 1 (set_attacksMade 0 (set_summoningSick false m))).

(** The ["attack"] branch once the attacker is known to be present: the
    two zones after combat. *)
Definition resolve_attack (attacker_slot : Z) (target_type : TargetType)
    (target_slot : option Z) (attacker : Monster) (me opp : Player)
    : option (Player * Player) :=
  let attacker := set_attacksMade (attacksMade attacker + 1) attacker in
  arr ← slot_set (monsters me) attacker_slot (Some attacker);
  let me := set_monsters arr me in
  '(me, opp) ←
    match target_type with
    | TLp => Some (me, set_lp (Z.max 0 (lp opp - atk attacker)) opp)
    | _ =>
        ts ← target_slot;
        defender ← slot_get (monsters opp) ts;
        match defender with
        | None => Some (me, opp)
        | Some d =>
            if atk d <? atk attacker then
              arr' ← slot_set (monsters opp) ts None;
              Some (me, set_monsters arr'
                          (set_lp (Z.max 0 (lp opp - (atk attacker - atk d))) opp))
            else if atk attacker <? atk d then
              arr' ← slot_set (monsters me) attacker_slot None;
              Some (set_monsters arr' (set_lp (Z.max 0 (lp me - (atk d - atk attacker))) me),
                    opp)
            else
              arr' ← slot_set (monsters me) attacker_slot None;
              arr'' ← slot_set (monsters opp) ts None;
              Some (set_monsters arr' me, set_monsters arr'' opp)
        end
    end;
  survivor ← slot_get (monsters me) attacker_slot;
  match survivor with
  | Some m =>
      if hasPHacking m then
        arr' ← slot_set (monsters me) attacker_slot None;
        Some (set_monsters arr' me, opp)
      else Some (me, opp)
  | None => Some (me, opp)
  end.

Definition next_state (S : GameState) (action : Action) : option GameState :=
  match status S with
  | finished => Some S
  | active =>
      let pid := currentPlayer S in
      let oppid := other pid in
      let me := player S pid in
      let opp := player S oppid in
      match action with
      | Place hand_index slot =>
          card ← py_get (hand me) hand_index;
          if negb (isItem card) then Some S
          else
            '(placed, hand') ← py_pop (hand me) hand_index;
            stack ← slot_get (constructs me) slot;
            new_stack ←
              match stack with
              | None => makeConstructStackFromCard placed
              | Some st => Some (set_cards (cards st ++ [placed]) st)
              end;
            arr ← slot_set (constructs me) slot (Some new_stack);
            Some (finish S pid (set_constructs arr (set_hand hand' me)) opp)
      | Discard hand_index =>
          if (0 <=? hand_index) && (hand_index <? Z.of_nat (length (hand me))) then
            '(_, hand') ← py_pop (hand me) hand_index;
            Some (finish S pid
                    (set_pendingDiscard (Z.max 0 (pendingDiscard me - 1)) (set_hand hand' me))
                    opp)
          else Some (finish S pid me opp)
      | ExperienceDraw =>
          let me := set_experienceTokens (experienceTokens me - EXPERIENCE_MISS_THRESHOLD) me in
          let me := drawCards (Z.to_nat EXPERIENCE_DRAW_COUNT) true me in
          Some (finish S pid (enforceHandLimit me) opp)
      | Summon pred_slot out_slot replace =>
          pred ← slot_get (constructs me) pred_slot;
          out ← slot_get (constructs me) out_slot;
          match pred, out with
          | Some ps, Some os =>
              if String.eqb (stack_type ps) "predictor" && String.eqb (stack_type os) "outcome"
                 && negb (pred_slot =? out_slot)
              then
                monster ← buildMonster ps os;
                arr ← slot_set (constructs me) pred_slot None;
                arr ← slot_set arr out_slot None;
                let mslot := firstEmptySlot (monsters me) in
                let mslot := if mslot =? -1 then default 0 replace else mslot in
                marr ← slot_set (monsters me) mslot (Some monster);
                Some (finish S pid
                        (set_summoned true (set_monsters marr (set_constructs arr me))) opp)
              else Some (finish S pid me opp)
          | _, _ => Some (finish S pid me opp)
          end
      | PlaySpell hand_index target_owner target_type target_slot =>
          '(card, hand') ← py_pop (hand me) hand_index;
          let me := set_hand hand' me in
          match card with
          | ItemCard _ _ _ =>
              (* [arr[action["target_slot"]]] is read first, then [card["id"]] fails *)
              None
          | SpellCard cid =>
              match target_owner with
              | Me =>
                  me' ← resolve_spell cid Me target_type target_slot me;
                  Some (finish S pid me' opp)
              | Opp =>
                  opp' ← resolve_spell cid Opp target_type target_slot opp;
                  Some (finish S pid me opp')
              end
          end
      | Attack attacker_slot target_type target_slot =>
          attacker ← slot_get (monsters me) attacker_slot;
          match attacker with
          | None => Some (finish S pid me opp)
          | Some a =>
              '(me', opp') ← resolve_attack attacker_slot target_type target_slot a me opp;
              Some (finish S pid me' opp')
          end
      | Meta =>
          if localCanMeta me then
            titan ← buildMetaMonster (omap id (slots_list (monsters me)));
            Some (finish S pid (set_monsters (mkSlots (Some titan) None None) me) opp)
          else Some (finish S pid me opp)
      | EndTurn =>
          marr ← for_monsters end_of_turn_refresh (monsters me);
          let me := set_monsters marr me in
          let np := set_summoned false opp in
          let np := drawCards 1 true np in
          let np := enforceHandLimit np in
          narr ← for_monsters start_of_turn_refresh (monsters np);
          let np := set_monsters narr np in
          Some (finish (set_currentPlayer oppid S) pid me np)
      end
  end.

Definition is_terminal (S : GameState) : bool :=
  match status S with finished => true | active => false end.

Definition terminal_value (S : GameState) (p : PlayerId) : Z :=
  if negb (is_terminal S) then 0
  else
    match winner S with
    | Some w => if bool_decide (w = p) then 1 else -1
    | None => 0
    end.

(** ** The static action space ([train_alphazero.ActionSpace]) *)

(** The values that occur in an action dictionary. *)
Inductive JVal : Type :=
  | JStr (s : string)
  | JInt (z : Z)
  | JNull.

Definition owner_name (o : Owner) : string :=
  match o with Me => "me" | Opp => "opp" end.

Definition target_type_name (t : TargetType) : string :=
  match t with TMonster => "monster" | TConstruct => "construct" | TLp => "lp" end.

(** The dictionary of an action, entries in the order the source writes
    them. *)
Definition action_dict (a : Action) : list (string * JVal) :=
  match a with
  | EndTurn => [("type", JStr "end_turn")]
  | Meta => [("type", JStr "meta")]
  | ExperienceDraw => [("type", JStr "experience_draw")]
  | Discard h => [("type", JStr "discard_card"); ("hand_index", JInt h)]
  | Place h slot => [("type", JStr "place_card"); ("hand_index", JInt h); ("slot", JInt slot)]
  | PlaySpell h o t ts =>
      [("type", JStr "play_spell"); ("hand_index", JInt h);
       ("target_owner", JStr (owner_name o)); ("target_type", JStr (target_type_name t));
       ("target_slot", JInt ts)]
  | Summon p o None =>
      [("type", JStr "summon"); ("pred_slot", JInt p); ("out_slot", JInt o)]
  | Summon p o (Some r) =>
      [("type", JStr "summon"); ("pred_slot", JInt p); ("out_slot", JInt o);
       ("replace_monster_slot", JInt r)]
  | Attack a t ts =>
      [("type", JStr "attack"); ("attacker_slot", JInt a);
       ("target_type", JStr (target_type_name t));
       ("target_slot", match ts with Some i => JInt i | None => JNull end)]
  end.

(** The double-quote character. *)
Definition dquote : string := String (Ascii.ascii_of_nat 34) EmptyString.

(** [json.dumps] of a value; the strings of an action need no escaping. *)
Definition dumps_value (v : JVal) : string :=
  match v with
  | JStr s => dquote +:+ s +:+ dquote
  | JInt z => pretty z
  | JNull => "null"
  end.

(** Insertion of an entry into a dictionary sorted by key. *)
Fixpoint insert_sorted (e : string * JVal) (d : list (string * JVal))
    : list (string * JVal) :=
  match d with
  | [] => [e]
  | e' :: d' => if String.leb (fst e) (fst e') then e :: d else e' :: insert_sorted e d'
  end.

Definition sort_keys (d : list (string * JVal)) : list (string * JVal) :=
  foldr insert_sorted [] d.

Definition dumps_entry (e : string * JVal) : string :=
  dquote +:+ fst e +:+ dquote +:+ ":" +:+ dumps_value (snd e).

Fixpoint join_comma (l : list string) : string :=
  match l with
  | [] => ""
  | [x] => x
  | x :: l' => x +:+ "," +:+ join_comma l'
  end.

(** [json.dumps(action, sort_keys=True, separators=(",", ":"))] *)
Definition _action_key (action : Action) : string :=
  "{" +:+ join_comma (map dumps_entry (sort_keys (action_dict action))) +:+ "}".

Record ActionSpace : Type := mkActionSpace {
  actions : list Action;
  action_to_id : gmap string nat
}.

Definition _register (action : Action) (sp : ActionSpace) : ActionSpace :=
  let k := _action_key action in
  match action_to_id sp !! k with
  | Some _ => sp
  | None => mkActionSpace (actions sp ++ [action]) (<[k := length (actions sp)]> (action_to_id sp))
  end.

(** [range(k)] *)
Definition range (k : nat) : list Z := map Z.of_nat (seq 0 k).

(** The actions that [_build] registers, in order. *)
Definition registration_order : list Action :=
  [EndTurn; Meta; ExperienceDraw]
  ++ flat_map (λ h,
       [Discard h]
       ++ map (Place h) (range 3)
       ++ flat_map (λ owner,
            flat_map (λ target_slot,
              [PlaySpell h owner TMonster target_slot;
               PlaySpell h owner TConstruct target_slot])
              (range 3))
            [Me; Opp])
       (range (Z.to_nat MAX_HAND_SIZE))
  ++ flat_map (λ pred_slot,
       flat_map (λ out_slot,
         Summon pred_slot out_slot None
         :: map (λ rep, Summon pred_slot out_slot (Some rep)) (range 3))
         (range 3))
       (range 3)
  ++ flat_map (λ attacker_slot,
       Attack attacker_slot TLp None
       :: map (λ target_slot, Attack attacker_slot TMonster (Some target_slot)) (range 3))
       (range 3).

Definition _build (sp : ActionSpace) : ActionSpace :=
  foldl (λ sp a, _register a sp) sp registration_order.

(** [ActionSpace()] *)
Definition action_space : ActionSpace := _build (mkActionSpace [] ∅).

(** [to_id]: [None] is the KeyError. *)
Definition to_id (sp : ActionSpace) (action : Action) : option nat :=
  action_to_id sp !! _action_key action.

Definition size (sp : ActionSpace) : nat := length (actions sp).

(** [MCTS._legal_ids]: actions without an id are skipped. *)
Definition _legal_ids (sp : ActionSpace) (S : GameState) : list nat :=
  omap (to_id sp) (legal_actions S).

(** ** The two game loops ([train_alphazero]) *)


Section GameLoops.

(** What the loops take from the search: [Search] is everything the
    search and the sampling read and update (networks, random generators);
    [select] stands for [mcts.run] followed by [choose_action] in
    [self_play_episode], and [greedy] for [mcts.run] followed by
    [np.argmax] in [play_match], where the network is that of the player
    to move. *)
Variable Search : Type.
Variable select : Search → GameState → PlayerId → Z → nat * Search.
Variable greedy : Search → GameState → PlayerId → nat.

(** The [while] loop of [self_play_episode], [remaining] being
    [max_moves - move_num]: the final state, the number of moves made and
    the players to move of the trajectory, oldest first. *)
Fixpoint self_play_loop (remaining : nat) (sr : Search) (state : GameState)
    (move_num : Z) (trajectory : list PlayerId)
    : option (GameState * Z * list PlayerId) :=
  if is_terminal state then Some (state, move_num, trajectory)
  else
    match remaining with
    | O => Some (state, move_num, trajectory)
    | S remaining' =>
        let to_play := currentPlayer state in
        let '(action_id, sr') := select sr state to_play move_num in
        action ← actions action_space !! action_id;
        state' ← next_state state action;
        self_play_loop remaining' sr' state' (move_num + 1) (trajectory ++ [to_play])
    end.


(** The [while] loop of [play_match]. *)
Fixpoint match_loop (remaining : nat) (net_a net_b : Search) (state : GameState)
    (move_num : Z) : option (GameState * Z) :=
  if is_terminal state then Some (state, move_num)
  else
    match remaining with
    | O => Some (state, move_num)
    | S remaining' =>
        let player := currentPlayer state in
        let active_net := if bool_decide (player = P1) then net_a else net_b in
        let action_id := greedy active_net state player in
        action ← actions action_space !! action_id;
        state' ← next_state state action;
        match_loop remaining' net_a net_b state' (move_num + 1)
    end.


End GameLoops.

(** ** Fixtures *)

(** A monster as [buildMonster] leaves its flags, with the given validity,
    reliabilities and range-restriction stacks. *)
Definition plain_monster (r_true alpha : float) (stacks : Z) : Monster :=
  {| predId := "cog_ability";
     outId := "job_perf";
     predAlpha := alpha;
     outAlpha := alpha;
     rTrue := r_true;
     adverseImpact := dec 95 2;
     adverseStars := 1;
     requiresJobRelevance := true;
     rObs := S754_zero false;
     baseAtk := 0;
     atk := 0;
     baseN := 50;
     n := 50;
     power := dec 1 1;
     attacksMade := 0;
     maxAttacks := 1;
     summoningSick := true;
     hasJobRelevance := false;
     hasImputation := false;
     hasPHacking := false;
     hasPracticeEffect := false;
     itemLeakageApplied := false;
     correctionApplied := false;
     rangeRestrictionStacks := stacks;
     validityMultiplier := of_int 1;
     isMeta := false |}.

(** Validity 1 and reliabilities 1: the effective attack base is 10000. *)
Definition full_monster (stacks : Z) : Monster :=
  plain_monster (of_int 1) (of_int 1) stacks.

(** A zone of the initial state with another hand and other monsters. *)
Definition zone_with (hand' : list Card) (monsters' : Slots Monster) : Player :=
  set_monsters monsters' (set_hand hand' starting_player).

(** Player 1 to move, holding [hand1]; player 2 owns the monster [m] in
    slot 0. *)
Definition duel_fixture (hand1 : list Card) (m : Monster) : GameState :=
  {| status := active; currentPlayer := P1; winner := None;
     player1 := zone_with hand1 empty_slots;
     player2 := zone_with [] (mkSlots (Some m) None None) |}.

(** A finished game: player 2 is out of life points. *)
Definition finished_fixture : GameState :=
  {| status := finished; currentPlayer := P1; winner := Some P1;
     player1 := starting_player; player2 := set_lp 0 starting_player |}.

(** The initial state after player 1 has ended the turn. *)
Definition second_turn_fixture : option GameState := next_state initial_state EndTurn.

(** ** Predicates used in the statements *)

(** What [legal_actions] guarantees of each action it lists in [S]. *)
Definition legal_shape (S : GameState) (a : Action) : Prop :=
  let p := player S (currentPlayer S) in
  let in3 (i : Z) := 0 ≤ i < 3 in
  status S = active
  ∧ match a with
    | Discard h => 0 < pendingDiscard p ∧ 0 ≤ h < Z.of_nat (length (hand p))
    | Place h slot =>
        pendingDiscard p ≤ 0 ∧ 0 ≤ h
        ∧ ∃ t cid r stack,
            hand p !! Z.to_nat h = Some (ItemCard t cid r)
            ∧ in3 slot
            ∧ slot_get (constructs p) slot = Some stack
            ∧ place_allowed stack cid = true
    | PlaySpell h _ t ts =>
        pendingDiscard p ≤ 0 ∧ 0 ≤ h < Z.of_nat (length (hand p))
        ∧ (t = TMonster ∨ t = TConstruct) ∧ in3 ts
    | Summon ps os r =>
        pendingDiscard p ≤ 0 ∧ in3 ps ∧ in3 os
        ∧ match r with Some i => in3 i | None => True end
    | Attack i t ts =>
        pendingDiscard p ≤ 0 ∧ in3 i
        ∧ ((t = TLp ∧ ts = None) ∨ (t = TMonster ∧ ∃ j, ts = Some j ∧ in3 j))
    | ExperienceDraw =>
        pendingDiscard p ≤ 0 ∧ EXPERIENCE_MISS_THRESHOLD ≤ experienceTokens p
        ∧ deck p ≠ []
    | Meta | EndTurn => pendingDiscard p ≤ 0
    end.

(** More fixtures. *)

Definition cog_card : Card := ItemCard "predictor" "cog_ability" (dec 65 2).

Definition two_card_stack : Stack := mkStack "predictor" "cog_ability" [cog_card; cog_card].

(** Player 1 to move with a [missing_data] card; player 2 owns a stack of
    two cards in construct slot 0. *)
Definition missing_data_fixture : GameState :=
  {| status := active; currentPlayer := P1; winner := None;
     player1 := zone_with [SpellCard "missing_data"] empty_slots;
     player2 := set_constructs (mkSlots (Some two_card_stack) None None) starting_player |}.



(** The initial state with four experience tokens for player 1. *)
Definition tokens_fixture : GameState :=
  {| status := active; currentPlayer := P1; winner := None;
     player1 := set_experienceTokens 4 starting_player;
     player2 := starting_player |}.

(** The state after the first [end_turn] of a game, and the state after
    the discard that player 2 then owes. *)
Definition second_turn_state : GameState :=
  default initial_state (next_state initial_state EndTurn).

Definition after_discard_state : GameState :=
  default initial_state (next_state second_turn_state (Discard 0)).

(** The shape of the descriptors that [ActionSpace._build] registers. *)
Definition in_schema (a : Action) : Prop :=
  let in3 (i : Z) := 0 ≤ i < 3 in
  match a with
  | EndTurn | Meta | ExperienceDraw => True
  | Discard h => 0 ≤ h < MAX_HAND_SIZE
  | Place h slot => 0 ≤ h < MAX_HAND_SIZE ∧ in3 slot
  | PlaySpell h _ t ts =>
      0 ≤ h < MAX_HAND_SIZE ∧ (t = TMonster ∨ t = TConstruct) ∧ in3 ts
  | Summon ps os r => in3 ps ∧ in3 os ∧ match r with Some i => in3 i | None => True end
  | Attack i t ts =>
      in3 i ∧ ((t = TLp ∧ ts = None) ∨ (t = TMonster ∧ ∃ j, ts = Some j ∧ in3 j))
  end.

(** ** Reachable states and the stack invariant *)

#[global] Instance Owner_eq_dec : EqDecision Owner.
Proof. solve_decision. Defined.

#[global] Instance TargetType_eq_dec : EqDecision TargetType.
Proof. solve_decision. Defined.

#[global] Instance Action_eq_dec : EqDecision Action.
Proof. solve_decision. Defined.

(** The states that a game can reach: from [initial_state], by actions
    that [legal_actions] lists and on which [next_state] returns. *)
Inductive reachable : GameState → Prop :=
  | reachable_initial : reachable initial_state
  | reachable_step (S S' : GameState) (a : Action) :
      reachable S → In a (legal_actions S) → next_state S a = Some S' → reachable S'.

(** Playing a list of actions, each of which has to be legal. *)
Fixpoint play (l : list Action) (S : GameState) : option GameState :=
  match l with
  | [] => Some S
  | a :: l' =>
      if bool_decide (a ∈ legal_actions S) then next_state S a ≫= play l' else None
  end.

(** [CONSTRUCTS[cid]["type"]] *)
Definition construct_category (cid : string) : option string :=
  fst <$> assoc cid CONSTRUCTS.

(** An item card is well formed when its ["type"] is the category of its
    construct, as [makeItemCard] makes it. *)
Definition card_ok (c : Card) : Prop :=
  match c with
  | ItemCard t cid _ => construct_category cid = Some t
  | SpellCard _ => True
  end.

Definition stack_ok (st : Stack) : Prop :=
  (1 ≤ length (cards st) ≤ 3)%nat
  ∧ (∀ c, In c (cards st) → card_constructId c = Some (stack_constructId st))
  ∧ construct_category (stack_constructId st) = Some (stack_type st).

Definition slots_ok (arr : Slots Stack) : Prop :=
  ∀ st, In (Some st) (slots_list arr) → stack_ok st.

Definition zone_ok (p : Player) : Prop :=
  Forall card_ok (hand p) ∧ Forall card_ok (deck p) ∧ slots_ok (constructs p).

Definition state_ok (S : GameState) : Prop :=
  zone_ok (player1 S) ∧ zone_ok (player2 S).

(** Thirteen rounds of drawing and discarding, after which player 2 draws
    the first item card of the deck and places it. *)
Definition first_placement : list Action :=
  EndTurn :: mjoin (replicate 24 [Discard 0; EndTurn]) ++ [Discard 0; Place 11 0].

Definition first_stack_state : GameState :=
  default initial_state (play first_placement initial_state).

Definition ocb_stack : Stack :=
  mkStack "outcome" "ocb" [ItemCard "outcome" "ocb" (dec 44 2)].

(** ** Invariants of the states of a game *)

(** A float that is not negative: the sign of an infinity or of a non-zero
    finite value is clear (the sign of a zero does not matter to [round]). *)
Definition fnonneg (x : float) : Prop :=
  match x with
  | S754_finite s _ _ | S754_infinity s => s = false
  | S754_zero _ | S754_nan => True
  end.

(** The hand of a player holds at most [limit] cards, [pendingDiscard] is
    what the hand holds beyond [MAX_HAND_SIZE], and no experience token has
    been earned. *)
Definition hand_ok (limit : Z) (p : Player) : Prop :=
  Z.of_nat (length (hand p)) ≤ limit
  ∧ pendingDiscard p = Z.max 0 (Z.of_nat (length (hand p)) - MAX_HAND_SIZE)
  ∧ experienceTokens p = 0.

Definition atk_ok (p : Player) : Prop :=
  ∀ m, In (Some m) (slots_list (monsters p)) → 0 ≤ atk m.

Definition zone_inv (limit : Z) (p : Player) : Prop :=
  hand_ok limit p ∧ atk_ok p ∧ 0 ≤ lp p ≤ 8000.

(** The player to move may hold the card just drawn beyond the limit. *)
Definition hand_limit (S : GameState) (p : PlayerId) : Z :=
  if bool_decide (p = currentPlayer S) then 13 else 12.

Definition score_ok (S : GameState) : Prop :=
  match status S with
  | active => winner S = None ∧ 0 < lp (player1 S) ∧ 0 < lp (player2 S)
  | finished =>
      ∃ w, winner S = Some w ∧ 0 < lp (player S w) ∧ lp (player S (other w)) = 0
  end.

Definition duel_ok (S : GameState) : Prop :=
  (∀ p, zone_inv (hand_limit S p) (player S p)) ∧ score_ok S.

(** A whole game.  Player 2 only discards and ends the turn; player 1
    stacks three [ocb] items and a [work_sample] item, summons the monster,
    plays [job_relevance] on it and attacks fourteen times. *)
Definition full_game : list Action :=
  mjoin (replicate 26 [EndTurn; Discard 0])
  ++ mjoin (replicate 3 [Place 11 0; EndTurn; Discard 0; EndTurn])
  ++ mjoin (replicate 2 [EndTurn; Discard 0])
  ++ mjoin (replicate 3 [EndTurn; Discard 4; EndTurn; Discard 0])
  ++ mjoin (replicate 18 [EndTurn; Discard 4])
  ++ [Place 11 1; Summon 1 0 None; PlaySpell 0 Me TMonster 0]
  ++ mjoin (replicate 2 [EndTurn; Discard 4; EndTurn; Attack 0 TLp None])
  ++ mjoin (replicate 12 [EndTurn; Discard 4; EndTurn; Discard 3; Attack 0 TLp None]).

Definition full_game_state : GameState :=
  default initial_state (play full_game initial_state).

(** The state [a] is applied to once the turn has passed, if it passes. *)
Definition passed (a : Action) (S : GameState) : GameState :=
  match a with
  | EndTurn => set_currentPlayer (other (currentPlayer S)) S
  | _ => S
  end.

(** Actions whose branch of [next_state] never reads or writes the zone of
    the opponent. *)
Definition solitary (a : Action) : bool :=
  match a with
  | Discard _ | Place _ _ | ExperienceDraw | Summon _ _ _ | Meta
  | PlaySpell _ Me _ _ => true
  | _ => false
  end.

(** States along the two games above: before the first item is placed,
    before the last attack, and the monster that makes it. *)
Definition first_item_state : GameState :=
  default initial_state (play (removelast first_placement) initial_state).

Definition before_last_attack : GameState :=
  default initial_state (play (removelast full_game) initial_state).

Definition winning_monster : Monster :=
  default (full_monster 0) (slot0 (monsters (player full_game_state P1))).

(** A monster before and after a refresh. *)
Definition stale_monster : Monster := plain_monster (dec 51 2) (dec 65 2) 1.

Definition refreshed_monster : Monster :=
  default stale_monster (refreshMonsterStats stale_monster).

(** A zone with the full deck and an empty hand. *)
Definition fresh_player : Player := set_hand [] (set_deck buildStartingDeck starting_player).

(** ** The action space as a bijection *)

(** The characters of a JSON integer. *)
Definition num_char (c : Ascii.ascii) : bool :=
  bool_decide (String c EmptyString
               ∈ ["0"; "1"; "2"; "3"; "4"; "5"; "6"; "7"; "8"; "9"; "-"]).

Fixpoint all_num (s : string) : bool :=
  match s with
  | EmptyString => true
  | String c s' => num_char c && all_num s'
  end.

(** The two tables of an action space agree: the action at index [i] has
    the id [i], and every key that has an id is the key of the action at
    that index. *)
Definition space_ok (sp : ActionSpace) : Prop :=
  (∀ i a, actions sp !! i = Some a → action_to_id sp !! _action_key a = Some i)
  ∧ (∀ k i, action_to_id sp !! k = Some i →
       ∃ a, actions sp !! i = Some a ∧ _action_key a = k).

(** A search that answers the first legal id. *)
Definition first_legal (sr : unit) (state : GameState) (p : PlayerId) (move_num : Z)
    : nat * unit := (hd 0%nat (_legal_ids action_space state), sr).

Definition first_legal_greedy (sr : unit) (state : GameState) (p : PlayerId) : nat :=
  hd 0%nat (_legal_ids action_space state).

(** The ["hand_index"] entry of a descriptor, if it has one, is below
    [MAX_HAND_SIZE]. *)
Definition low_hand_index (a : Action) : Prop :=
  match a with
  | Discard h | Place h _ | PlaySpell h _ _ _ => h < MAX_HAND_SIZE
  | _ => True
  end.

(** * Properties *)

(** ** Monster statistics *)

#[global] Arguments of_int : simpl never.
#[global] Arguments dec : simpl never.
#[global] Arguments round : simpl never.
#[global] Arguments fmul : simpl never.
#[global] Arguments fadd : simpl never.
#[global] Arguments fsqrt : simpl never.
#[global] Arguments fabs : simpl never.
#[global] Arguments fdiv : simpl never.
#[global] Arguments int_to_float : simpl never.
#[global] Arguments int_truediv : simpl never.
#[global] Arguments clamp : simpl never.
#[global] Arguments observed : simpl never.
#[global] Arguments effective_multiplier : simpl never.
#[global] Arguments approxPowerFromROBSandN : simpl never.

Lemma clamp_idempotent v lo hi :
  fltb lo hi = true → fltb lo lo = false → fltb hi hi = false →
  clamp (clamp v lo hi) lo hi = clamp v lo hi.
Proof.
  intros Hlh Hll Hhh. unfold clamp, fmax, fmin.
  destruct (fltb v hi) eqn:E1.
  - destruct (fltb lo v) eqn:E2.
    + by rewrite E1, E2.
    + by rewrite Hlh, Hll.
  - rewrite Hlh, Hhh. by rewrite Hlh.
Qed.

Lemma refresh_nonmeta m :
  isMeta m = false →
  refreshMonsterStats m =
    base_atk ← round (fmul (fabs (observed m)) (of_int 10000));
    effective ← effective_atk_base m;
    next_atk ← halve (Z.to_nat (Z.max 0 (rangeRestrictionStacks m))) effective;
    a ← int_to_float (Z.abs next_atk);
    r ← fdiv a (of_int 10000);
    p ← approxPowerFromROBSandN r (n m);
    Some (set_power p (set_atk next_atk (set_baseAtk base_atk (set_rObs (observed m) m)))).
Proof.
  intros Hm. unfold refreshMonsterStats, effective_atk_base. rewrite Hm. cbn.
  destruct (round (fmul (fabs (observed m)) (of_int 10000))) as [b|]; [|done]. cbn.
  change (effective_multiplier (set_baseAtk b (set_rObs (observed m) m)))
    with (effective_multiplier m).
  destruct (round (fmul (fmul (fabs (rTrue m)) (effective_multiplier m)) (of_int 10000)));
    [|done].
  reflexivity.
Qed.

Lemma refresh_idem m m1 :
  refreshMonsterStats m = Some m1 → refreshMonsterStats m1 = Some m1.
Proof.
  destruct (isMeta m) eqn:Hm.
  - unfold refreshMonsterStats. rewrite Hm. intros [= <-]. cbn. rewrite Hm.
    rewrite clamp_idempotent by (vm_compute; reflexivity). reflexivity.
  - rewrite refresh_nonmeta by done. intros H.
    destruct (round (fmul (fabs (observed m)) (of_int 10000))) as [b|] eqn:Hb; [|done].
    cbn in H.
    destruct (effective_atk_base m) as [e|] eqn:He; [|done]. cbn in H.
    destruct (halve _ e) as [a|] eqn:Ha; [|done]. cbn in H.
    destruct (int_to_float (Z.abs a)) as [fa|] eqn:Hfa; [|done]. cbn in H.
    destruct (fdiv fa (of_int 10000)) as [r|] eqn:Hr; [|done]. cbn in H.
    destruct (approxPowerFromROBSandN r (n m)) as [p|] eqn:Hp; [|done]. cbn in H.
    injection H as <-.
    rewrite refresh_nonmeta by done.
    change (observed (set_power p (set_atk a (set_baseAtk b (set_rObs (observed m) m)))))
      with (observed m).
    rewrite Hb. cbn.
    change (effective_atk_base _) with (effective_atk_base m).
    rewrite He. cbn. rewrite Ha. cbn. rewrite Hfa. cbn. rewrite Hr. cbn. rewrite Hp. cbn.
    reflexivity.
Qed.

Lemma halve_snoc k x :
  halve (S k) x = halve k x ≫= halve 1.
Proof.
  revert x. induction k as [|k IH]; intros x.
  - cbn. destruct (int_truediv x 2) as [q|]; [|done]. cbn.
    by destruct (round q).
  - change (halve (S (S k)) x) with (q ← int_truediv x 2; a ← round q; halve (S k) a).
    change (halve (S k) x) with (q ← int_truediv x 2; a ← round q; halve k a).
    destruct (int_truediv x 2) as [q|]; [|done]. cbn [mbind option_bind].
    destruct (round q) as [a|]; [|done]. cbn [mbind option_bind]. apply IH.
Qed.

Lemma approxPower_total r r' k p :
  approxPowerFromROBSandN r k = Some p → is_Some (approxPowerFromROBSandN r' k).
Proof.
  unfold approxPowerFromROBSandN. destruct (int_truediv _ _); [|done]. by eexists.
Qed.

Lemma stacks_after_cast s : Z.to_nat (Z.max 0 (Z.max 0 s + 1)) = S (Z.to_nat (Z.max 0 s)).
Proof. lia. Qed.

(** One more cast on a refreshed monster halves its attack once more. *)
Lemma cast_range_restrict_step m m0 a' :
  isMeta m = false →
  refreshMonsterStats m = Some m0 →
  halve 1 (atk m0) = Some a' →
  is_Some (int_to_float (Z.abs a')) →
  ∃ m1, cast_range_restrict m = Some m1 ∧ atk m1 = a' ∧ isMeta m1 = false
        ∧ refreshMonsterStats m1 = Some m1.
Proof.
  intros Hm H Ha' [fa Hfa].
  assert (∃ m1, cast_range_restrict m = Some m1 ∧ atk m1 = a' ∧ isMeta m1 = false)
    as (m1 & Hc & ? & ?);
    [|exists m1; repeat split; try done; exact (refresh_idem _ _ Hc)].
  rewrite refresh_nonmeta in H by done. unfold cast_range_restrict.
  rewrite refresh_nonmeta by done.
  change (observed (set_rangeRestrictionStacks _ m)) with (observed m).
  change (effective_atk_base (set_rangeRestrictionStacks _ m)) with (effective_atk_base m).
  destruct (round (fmul (fabs (observed m)) (of_int 10000))) as [b|]; [|done].
  cbn [mbind option_bind] in *.
  destruct (effective_atk_base m) as [e|]; [|done]. cbn [mbind option_bind] in *.
  change (rangeRestrictionStacks (set_rangeRestrictionStacks ?v m)) with v.
  rewrite stacks_after_cast, halve_snoc.
  destruct (halve _ e) as [a|]; cbn [mbind option_bind] in *; [|done].
  destruct (int_to_float (Z.abs a)) as [fa0|]; cbn [mbind option_bind] in H; [|done].
  destruct (fdiv fa0 (of_int 10000)) as [r0|]; cbn [mbind option_bind] in H; [|done].
  destruct (approxPowerFromROBSandN r0 (n m)) as [p0|] eqn:Hp0; [|done].
  cbn [mbind option_bind] in H. injection H as <-. cbn [atk set_power set_atk] in Ha'.
  rewrite Ha'. cbn [mbind option_bind]. rewrite Hfa. cbn [mbind option_bind].
  assert (fdiv fa (of_int 10000) = Some (SFdiv prec emax fa (of_int 10000))) as -> by done.
  cbn [mbind option_bind].
  change (n (set_rangeRestrictionStacks _ m)) with (n m).
  destruct (approxPower_total r0 (SFdiv prec emax fa (of_int 10000)) (n m) p0 Hp0) as [p' ->].
  cbn [mbind option_bind]. eexists. split; [reflexivity|]. done.
Qed.

Lemma refreshed_atk m m0 e :
  isMeta m = false → refreshMonsterStats m = Some m0 → effective_atk_base m = Some e →
  halve (Z.to_nat (Z.max 0 (rangeRestrictionStacks m))) e = Some (atk m0).
Proof.
  intros Hm H He. rewrite refresh_nonmeta in H by done. rewrite He in H.
  destruct (round _) as [b|]; cbn [mbind option_bind] in H; [|done].
  destruct (halve _ e) as [a|]; cbn [mbind option_bind] in H; [|done].
  destruct (int_to_float _); cbn [mbind option_bind] in H; [|done].
  destruct (fdiv _ _); cbn [mbind option_bind] in H; [|done].
  destruct (approxPowerFromROBSandN _ _); cbn [mbind option_bind] in H; [|done].
  by injection H as <-.
Qed.

(** C6. [refreshMonsterStats] is idempotent: whenever it returns on a
    monster record, meta or not, a second run on the result returns the
    very same record; in particular [rObs], [baseAtk], [atk] and [power]
    are those of the first run. *)
Theorem refreshMonsterStats_idempotent (m m1 : Monster) :
  refreshMonsterStats m = Some m1 →
  ∃ m2, refreshMonsterStats m1 = Some m2
        ∧ rObs m2 = rObs m1 ∧ baseAtk m2 = baseAtk m1
        ∧ atk m2 = atk m1 ∧ power m2 = power m1 ∧ m2 = m1.
Proof.
  intros H. exists m1. by rewrite (refresh_idem _ _ H).
Qed.

Lemma refreshMonsterStats_idempotent_witness :
  ∃ m1, refreshMonsterStats (plain_monster (dec 51 2) (dec 65 2) 1) = Some m1
        ∧ atk m1 = 1658
        ∧ ∃ m2, refreshMonsterStats m1 = Some m2
                ∧ rObs m2 = rObs m1 ∧ baseAtk m2 = baseAtk m1
                ∧ atk m2 = atk m1 ∧ power m2 = power m1 ∧ m2 = m1.
Proof.
  eexists. split; [vm_compute; reflexivity|]. split; [reflexivity|].
  apply (refreshMonsterStats_idempotent (plain_monster (dec 51 2) (dec 65 2) 1)).
  vm_compute. reflexivity.
Defined.

(** ** State plumbing *)

Lemma other_involutive pid : other (other pid) = pid.
Proof. by destruct pid. Qed.

Lemma other_neq pid : other pid ≠ pid.
Proof. by destruct pid. Qed.

Lemma mark_player S p : player (_mark_game_over S) p = player S p.
Proof. unfold _mark_game_over. by destruct (_ || _), p. Qed.

Lemma mark_currentPlayer S : currentPlayer (_mark_game_over S) = currentPlayer S.
Proof. unfold _mark_game_over. by destruct (_ || _). Qed.

Lemma mark_status_active S :
  status S = active → 0 < lp (player1 S) → 0 < lp (player2 S) →
  status (_mark_game_over S) = active.
Proof.
  intros Hs H1 H2. unfold _mark_game_over.
  destruct (Z.leb_spec (lp (player1 S)) 0); [lia|].
  destruct (Z.leb_spec (lp (player2 S)) 0); [lia|]. done.
Qed.

Lemma with_players_me S pid me opp : player (with_players S pid me opp) pid = me.
Proof. by destruct pid. Qed.

Lemma with_players_opp S pid me opp : player (with_players S pid me opp) (other pid) = opp.
Proof. by destruct pid. Qed.

Lemma with_players_currentPlayer S pid me opp :
  currentPlayer (with_players S pid me opp) = currentPlayer S.
Proof. by destruct pid. Qed.

Lemma with_players_status S pid me opp : status (with_players S pid me opp) = status S.
Proof. by destruct pid. Qed.

Lemma finish_me S pid me opp : player (finish S pid me opp) pid = me.
Proof. unfold finish. by rewrite mark_player, with_players_me. Qed.

Lemma finish_opp S pid me opp : player (finish S pid me opp) (other pid) = opp.
Proof. unfold finish. by rewrite mark_player, with_players_opp. Qed.

Lemma finish_currentPlayer S pid me opp :
  currentPlayer (finish S pid me opp) = currentPlayer S.
Proof. unfold finish. by rewrite mark_currentPlayer, with_players_currentPlayer. Qed.

Lemma finish_status_active S pid me opp :
  status S = active → 0 < lp me → 0 < lp opp → status (finish S pid me opp) = active.
Proof.
  intros Hs H1 H2. unfold finish. apply mark_status_active.
  - by rewrite with_players_status.
  - by destruct pid.
  - by destruct pid.
Qed.

Lemma with_players_same S : with_players S (currentPlayer S) (player S (currentPlayer S))
    (player S (other (currentPlayer S))) = S.
Proof. destruct S as [st [] w p1 p2]; reflexivity. Qed.

(** ** Python indexing *)

Lemma py_index_lt len i k : py_index len i = Some k → (k < len)%nat.
Proof.
  unfold py_index. intros H.
  destruct (Z.leb_spec 0 i), (Z.ltb_spec i (Z.of_nat len)); cbn in H;
    try (injection H as <-; lia);
    destruct (Z.ltb_spec i 0), (Z.leb_spec 0 (i + Z.of_nat len)); cbn in H;
    try done; injection H as <-; lia.
Qed.

Lemma py_index_of_nat len k : (k < len)%nat → py_index len (Z.of_nat k) = Some k.
Proof.
  intros H. unfold py_index.
  destruct (Z.leb_spec 0 (Z.of_nat k)); [|lia].
  destruct (Z.ltb_spec (Z.of_nat k) (Z.of_nat len)); [|lia].
  cbn. by rewrite Nat2Z.id.
Qed.

Lemma py_pop_length {A} (l l' : list A) i x :
  py_pop l i = Some (x, l') → length l = S (length l').
Proof.
  unfold py_pop. intros H.
  destruct (py_index (length l) i) as [k|] eqn:Hk; cbn in H; [|done].
  destruct (l !! k) as [y|] eqn:Hy; cbn in H; [|done].
  injection H as <- <-. rewrite length_delete; [|by eexists].
  apply lookup_lt_Some in Hy. lia.
Qed.

Lemma py_pop_get {A} (l l' : list A) i x :
  py_pop l i = Some (x, l') → py_get l i = Some x.
Proof.
  unfold py_pop, py_get. intros H.
  destruct (py_index (length l) i) as [k|]; cbn in *; [|done].
  destruct (l !! k); cbn in *; [|done]. by injection H as <- _.
Qed.

Lemma py_get_pop {A} (l : list A) i x :
  py_get l i = Some x → ∃ l', py_pop l i = Some (x, l').
Proof.
  unfold py_pop, py_get. intros H.
  destruct (py_index (length l) i) as [k|]; cbn in *; [|done].
  rewrite H. cbn. by eexists.
Qed.

Lemma slot_get_set {A} (s : Slots A) i x v :
  slot_get s i = Some x →
  ∃ s', slot_set s i v = Some s' ∧ slot_get s' i = Some v.
Proof.
  unfold slot_get, slot_set, py_get. cbn [length slots_list].
  destruct (py_index 3 i) as [k|] eqn:Hk; cbn; [|done].
  intros _. apply py_index_lt in Hk as Hlt.
  destruct k as [|[|[|k]]]; try lia; (eexists; split; [reflexivity|]);
    unfold slot_get, py_get; cbn [length slots_list]; reflexivity.
Qed.

(** ** Range restriction *)

(** [play_spell] with a [range_restrict] card on a monster of the opponent. *)
Lemma play_range_restrict S h ts hand' m m1 :
  status S = active →
  py_pop (hand (player S (currentPlayer S))) h = Some (SpellCard "range_restrict", hand') →
  slot_get (monsters (player S (other (currentPlayer S)))) ts = Some (Some m) →
  cast_range_restrict m = Some m1 →
  ∃ S', next_state S (PlaySpell h Opp TMonster ts) = Some S'
        ∧ currentPlayer S' = currentPlayer S
        ∧ hand (player S' (currentPlayer S)) = hand'
        ∧ slot_get (monsters (player S' (other (currentPlayer S)))) ts = Some (Some m1)
        ∧ lp (player S' (currentPlayer S)) = lp (player S (currentPlayer S))
        ∧ lp (player S' (other (currentPlayer S))) = lp (player S (other (currentPlayer S)))
        ∧ (0 < lp (player1 S) → 0 < lp (player2 S) → status S' = active).
Proof.
  intros Hs Hpop Hget Hcast.
  destruct (slot_get_set _ ts _ (Some m1) Hget) as (arr & Hset & Hget').
  eexists. split.
  { unfold next_state. rewrite Hs, Hpop. cbn [mbind option_bind].
    unfold resolve_spell. rewrite Hget. cbn [mbind option_bind].
    unfold spell_on_monster. cbn -[cast_range_restrict]. rewrite Hcast.
    cbn [fmap option_fmap option_map mbind option_bind]. rewrite Hset.
    cbn [mbind option_bind]. reflexivity. }
  rewrite finish_currentPlayer, finish_me, finish_opp.
  repeat split; try done.
  intros H1 H2. apply finish_status_active; [done| |]; cbn [lp set_hand set_monsters];
    by destruct (currentPlayer S).
Qed.

(** Amended C8.  A non-meta monster whose effective attack base is 10000
    and that carries no range-restriction stack, in a slot of the opponent
    of the player to move, both players alive: three [range_restrict] cards
    played on it in a row leave it with [atk] 5000, then 2500, then 1250
    (and 1, 2, 3 stacks). *)
Theorem range_restrict_halving S0 h1 h2 h3 ts hand1 hand2 hand3 m m0 :
  status S0 = active → 0 < lp (player1 S0) → 0 < lp (player2 S0) →
  slot_get (monsters (player S0 (other (currentPlayer S0)))) ts = Some (Some m) →
  isMeta m = false →
  refreshMonsterStats m = Some m0 →
  effective_atk_base m = Some 10000 →
  rangeRestrictionStacks m ≤ 0 →
  py_pop (hand (player S0 (currentPlayer S0))) h1
    = Some (SpellCard "range_restrict", hand1) →
  py_pop hand1 h2 = Some (SpellCard "range_restrict", hand2) →
  py_pop hand2 h3 = Some (SpellCard "range_restrict", hand3) →
  ∃ S1 S2 S3 m1 m2 m3,
    next_state S0 (PlaySpell h1 Opp TMonster ts) = Some S1
    ∧ next_state S1 (PlaySpell h2 Opp TMonster ts) = Some S2
    ∧ next_state S2 (PlaySpell h3 Opp TMonster ts) = Some S3
    ∧ slot_get (monsters (player S1 (other (currentPlayer S0)))) ts = Some (Some m1)
    ∧ slot_get (monsters (player S2 (other (currentPlayer S0)))) ts = Some (Some m2)
    ∧ slot_get (monsters (player S3 (other (currentPlayer S0)))) ts = Some (Some m3)
    ∧ atk m1 = 5000 ∧ atk m2 = 2500 ∧ atk m3 = 1250.
Proof.
  intros Hs Hl1 Hl2 Hget Hm Hr He Hst Hp1 Hp2 Hp3. set (pid := currentPlayer S0) in *.
  pose proof (refreshed_atk _ _ _ Hm Hr He) as Hatk.
  replace (Z.to_nat (Z.max 0 (rangeRestrictionStacks m))) with 0%nat in Hatk by lia.
  cbn in Hatk. injection Hatk as Hatk.
  destruct (cast_range_restrict_step m m0 5000 Hm Hr) as (m1 & Hc1 & Ha1 & Hm1 & Hr1).
  { rewrite <- Hatk. vm_compute. reflexivity. }
  { vm_compute. by eexists. }
  destruct (cast_range_restrict_step m1 m1 2500 Hm1 Hr1) as (m2 & Hc2 & Ha2 & Hm2 & Hr2).
  { rewrite Ha1. vm_compute. reflexivity. }
  { vm_compute. by eexists. }
  destruct (cast_range_restrict_step m2 m2 1250 Hm2 Hr2) as (m3 & Hc3 & Ha3 & Hm3 & Hr3).
  { rewrite Ha2. vm_compute. reflexivity. }
  { vm_compute. by eexists. }
  destruct (play_range_restrict S0 h1 ts hand1 m m1 Hs Hp1 Hget Hc1)
    as (S1 & Hn1 & Hc & Hh & Hg & Hlp & Hlp' & Hact).
  assert (0 < lp (player1 S1) ∧ 0 < lp (player2 S1)) as [Hl1' Hl2'].
  { fold pid in Hlp, Hlp'. destruct pid; cbn in Hlp, Hlp'; lia. }
  destruct (play_range_restrict S1 h2 ts hand2 m1 m2) as
    (S2 & Hn2 & Hcb & Hhb & Hgb & Hlpb & Hlpb' & Hactb); try rewrite Hc; auto.
  { by rewrite Hh. }
  assert (0 < lp (player1 S2) ∧ 0 < lp (player2 S2)) as [Hl1'' Hl2''].
  { rewrite Hc in Hlpb, Hlpb'. fold pid in Hlpb, Hlpb'. destruct pid; cbn in Hlpb, Hlpb'; lia. }
  destruct (play_range_restrict S2 h3 ts hand3 m2 m3) as
    (S3 & Hn3 & Hcc & Hhc & Hgc & _); try rewrite Hcb, Hc; auto.
  { rewrite Hc in Hhb. by rewrite Hhb. }
  { by rewrite Hc in Hgb. }
  exists S1, S2, S3, m1, m2, m3.
  rewrite Hcb, Hc in Hgc. rewrite Hc in Hgb. by repeat split.
Qed.

Lemma range_restrict_halving_witness :
  ∃ S1 S2 S3 m1 m2 m3,
    let rr := SpellCard "range_restrict" in
    let S0 := duel_fixture [rr; rr; rr] (full_monster 0) in
    next_state S0 (PlaySpell 0 Opp TMonster 0) = Some S1
    ∧ next_state S1 (PlaySpell 0 Opp TMonster 0) = Some S2
    ∧ next_state S2 (PlaySpell 0 Opp TMonster 0) = Some S3
    ∧ slot_get (monsters (player S1 (other (currentPlayer S0)))) 0 = Some (Some m1)
    ∧ slot_get (monsters (player S2 (other (currentPlayer S0)))) 0 = Some (Some m2)
    ∧ slot_get (monsters (player S3 (other (currentPlayer S0)))) 0 = Some (Some m3)
    ∧ atk m1 = 5000 ∧ atk m2 = 2500 ∧ atk m3 = 1250.
Proof.
  pose (rr := SpellCard "range_restrict").
  eapply (range_restrict_halving (duel_fixture [rr; rr; rr] (full_monster 0))
            0 0 0 0 [rr; rr] [rr] [] (full_monster 0)).
  - reflexivity.
  - reflexivity.
  - reflexivity.
  - reflexivity.
  - reflexivity.
  - vm_compute. reflexivity.
  - vm_compute. reflexivity.
  - cbn. lia.
  - reflexivity.
  - reflexivity.
  - reflexivity.
Defined.

(** The claim C8 as it is stated fails for a monster that already carries
    a stack: its effective attack base is 10000, yet the first cast leaves
    [atk] at 2500. *)
Lemma range_restrict_counterexample :
  let m := full_monster 1 in
  let S0 := duel_fixture [SpellCard "range_restrict"] m in
  isMeta m = false
  ∧ effective_atk_base m = Some 10000
  ∧ (∃ m0, refreshMonsterStats m = Some m0)
  ∧ ∃ S1 m1,
      next_state S0 (PlaySpell 0 Opp TMonster 0) = Some S1
      ∧ slot_get (monsters (player2 S1)) 0 = Some (Some m1)
      ∧ atk m1 = 2500 ∧ atk m1 ≠ 5000.
Proof.
  cbv zeta. split; [reflexivity|]. split; [vm_compute; reflexivity|].
  split; [eexists; vm_compute; reflexivity|].
  eexists _, _. split; [vm_compute; reflexivity|].
  split; [vm_compute; reflexivity|]. split; [reflexivity|]. cbn. lia.
Qed.

(** ** Terminal states *)

(** C7. In a terminal state [next_state] returns the state it was given,
    whatever the action. *)
Theorem terminal_finality (S : GameState) (A : Action) :
  is_terminal S = true → next_state S A = Some S.
Proof.
  unfold is_terminal, next_state. by destruct (status S).
Qed.

Lemma terminal_finality_witness :
  is_terminal finished_fixture = true
  ∧ next_state finished_fixture (Attack 0 TLp None) = Some finished_fixture.
Proof.
  split; [reflexivity|]. apply (terminal_finality finished_fixture). reflexivity.
Defined.

(** ** Drawing *)

(** With overflow allowed, [drawCards] moves the last [k] cards of the deck
    (all of it when it is shorter) to the end of the hand, the tail first,
    and touches nothing else. *)
Lemma drawCards_overflow k p :
  drawCards k true p =
    set_hand (hand p ++ rev (skipn (length (deck p) - k) (deck p)))
      (set_deck (firstn (length (deck p) - k) (deck p)) p).
Proof.
  revert p. induction k as [|k IH]; intros p.
  - cbn [drawCards]. rewrite Nat.sub_0_r, skipn_all, firstn_all, app_nil_r.
    by destruct p.
  - cbn [drawCards negb andb]. destruct (last (deck p)) as [c|] eqn:Hl.
    + apply last_Some in Hl as [d Hd]. rewrite IH.
      cbn [drawn hand deck set_hand set_deck]. rewrite Hd, removelast_last.
      rewrite length_app. cbn [length].
      replace (length d + 1 - S k)%nat with (length d - k)%nat by lia.
      rewrite (skipn_app _ d [c]), (firstn_app _ d [c]).
      replace (length d - k - length d)%nat with 0%nat by lia.
      cbn [skipn firstn]. rewrite rev_app_distr, app_nil_r. cbn [rev app].
      rewrite <- app_assoc. cbn [app]. by destruct p.
    + rewrite IH. apply last_None in Hl. rewrite Hl. by destruct k.
Qed.

Lemma drawCards_overflow_sizes k p :
  length (hand (drawCards k true p)) = (length (hand p) + Nat.min k (length (deck p)))%nat
  ∧ length (deck (drawCards k true p)) = (length (deck p) - k)%nat
  ∧ experienceTokens (drawCards k true p) = experienceTokens p
  ∧ lp (drawCards k true p) = lp p.
Proof.
  rewrite drawCards_overflow. cbn [hand deck set_hand set_deck experienceTokens lp].
  rewrite length_app, length_rev, length_skipn, length_firstn. lia.
Qed.

(** ** The shape of legal actions *)

Lemma in_enumerate {A} (l : list A) i x :
  In (i, x) (enumerate l) ↔ 0 ≤ i ∧ l !! Z.to_nat i = Some x.
Proof.
  unfold enumerate. rewrite <- list_elem_of_In, elem_of_lookup_imap. split.
  - intros (k & y & [= -> ->] & Hk). split; [lia|]. by rewrite Nat2Z.id.
  - intros [Hi Hl]. exists (Z.to_nat i), x. split; [|done]. f_equal. lia.
Qed.

Lemma in_occupied {A} (arr : Slots A) i :
  In i (occupied arr) → 0 ≤ i < 3 ∧ ∃ x, slot_get arr i = Some (Some x).
Proof.
  destruct arr as [a b c].
  unfold occupied. intros ([j [x|]] & Hin & Hi)%in_flat_map; [|done].
  destruct Hi as [<-|[]]. cbn in Hin.
  destruct Hin as [[= <- Hx]|[[= <- Hx]|[[= <- Hx]|[]]]];
    (split; [lia|]); exists x; cbv; congruence.
Qed.

(** Taking apart a hypothesis [In a l] for a list built by comprehension. *)
Ltac in_inv :=
  repeat match goal with
    | H : In _ (_ ++ _) |- _ => apply in_app_iff in H as [H|H]
    | H : In _ (flat_map _ _) |- _ =>
        let x := fresh "x" in let Hx := fresh "Hx" in
        apply in_flat_map in H as (x & Hx & H)
    | H : In _ (map _ _) |- _ =>
        let x := fresh "x" in let Hx := fresh "Hx" in
        apply in_map_iff in H as (x & Hx & H)
    | H : In _ (let '(_, _) := ?p in _) |- _ => destruct p
    | H : In _ (if ?b then _ else _) |- _ => destruct b eqn:?
    | H : In _ (match ?c with ItemCard _ _ _ => _ | SpellCard _ => _ end) |- _ =>
        destruct c
    | H : In _ [] |- _ => destruct H
    | H : In _ (_ :: _) |- _ => destruct H as [H|H]
    end.

Lemma in_range3 i : In i range3 → 0 ≤ i < 3.
Proof. unfold range3. intros [<-|[<-|[<-|[]]]]; lia. Qed.

Lemma in_enumerate_slots {A} (arr : Slots A) i x :
  In (i, x) (enumerate (slots_list arr)) → 0 ≤ i < 3 ∧ slot_get arr i = Some x.
Proof.
  destruct arr as [a b c]. cbn.
  intros [[= <- <-]|[[= <- <-]|[[= <- <-]|[]]]]; (split; [lia|reflexivity]).
Qed.

Lemma in_enumerate_lt {A} (l : list A) i x :
  In (i, x) (enumerate l) → 0 ≤ i < Z.of_nat (length l) ∧ l !! Z.to_nat i = Some x.
Proof.
  intros [? Hl]%in_enumerate. pose proof (lookup_lt_Some _ _ _ Hl). split; [lia|done].
Qed.

(** Turning the membership hypotheses left by [in_inv] into bounds. *)
Ltac shape_facts :=
  repeat match goal with
    | H : In (_, _) (enumerate (slots_list _)) |- _ =>
        apply in_enumerate_slots in H as [? ?]
    | H : In (_, _) (enumerate _) |- _ => apply in_enumerate_lt in H as [? ?]
    | H : In _ (occupied _) |- _ => apply in_occupied in H as [? [? ?]]
    | H : In _ range3 |- _ => apply in_range3 in H
    end.

Lemma legal_actions_shape S a : In a (legal_actions S) → legal_shape S a.
Proof.
  unfold legal_actions, legal_shape. destruct (status S) eqn:Hs; [|intros []].
  set (p := player S (currentPlayer S)). set (opp := player S (other (currentPlayer S))).
  destruct (Z.ltb_spec 0 (pendingDiscard p)) as [Hpd|Hpd]; intros H; (split; [done|]).
  - apply in_map_iff in H as (k & <- & [_ Hk]%in_seq). lia.
  - unfold card_moves, summon_moves, attack_moves in H.
    in_inv; subst; shape_facts; try done;
      try (repeat split; eauto; lia).
    + (* place_card *)
      repeat split; try lia. eexists _, _, _, _. repeat split; eauto; lia.
    + (* experience_draw *)
      match goal with
      | Hb : _ && _ = true |- _ => apply andb_prop in Hb as [?%Z.leb_le Hd%Nat.ltb_lt]
      end.
      repeat split; try done. intros E. rewrite E in Hd. cbn in Hd. lia.
Qed.

(** ** Experience draw *)

(** C10. [next_state] applies [experience_draw] in every active state: it
    subtracts [EXPERIENCE_MISS_THRESHOLD] from the tokens of the player to
    move and moves up to three cards from the tail of the deck to the hand,
    whatever the token count, the deck size or the hand size; from the
    initial state (no tokens) the tokens become negative.  The guard, four
    tokens and a non-empty deck, is in [legal_actions] only. *)
Theorem experience_draw_unguarded :
  (∀ S, status S = active →
     ∃ S', next_state S ExperienceDraw = Some S'
       ∧ experienceTokens (player S' (currentPlayer S))
         = experienceTokens (player S (currentPlayer S)) - 4
       ∧ hand (player S' (currentPlayer S))
         = hand (player S (currentPlayer S))
           ++ rev (skipn (length (deck (player S (currentPlayer S))) - 3)
                     (deck (player S (currentPlayer S))))
       ∧ deck (player S' (currentPlayer S))
         = firstn (length (deck (player S (currentPlayer S))) - 3)
             (deck (player S (currentPlayer S))))
  ∧ (∃ S S', status S = active
       ∧ experienceTokens (player S (currentPlayer S)) < 4
       ∧ ¬ In ExperienceDraw (legal_actions S)
       ∧ next_state S ExperienceDraw = Some S'
       ∧ experienceTokens (player S' (currentPlayer S)) < 0)
  ∧ (∀ S, In ExperienceDraw (legal_actions S) →
       4 ≤ experienceTokens (player S (currentPlayer S))
       ∧ deck (player S (currentPlayer S)) ≠ []).
Proof.
  split; [|split].
  - intros S Hs. eexists. split.
    { unfold next_state. rewrite Hs. reflexivity. }
    rewrite finish_me. unfold enforceHandLimit. rewrite drawCards_overflow. by cbn.
  - exists initial_state. eexists. split; [reflexivity|]. split; [by cbn|].
    split; [|split; [vm_compute; reflexivity|by cbn]].
    intros H%legal_actions_shape. destruct H as (_ & _ & H & _). by cbn in H.
  - intros S (_ & _ & H & Hd)%legal_actions_shape. done.
Qed.

Lemma experience_draw_unguarded_witness :
  ∃ S', next_state initial_state ExperienceDraw = Some S'
    ∧ experienceTokens (player S' (currentPlayer initial_state))
      = experienceTokens (player initial_state (currentPlayer initial_state)) - 4
    ∧ hand (player S' (currentPlayer initial_state))
      = hand (player initial_state (currentPlayer initial_state))
        ++ rev (skipn (length (deck (player initial_state (currentPlayer initial_state))) - 3)
                  (deck (player initial_state (currentPlayer initial_state))))
    ∧ deck (player S' (currentPlayer initial_state))
      = firstn (length (deck (player initial_state (currentPlayer initial_state))) - 3)
          (deck (player initial_state (currentPlayer initial_state))).
Proof.
  exact (proj1 experience_draw_unguarded initial_state eq_refl).
Defined.

(** ** End of turn *)

(** Amended C3.  In an active state [end_turn] is legal as soon as the
    player to move has no pending discard, and applying it hands the move
    to the other player (1 becomes 2 and 2 becomes 1); it returns exactly
    when the refresh of every monster on the board returns. *)
Theorem end_turn_legal_and_toggles (S : GameState) :
  status S = active →
  (pendingDiscard (player S (currentPlayer S)) ≤ 0 → In EndTurn (legal_actions S))
  ∧ (∀ S', next_state S EndTurn = Some S' →
       currentPlayer S' = other (currentPlayer S)
       ∧ player_number (currentPlayer S') = 3 - player_number (currentPlayer S))
  ∧ (is_Some (next_state S EndTurn) ↔
       is_Some (for_monsters end_of_turn_refresh (monsters (player S (currentPlayer S))))
       ∧ is_Some (for_monsters start_of_turn_refresh
                    (monsters (player S (other (currentPlayer S)))))).
Proof.
  intros Hs.
  assert (∀ k p, monsters (enforceHandLimit (drawCards k true (set_summoned false p)))
                 = monsters p) as Hm.
  { intros k p. unfold enforceHandLimit. rewrite drawCards_overflow. reflexivity. }
  split; [|split].
  - intros Hpd. unfold legal_actions. rewrite Hs.
    destruct (Z.ltb_spec 0 (pendingDiscard (player S (currentPlayer S)))); [lia|].
    rewrite !in_app_iff. do 5 right. by left.
  - intros S' H. unfold next_state in H. rewrite Hs in H. cbv zeta in H.
    rewrite Hm in H.
    destruct (for_monsters end_of_turn_refresh _) as [a|];
      cbn [mbind option_bind] in H; [|done].
    destruct (for_monsters start_of_turn_refresh _) as [b|];
      cbn [mbind option_bind] in H; [|done].
    injection H as <-. rewrite finish_currentPlayer.
    cbn [currentPlayer set_currentPlayer].
    split; [done|]. by destruct (currentPlayer S).
  - unfold next_state. rewrite Hs. cbv zeta. rewrite Hm.
    destruct (for_monsters end_of_turn_refresh _) as [a|]; cbn [mbind option_bind].
    + destruct (for_monsters start_of_turn_refresh _) as [b|]; cbn [mbind option_bind].
      * split; [intros _; split; by eexists|intros _; by eexists].
      * split; [by intros [? ?]|by intros [_ [? ?]] ].
    + split; [by intros [? ?]|by intros [[? ?] _] ].
Qed.

Lemma end_turn_legal_and_toggles_witness :
  status initial_state = active
  ∧ (pendingDiscard (player initial_state (currentPlayer initial_state)) ≤ 0 →
     In EndTurn (legal_actions initial_state))
  ∧ (∀ S', next_state initial_state EndTurn = Some S' →
       currentPlayer S' = other (currentPlayer initial_state)
       ∧ player_number (currentPlayer S')
         = 3 - player_number (currentPlayer initial_state))
  ∧ (is_Some (next_state initial_state EndTurn) ↔
       is_Some (for_monsters end_of_turn_refresh
                  (monsters (player initial_state (currentPlayer initial_state))))
       ∧ is_Some (for_monsters start_of_turn_refresh
                    (monsters (player initial_state (other (currentPlayer initial_state)))))).
Proof.
  split; [reflexivity|]. exact (end_turn_legal_and_toggles initial_state eq_refl).
Defined.

(** The claim C3 as it is stated fails in the state that follows the first
    [end_turn] of a game: player 2 has drawn a thirteenth card, a discard
    is pending and [legal_actions] lists the thirteen discards only. *)
Lemma end_turn_counterexample :
  ∃ S1, next_state initial_state EndTurn = Some S1
    ∧ status S1 = active
    ∧ pendingDiscard (player S1 (currentPlayer S1)) = 1
    ∧ legal_actions S1 = map Discard [0; 1; 2; 3; 4; 5; 6; 7; 8; 9; 10; 11; 12]
    ∧ ¬ In EndTurn (legal_actions S1).
Proof.
  eexists. split; [vm_compute; reflexivity|]. split; [reflexivity|].
  split; [reflexivity|]. split; [vm_compute; reflexivity|].
  intros (_ & H)%legal_actions_shape. cbn in H. lia.
Qed.

(** ** Missing data on a construct stack *)

(** Amended C4.  Playing [missing_data] at a non-empty construct stack, of
    either owner, empties the slot: the whole stack is destroyed, however
    many cards it holds. *)
Theorem missing_data_destroys_stack S h o ts hand' st :
  status S = active →
  py_pop (hand (player S (currentPlayer S))) h = Some (SpellCard "missing_data", hand') →
  slot_get (constructs (owner_zone (player S (currentPlayer S))
                          (player S (other (currentPlayer S))) o)) ts = Some (Some st) →
  ∃ S', next_state S (PlaySpell h o TConstruct ts) = Some S'
    ∧ slot_get (constructs (owner_zone (player S' (currentPlayer S))
                              (player S' (other (currentPlayer S))) o)) ts = Some None
    ∧ hand (player S' (currentPlayer S)) = hand'.
Proof.
  intros Hs Hpop Hget.
  destruct (slot_get_set _ ts _ None Hget) as (arr & Hset & Hget').
  destruct o; cbn [owner_zone] in *.
  - eexists. split.
    { unfold next_state. rewrite Hs, Hpop. cbn [mbind option_bind].
      unfold resolve_spell. cbn [constructs set_hand]. rewrite Hget.
      cbn -[slot_set]. rewrite Hset. reflexivity. }
    by rewrite finish_me.
  - eexists. split.
    { unfold next_state. rewrite Hs, Hpop. cbn [mbind option_bind].
      unfold resolve_spell. rewrite Hget. cbn -[slot_set]. rewrite Hset. reflexivity. }
    by rewrite finish_me, finish_opp.
Qed.

Lemma missing_data_destroys_stack_witness :
  ∃ S', next_state missing_data_fixture (PlaySpell 0 Opp TConstruct 0) = Some S'
    ∧ slot_get (constructs (player2 S')) 0 = Some None
    ∧ hand (player1 S') = [].
Proof.
  apply (missing_data_destroys_stack missing_data_fixture 0 Opp 0 [] two_card_stack);
    reflexivity.
Defined.

(** The claim C4 as it is stated fails on a stack of two cards: the spell
    is legal there, and it leaves no stack of one card but an empty slot. *)
Lemma missing_data_counterexample :
  slot_get (constructs (player2 missing_data_fixture)) 0 = Some (Some two_card_stack)
  ∧ length (cards two_card_stack) = 2%nat
  ∧ In (PlaySpell 0 Opp TConstruct 0) (legal_actions missing_data_fixture)
  ∧ ∃ S', next_state missing_data_fixture (PlaySpell 0 Opp TConstruct 0) = Some S'
      ∧ slot_get (constructs (player2 S')) 0 = Some None.
Proof.
  split; [reflexivity|]. split; [reflexivity|]. split.
  - vm_compute. tauto.
  - eexists. split; [vm_compute; reflexivity|reflexivity].
Qed.

(** ** The game loops *)





(** ** Hand sizes *)

(** Peeling one [≫=] off a hypothesis [m ≫= f = Some y]. *)
Ltac inv_bind H :=
  match type of H with
  | (?m ≫= _) = Some _ =>
      let E := fresh "E" in
      destruct m eqn:E; cbn [mbind option_bind] in H; [|discriminate H]
  end.

Lemma resolve_spell_hand cid o t ts zone zone' :
  resolve_spell cid o t ts zone = Some zone' → hand zone' = hand zone.
Proof.
  unfold resolve_spell. intros H.
  destruct t; inv_bind H;
    match goal with
    | x : option Stack |- _ => destruct x
    | x : option Monster |- _ => destruct x
    end;
    try (injection H as <-; reflexivity);
    inv_bind H; inv_bind H; by injection H as <-.
Qed.

Lemma resolve_attack_hand i t ts a me opp me' opp' :
  resolve_attack i t ts a me opp = Some (me', opp') →
  hand me' = hand me ∧ hand opp' = hand opp.
Proof.
  unfold resolve_attack. intros H. inv_bind H.
  match type of H with
  | (?m ≫= _) = Some _ => destruct m as [[me1 opp1]|] eqn:E1;
                            cbn [mbind option_bind] in H; [|discriminate H]
  end.
  assert (hand me1 = hand me ∧ hand opp1 = hand opp) as [Hm Ho].
  { destruct t.
    - inv_bind E1. inv_bind E1. destruct o as [d|]; [|by injection E1 as <- <-].
      destruct (atk d <? _); [inv_bind E1; by injection E1 as <- <-|].
      destruct (_ <? atk d); [inv_bind E1; by injection E1 as <- <-|].
      inv_bind E1. inv_bind E1. by injection E1 as <- <-.
    - inv_bind E1. inv_bind E1. destruct o as [d|]; [|by injection E1 as <- <-].
      destruct (atk d <? _); [inv_bind E1; by injection E1 as <- <-|].
      destruct (_ <? atk d); [inv_bind E1; by injection E1 as <- <-|].
      inv_bind E1. inv_bind E1. by injection E1 as <- <-.
    - by injection E1 as <- <-. }
  inv_bind H. destruct o as [m|]; [|by injection H as <- <-].
  destruct (hasPHacking m); [inv_bind H|]; by injection H as <- <-.
Qed.

(** No action but [experience_draw] adds a card to the hand of the player
    who makes it. *)
Lemma next_state_hand_le S a S' :
  next_state S a = Some S' → a ≠ ExperienceDraw →
  (length (hand (player S' (currentPlayer S))) ≤ length (hand (player S (currentPlayer S))))%nat.
Proof.
  unfold next_state. destruct (status S); [|by intros [= <-] ].
  intros H Ha. destruct a; try done.
  - (* end_turn *)
    inv_bind H. inv_bind H. injection H as <-. by rewrite finish_me.
  - (* meta *)
    destruct (localCanMeta _); [inv_bind H|]; injection H as <-; by rewrite finish_me.
  - (* discard_card *)
    destruct (_ && _).
    + destruct (py_pop _ _) as [[c hand']|] eqn:E; cbn [mbind option_bind] in H; [|done].
      injection H as <-. rewrite finish_me. apply py_pop_length in E. cbn. lia.
    + injection H as <-. by rewrite finish_me.
  - (* place_card *)
    inv_bind H. destruct (negb (isItem c)); [by injection H as <-|].
    destruct (py_pop _ _) as [[c' hand']|] eqn:E'; cbn [mbind option_bind] in H; [|done].
    do 3 inv_bind H. injection H as <-. rewrite finish_me.
    apply py_pop_length in E'. cbn. lia.
  - (* play_spell *)
    destruct (py_pop _ _) as [[c hand']|] eqn:E; cbn [mbind option_bind] in H; [|done].
    apply py_pop_length in E. destruct c; [done|].
    destruct target_owner; inv_bind H; injection H as <-; rewrite finish_me.
    + match goal with E : resolve_spell _ _ _ _ _ = _ |- _ =>
        apply resolve_spell_hand in E as -> end. cbn. lia.
    + cbn. lia.
  - (* summon *)
    do 2 inv_bind H. destruct o as [ps|], o0 as [os|];
      try (injection H as <-; by rewrite finish_me).
    destruct (_ && _); [|injection H as <-; by rewrite finish_me].
    do 4 inv_bind H. injection H as <-. by rewrite finish_me.
  - (* attack *)
    inv_bind H. destruct o as [m|]; [|injection H as <-; by rewrite finish_me].
    destruct (resolve_attack _ _ _ _ _ _) as [[me' opp']|] eqn:E';
      cbn [mbind option_bind] in H; [|done].
    injection H as <-. rewrite finish_me. by apply resolve_attack_hand in E' as [-> _].
Qed.

(** Amended C2.  An action of [legal_actions] other than [experience_draw]
    never adds a card to the hand of the player who makes it, so that hand
    has at most 12 cards afterwards whenever it had at most 12 before, or
    at most 13 with a discard pending; and after a legal [experience_draw]
    [pendingDiscard] is the number of cards above 12, or 0. *)
Theorem hand_cap S a S' :
  In a (legal_actions S) → next_state S a = Some S' →
  (a ≠ ExperienceDraw →
     (length (hand (player S' (currentPlayer S)))
        ≤ length (hand (player S (currentPlayer S))))%nat
     ∧ ((length (hand (player S (currentPlayer S))) ≤ 12)%nat
        ∨ ((length (hand (player S (currentPlayer S))) ≤ 13)%nat
           ∧ 0 < pendingDiscard (player S (currentPlayer S))) →
        (length (hand (player S' (currentPlayer S))) ≤ 12)%nat))
  ∧ (a = ExperienceDraw →
       pendingDiscard (player S' (currentPlayer S))
       = Z.max 0 (Z.of_nat (length (hand (player S' (currentPlayer S)))) - 12)).
Proof.
  intros Hl H. split.
  - intros Ha. pose proof (next_state_hand_le _ _ _ H Ha) as Hle. split; [done|].
    intros [H12|[H13 Hpd]]; [lia|].
    apply legal_actions_shape in Hl as [Hs Hsh].
    destruct a; cbn in Hsh; try lia.
    unfold next_state in H. rewrite Hs in H. destruct Hsh as [_ [Hh0 Hh1]].
    destruct (Z.leb_spec 0 hand_index); [|lia].
    destruct (Z.ltb_spec hand_index
                (Z.of_nat (length (hand (player S (currentPlayer S)))))); [|lia].
    cbn [andb] in H.
    destruct (py_pop _ _) as [[c hand']|] eqn:E; cbn [mbind option_bind] in H; [|done].
    injection H as <-. rewrite finish_me. apply py_pop_length in E. cbn. lia.
  - intros ->. apply legal_actions_shape in Hl as [Hs _].
    unfold next_state in H. rewrite Hs in H. injection H as <-.
    rewrite finish_me. reflexivity.
Qed.

Lemma hand_cap_witness :
  (Discard 0 ≠ ExperienceDraw →
     (length (hand (player after_discard_state (currentPlayer second_turn_state)))
        ≤ length (hand (player second_turn_state (currentPlayer second_turn_state))))%nat
     ∧ ((length (hand (player second_turn_state (currentPlayer second_turn_state))) ≤ 12)%nat
        ∨ ((length (hand (player second_turn_state (currentPlayer second_turn_state)))
              ≤ 13)%nat
           ∧ 0 < pendingDiscard (player second_turn_state (currentPlayer second_turn_state))) →
        (length (hand (player after_discard_state (currentPlayer second_turn_state)))
           ≤ 12)%nat))
  ∧ (Discard 0 = ExperienceDraw →
       pendingDiscard (player after_discard_state (currentPlayer second_turn_state))
       = Z.max 0 (Z.of_nat (length (hand (player after_discard_state
                                            (currentPlayer second_turn_state)))) - 12)).
Proof.
  apply (hand_cap second_turn_state (Discard 0) after_discard_state).
  - vm_compute. tauto.
  - vm_compute. reflexivity.
Defined.

(** The claim C2 as it is stated fails after an [experience_draw] from a
    full hand: three discards are pending, [discard_card] is legal and
    leaves a hand of fourteen cards. *)
Lemma hand_cap_counterexample :
  ∃ S S',
    In ExperienceDraw (legal_actions tokens_fixture)
    ∧ next_state tokens_fixture ExperienceDraw = Some S
    ∧ pendingDiscard (player S (currentPlayer S)) = 3
    ∧ In (Discard 0) (legal_actions S)
    ∧ Discard 0 ≠ ExperienceDraw
    ∧ next_state S (Discard 0) = Some S'
    ∧ length (hand (player S' (currentPlayer S))) = 14%nat.
Proof.
  eexists _, _.
  split; [vm_compute; tauto|]. split; [vm_compute; reflexivity|].
  split; [reflexivity|]. split; [vm_compute; tauto|]. split; [done|].
  split; [vm_compute; reflexivity|]. reflexivity.
Qed.

(** ** The action space *)

Lemma register_keeps a sp k :
  is_Some (action_to_id sp !! k) → is_Some (action_to_id (_register a sp) !! k).
Proof.
  intros Hk. unfold _register. destruct (action_to_id sp !! _action_key a); [done|].
  cbn. destruct (decide (_action_key a = k)) as [->|Hne].
  - rewrite lookup_insert_eq. by eexists.
  - by rewrite lookup_insert_ne.
Qed.

Lemma register_adds a sp : is_Some (action_to_id (_register a sp) !! _action_key a).
Proof.
  unfold _register. destruct (action_to_id sp !! _action_key a) eqn:E.
  - rewrite E. by eexists.
  - cbn. rewrite lookup_insert_eq. by eexists.
Qed.

Lemma registered_fold l sp k :
  is_Some (action_to_id sp !! k) →
  is_Some (action_to_id (foldl (λ sp a, _register a sp) sp l) !! k).
Proof.
  revert sp. induction l as [|a l IH]; intros sp H; [done|].
  cbn. apply IH. by apply register_keeps.
Qed.

(** Every action that [_build] goes through has an id afterwards. *)
Lemma build_registers a sp :
  In a registration_order → is_Some (to_id (_build sp) a).
Proof.
  unfold to_id, _build. generalize registration_order. intros l. revert sp.
  induction l as [|b l IH]; intros sp; [intros []|].
  intros [->|H]; cbn.
  - apply registered_fold, register_adds.
  - by apply IH.
Qed.

Lemma in_range k h : 0 ≤ h < Z.of_nat k → In h (range k).
Proof.
  intros H. unfold range. apply in_map_iff. exists (Z.to_nat h).
  split; [lia|]. apply in_seq. lia.
Qed.

Ltac pick3 i :=
  let H := fresh in
  assert (i = 0 ∨ i = 1 ∨ i = 2) as H by lia;
  destruct H as [->|[->| ->]].

Lemma schema_registered a : in_schema a → In a registration_order.
Proof.
  unfold registration_order. destruct a; cbn [in_schema]; unfold MAX_HAND_SIZE.
  - intros _. cbn. tauto.
  - intros _. cbn. tauto.
  - intros _. cbn. tauto.
  - intros H. apply in_app_iff. right. apply in_app_iff. left.
    apply in_flat_map. exists hand_index. split; [apply in_range; lia|]. by left.
  - intros [H H3]. apply in_app_iff. right. apply in_app_iff. left.
    apply in_flat_map. exists hand_index. split; [apply in_range; lia|].
    pick3 slot; cbn; tauto.
  - intros (H & Ht & H3). apply in_app_iff. right. apply in_app_iff. left.
    apply in_flat_map. exists hand_index. split; [apply in_range; lia|].
    destruct target_owner, Ht as [-> | ->]; pick3 target_slot; cbn; tauto.
  - intros (Hp & Ho & Hr). do 2 (apply in_app_iff; right). apply in_app_iff. left.
    apply in_flat_map. exists pred_slot. split; [apply in_range; lia|].
    apply in_flat_map. exists out_slot. split; [apply in_range; lia|].
    destruct replace as [r|]; [|by left]. pick3 r; cbn; tauto.
  - intros (Hi & Ht). do 3 (apply in_app_iff; right).
    apply in_flat_map. exists attacker_slot. split; [apply in_range; lia|].
    destruct Ht as [[-> ->]|(-> & j & -> & Hj)]; [by left|].
    pick3 j; cbn; tauto.
Qed.

(** ** Construct stacks in reachable states *)

Lemma zone_ok_same p p' :
  hand p' = hand p → deck p' = deck p → constructs p' = constructs p →
  zone_ok p → zone_ok p'.
Proof. unfold zone_ok. by intros -> -> ->. Qed.

Lemma drawCards_ok k b p : zone_ok p → zone_ok (drawCards k b p).
Proof.
  revert p. induction k as [|k IH]; intros p Hp; [done|].
  cbn [drawCards]. destruct (_ && _); [done|].
  destruct (last (deck p)) as [c|] eqn:Hl; [|by apply IH].
  apply IH. apply last_Some in Hl as [d Hd]. destruct Hp as (Hh & Hd' & Hc).
  rewrite Hd in Hd'. apply Forall_app in Hd' as [Hd1 Hd2].
  unfold zone_ok, drawn. cbn. rewrite Hd, removelast_last.
  split; [|split]; [|done|done]. apply Forall_app. split; [done|done].
Qed.

Lemma py_pop_Forall {A} (P : A → Prop) (l l' : list A) i x :
  py_pop l i = Some (x, l') → Forall P l → P x ∧ Forall P l'.
Proof.
  unfold py_pop. intros H Hl.
  destruct (py_index (length l) i) as [k|]; cbn in H; [|done].
  destruct (l !! k) as [y|] eqn:Hy; cbn in H; [|done]. injection H as <- <-.
  split.
  - by eapply Forall_lookup_1.
  - by apply Forall_delete.
Qed.

Lemma slot_set_ok arr i v arr' :
  slot_set arr i v = Some arr' → slots_ok arr →
  match v with Some st => stack_ok st | None => True end → slots_ok arr'.
Proof.
  unfold slot_set, slots_ok. intros H Harr Hv st.
  destruct (py_index 3 i) as [[|[|[|k]]]|]; cbn in H; try done;
    injection H as <-; cbn; intros [E|[E|[E|[]]]];
    try (apply Harr; cbn; tauto); subst v; exact Hv.
Qed.

Lemma slot_get_ok arr i st :
  slot_get arr i = Some (Some st) → slots_ok arr → stack_ok st.
Proof.
  unfold slot_get, py_get. intros H Harr. apply Harr.
  destruct (py_index _ i) as [k|]; cbn in H; [|done].
  apply list_elem_of_In. by eapply list_elem_of_lookup_2.
Qed.

Lemma spell_on_construct_ok cid o st r :
  spell_on_construct cid o st = Some r → stack_ok st →
  match r with Some st' => stack_ok st' | None => True end.
Proof.
  unfold spell_on_construct. cbv zeta. intros H (Hlen & Hcid & Hty).
  destruct (String.eqb cid "missing_data"); [by injection H as <-|].
  destruct (String.eqb cid "item_analysis" && _ && (length (cards st) <? 3)%nat) eqn:Hia.
  - apply andb_prop in Hia as [_ Hlt%Nat.ltb_lt].
    destruct (last (cards st)) as [c|] eqn:Hl; cbn in H; [|done]. injection H as <-.
    apply last_Some in Hl as [d Hd]. unfold stack_ok. cbn.
    rewrite length_app. cbn. repeat split; try lia; [|done].
    intros c' [Hc|[<-|[]]]%in_app_iff; [by apply Hcid|].
    apply Hcid. rewrite Hd. apply in_app_iff. right. by left.
  - destruct (String.eqb cid "construct_drift" && _); [|by injection H as <-].
    destruct (1 <? length (cards st))%nat eqn:Hgt; injection H as <-; [|done].
    apply Nat.ltb_lt in Hgt. unfold stack_ok. cbn.
    destruct (cards st) as [|x l] using rev_ind; [cbn in Hgt; lia|].
    rewrite removelast_last. rewrite length_app in Hlen, Hgt. cbn in Hlen, Hgt.
    repeat split; try lia; [|done].
    intros c Hc. apply Hcid. apply in_app_iff. by left.
Qed.

Lemma resolve_spell_ok cid o t ts zone zone' :
  resolve_spell cid o t ts zone = Some zone' → zone_ok zone → zone_ok zone'.
Proof.
  unfold resolve_spell. intros H Hz.
  destruct t.
  - inv_bind H. destruct o0 as [m|]; [|by injection H as <-].
    do 2 inv_bind H. injection H as <-. by eapply zone_ok_same.
  - inv_bind H. destruct o0 as [st|]; [|by injection H as <-].
    do 2 inv_bind H. injection H as <-. destruct Hz as (Hh & Hd & Hc).
    split; [|split]; [done|done|]. cbn.
    eapply slot_set_ok; [eassumption|done|].
    eapply spell_on_construct_ok; [eassumption|]. by eapply slot_get_ok.
  - inv_bind H. destruct o0 as [m|]; [|by injection H as <-].
    do 2 inv_bind H. injection H as <-. by eapply zone_ok_same.
Qed.

Lemma resolve_attack_ok i t ts a me opp me' opp' :
  resolve_attack i t ts a me opp = Some (me', opp') →
  zone_ok me → zone_ok opp → zone_ok me' ∧ zone_ok opp'.
Proof.
  unfold resolve_attack. intros H Hme Hopp. inv_bind H.
  match type of H with
  | (?m ≫= _) = Some _ => destruct m as [[me1 opp1]|] eqn:E1;
                            cbn [mbind option_bind] in H; [|discriminate H]
  end.
  assert (zone_ok me1 ∧ zone_ok opp1) as [Hm Ho].
  { destruct t.
    - inv_bind E1. inv_bind E1. destruct o as [d|]; [|by injection E1 as <- <-].
      destruct (atk d <? _); [inv_bind E1; by injection E1 as <- <-|].
      destruct (_ <? atk d); [inv_bind E1; by injection E1 as <- <-|].
      inv_bind E1. inv_bind E1. by injection E1 as <- <-.
    - inv_bind E1. inv_bind E1. destruct o as [d|]; [|by injection E1 as <- <-].
      destruct (atk d <? _); [inv_bind E1; by injection E1 as <- <-|].
      destruct (_ <? atk d); [inv_bind E1; by injection E1 as <- <-|].
      inv_bind E1. inv_bind E1. by injection E1 as <- <-.
    - by injection E1 as <- <-. }
  inv_bind H. destruct o as [m|]; [|by injection H as <- <-].
  destruct (hasPHacking m); [inv_bind H|]; by injection H as <- <-.
Qed.

Lemma state_ok_player S pid : state_ok S → zone_ok (player S pid).
Proof. intros [H1 H2]. by destruct pid. Qed.

Lemma state_ok_finish S pid me opp :
  zone_ok me → zone_ok opp → state_ok (finish S pid me opp).
Proof.
  intros Hme Hopp. unfold state_ok, finish.
  change (player1 ?s) with (player s P1). change (player2 ?s) with (player s P2).
  rewrite !mark_player. by destruct pid.
Qed.

Lemma py_get_nat {A} (l : list A) i x :
  0 ≤ i → l !! Z.to_nat i = Some x → py_get l i = Some x.
Proof.
  intros Hi Hl. unfold py_get.
  assert (Hlt : (Z.to_nat i < length l)%nat) by (by eapply lookup_lt_Some).
  rewrite <- (Z2Nat.id i) at 1 by done. rewrite py_index_of_nat by done. done.
Qed.

Lemma card_ok_stack c st :
  card_ok c → makeConstructStackFromCard c = Some st → stack_ok st.
Proof.
  destruct c as [t cid r|id]; [|done]. cbn. intros Hc [= <-].
  unfold stack_ok. cbn. split; [lia|]. split; [|done].
  by intros c [<-|[]].
Qed.

Lemma stack_ok_push st t cid r :
  stack_ok st → card_ok (ItemCard t cid r) → place_allowed (Some st) cid = true →
  stack_ok (set_cards (cards st ++ [ItemCard t cid r]) st).
Proof.
  intros (Hlen & Hcid & Hty) Hc [Heq%String.eqb_eq Hlt%Nat.ltb_lt]%andb_prop.
  unfold stack_ok. cbn. rewrite length_app. cbn. split; [lia|]. split; [|done].
  intros c [Hin|[<-|[]]]%in_app_iff; [by apply Hcid|]. cbn. by rewrite Heq.
Qed.

Lemma step_ok S a S' :
  state_ok S → In a (legal_actions S) → next_state S a = Some S' → state_ok S'.
Proof.
  intros Hok Hin%legal_actions_shape H. destruct Hin as [Hact Hshape].
  unfold next_state in H. rewrite Hact in H. cbv zeta in H.
  set (pid := currentPlayer S) in *.
  pose proof (state_ok_player S pid Hok) as Hme.
  pose proof (state_ok_player S (other pid) Hok) as Hopp.
  destruct a.
  - (* end_turn *)
    inv_bind H. inv_bind H. injection H as <-.
    apply state_ok_finish.
    + by apply (zone_ok_same (player S pid)).
    + apply (zone_ok_same (drawCards 1 true (set_summoned false (player S (other pid)))));
        [done..|].
      apply drawCards_ok. by apply (zone_ok_same (player S (other pid))).
  - (* meta *)
    destruct (localCanMeta _); [inv_bind H|]; injection H as <-; apply state_ok_finish; done.
  - (* experience_draw *)
    apply (inj Some) in H. subst S'. apply state_ok_finish; [|done].
    match goal with
    | |- zone_ok (enforceHandLimit ?p) => apply (zone_ok_same p); [done..|]
    end.
    apply drawCards_ok. by apply (zone_ok_same (player S pid)).
  - (* discard_card *)
    destruct (_ && _).
    + inv_bind H. destruct p as [c hand']. injection H as <-.
      apply state_ok_finish; [|done]. destruct Hme as (Hh & Hd & Hc).
      eapply py_pop_Forall in E as [_ Hh']; [|exact Hh]. by split.
    + injection H as <-. by apply state_ok_finish.
  - (* place_card *)
    destruct Hshape as (_ & Hh0 & t & cid & r & stack & Hcard & _ & Hstack & Hallowed).
    fold pid in Hcard, Hstack.
    apply py_get_nat in Hcard; [|done]. rewrite Hcard in H. cbn [mbind option_bind isItem negb] in H.
    destruct (py_get_pop _ _ _ Hcard) as [hand' Hpop]. rewrite Hpop, Hstack in H.
    cbn [mbind option_bind] in H.
    destruct Hme as (Hh & Hd & Hc).
    destruct (py_pop_Forall _ _ _ _ _ Hpop Hh) as [Hplaced Hh'].
    inv_bind H. inv_bind H. injection H as <-.
    apply state_ok_finish; [|done]. split; [done|]. split; [done|]. cbn.
    eapply slot_set_ok; [eassumption|done|].
    destruct stack as [st|].
    + injection E as <-. apply stack_ok_push; [|done..]. by eapply slot_get_ok.
    + by eapply card_ok_stack.
  - (* play_spell *)
    inv_bind H. destruct p as [card hand']. destruct card as [|cid]; [done|].
    destruct Hme as (Hh & Hd & Hc).
    destruct (py_pop_Forall _ _ _ _ _ E Hh) as [_ Hh'].
    assert (zone_ok (set_hand hand' (player S pid))) as Hme' by (by split).
    destruct target_owner; inv_bind H; injection H as <-; apply state_ok_finish;
      try done; by eapply resolve_spell_ok.
  - (* summon *)
    do 2 inv_bind H. destruct Hme as (Hh & Hd & Hc).
    destruct o as [ps|], o0 as [os|];
      try (injection H as <-; by apply state_ok_finish).
    destruct (_ && _ && _); [|injection H as <-; by apply state_ok_finish].
    do 4 inv_bind H. injection H as <-. apply state_ok_finish; [|done].
    split; [done|]. split; [done|]. cbn.
    eapply slot_set_ok; [eassumption| |done]. by eapply slot_set_ok.
  - (* attack *)
    inv_bind H. destruct o as [att|]; [|injection H as <-; by apply state_ok_finish].
    inv_bind H. destruct p as [me' opp']. injection H as <-.
    eapply resolve_attack_ok in E0 as [? ?]; [|done..]. by apply state_ok_finish.
Qed.

Lemma starting_deck_ok : Forall card_ok buildStartingDeck.
Proof. vm_compute. repeat constructor. Qed.

Lemma initial_state_ok : state_ok initial_state.
Proof.
  assert (zone_ok starting_player) as H.
  { apply drawCards_ok. split; [constructor|]. split; [exact starting_deck_ok|].
    intros st [E|[E|[E|[]]]]; discriminate E. }
  by split.
Qed.

Lemma reachable_ok S : reachable S → state_ok S.
Proof.
  induction 1 as [|S S' a _ IH Hin Hstep]; [exact initial_state_ok|].
  by eapply step_ok.
Qed.

Lemma reachable_play l S S' : reachable S → play l S = Some S' → reachable S'.
Proof.
  revert S. induction l as [|a l IH]; intros S HS H; cbn [play] in H.
  - by injection H as <-.
  - case_bool_decide as Hin; [|done]. inv_bind H.
    eapply IH; [|exact H]. eapply reachable_step; [exact HS| |exact E].
    by apply list_elem_of_In.
Qed.

Lemma first_stack_reachable : reachable first_stack_state.
Proof.
  apply (reachable_play first_placement initial_state); [constructor|].
  vm_compute. reflexivity.
Qed.

(** C5. In every state reachable from [initial_state] by actions taken from
    [legal_actions], every non-empty construct stack of either player holds
    between 1 and 3 cards, every card of the stack has the stack's
    [constructId], and the stack's [type] is the category that [CONSTRUCTS]
    gives to that construct. *)
Theorem construct_stack_invariant (S : GameState) (pid : PlayerId) (st : Stack) :
  reachable S →
  In (Some st) (slots_list (constructs (player S pid))) →
  (1 ≤ length (cards st) ≤ 3)%nat
  ∧ (∀ c, In c (cards st) → card_constructId c = Some (stack_constructId st))
  ∧ construct_category (stack_constructId st) = Some (stack_type st).
Proof.
  intros HS Hin. apply reachable_ok in HS.
  apply (state_ok_player S pid) in HS as (_ & _ & Hc). by apply Hc.
Qed.

Lemma construct_stack_invariant_witness :
  reachable first_stack_state
  ∧ In (Some ocb_stack) (slots_list (constructs (player first_stack_state P2)))
  ∧ (1 ≤ length (cards ocb_stack) ≤ 3)%nat
  ∧ (∀ c, In c (cards ocb_stack) → card_constructId c = Some (stack_constructId ocb_stack))
  ∧ construct_category (stack_constructId ocb_stack) = Some (stack_type ocb_stack).
Proof.
  assert (In (Some ocb_stack) (slots_list (constructs (player first_stack_state P2)))) as Hin.
  { vm_compute. left. reflexivity. }
  split; [exact first_stack_reachable|]. split; [exact Hin|].
  exact (construct_stack_invariant first_stack_state P2 ocb_stack first_stack_reachable Hin).
Defined.

(** ** Hands, life points and the outcome in reachable states *)

Lemma binary_round_aux_sign s m e l :
  match binary_round_aux prec emax s m e l with
  | S754_zero s' | S754_finite s' _ _ | S754_infinity s' => s' = s
  | S754_nan => True
  end.
Proof.
  unfold binary_round_aux. destruct (shr_fexp _ _ _ _ _) as [mrs' e'].
  destruct (shr_fexp _ _ _ _ _) as [mrs'' e'']. destruct (shr_m mrs''); try done.
  destruct (_ <=? _); done.
Qed.

Lemma binary_round_aux_nonneg m e l : fnonneg (binary_round_aux prec emax false m e l).
Proof.
  pose proof (binary_round_aux_sign false m e l) as H.
  by destruct (binary_round_aux _ _ _ _ _ _).
Qed.

Lemma fmul_nonneg x y : fnonneg x → fnonneg y → fnonneg (fmul x y).
Proof.
  destruct x as [sx|sx| |sx mx ex], y as [sy|sy| |sy my ey]; cbn; try done;
    try (by intros -> ->); try (by intros ->); try (by intros _ ->).
  intros -> ->. apply binary_round_aux_nonneg.
Qed.

Lemma fabs_nonneg x : fnonneg (fabs x).
Proof. by destruct x. Qed.

Lemma round_half_even_nonneg m e : 0 ≤ round_half_even m e.
Proof.
  unfold round_half_even. destruct (Z.leb_spec 0 e).
  - apply Z.mul_nonneg_nonneg; [lia|]. by apply Z.pow_nonneg.
  - assert (0 < 2 ^ (- e)) by (apply Z.pow_pos_nonneg; lia).
    assert (0 ≤ Z.pos m / 2 ^ (- e)) by (apply Z.div_pos; lia).
    cbv zeta. destruct (_ ?= _); [destruct (Z.even _)|..]; lia.
Qed.

Lemma round_nonneg x z : fnonneg x → round x = Some z → 0 ≤ z.
Proof.
  destruct x as [s|s| |s m e]; cbn; try done.
  - by intros _ [= <-].
  - intros -> [= <-]. cbn. apply round_half_even_nonneg.
Qed.

Lemma fmax_zero_nonneg x : fnonneg (fmax (S754_zero false) x).
Proof.
  unfold fmax, fltb, SFltb. destruct x as [s|s| |s m e]; cbn; try done; by destruct s.
Qed.

Lemma effective_multiplier_nonneg m : fnonneg (effective_multiplier m).
Proof.
  unfold effective_multiplier. destruct (itemLeakageApplied m); [done|].
  apply fmax_zero_nonneg.
Qed.

Lemma of_int_10000_nonneg : fnonneg (of_int 10000).
Proof. vm_compute. reflexivity. Qed.

Lemma int_truediv_nonneg a b x : 0 ≤ a → 0 < b → int_truediv a b = Some x → fnonneg x.
Proof.
  unfold int_truediv. intros Ha Hb.
  destruct (Z.eqb_spec b 0); [lia|]. destruct (Z.eqb_spec a 0); [by intros [= <-]|].
  destruct (SFdiv_core_binary _ _ _ _ _ _) as [[q e] l].
  replace (a <? 0) with false by (symmetry; apply Z.ltb_ge; lia).
  replace (b <? 0) with false by (symmetry; apply Z.ltb_ge; lia).
  cbn [xorb]. pose proof (binary_round_aux_nonneg q e l).
  destruct (is_finite _); [|done]. by intros [= <-].
Qed.

Lemma halve_nonneg k a z : 0 ≤ a → halve k a = Some z → 0 ≤ z.
Proof.
  revert a. induction k as [|k IH]; intros a Ha H; cbn [halve] in H.
  - by injection H as <-.
  - inv_bind H. inv_bind H. eapply IH; [|exact H].
    eapply round_nonneg; [|exact E0]. eapply int_truediv_nonneg; [exact Ha| |exact E]. lia.
Qed.

Lemma effective_atk_base_nonneg m z : effective_atk_base m = Some z → 0 ≤ z.
Proof.
  unfold effective_atk_base. intros H. inv_bind H. inv_bind H. injection H as <-.
  assert (0 ≤ z0).
  { eapply round_nonneg; [|exact E].
    apply fmul_nonneg; [apply fabs_nonneg|apply of_int_10000_nonneg]. }
  assert (0 ≤ z1).
  { eapply round_nonneg; [|exact E0].
    apply fmul_nonneg; [|apply of_int_10000_nonneg].
    apply fmul_nonneg; [apply fabs_nonneg|apply effective_multiplier_nonneg]. }
  by destruct (correctionApplied m).
Qed.

Lemma refresh_atk_nonneg m m' :
  refreshMonsterStats m = Some m' → 0 ≤ atk m → 0 ≤ atk m'.
Proof.
  destruct (isMeta m) eqn:Hm.
  - unfold refreshMonsterStats. rewrite Hm. by intros [= <-].
  - rewrite refresh_nonmeta by done. intros H _.
    do 6 inv_bind H. injection H as <-. cbn.
    eapply halve_nonneg; [|exact E1]. by eapply effective_atk_base_nonneg.
Qed.

Lemma slot_set_In {A} (arr arr' : Slots A) i v x :
  slot_set arr i v = Some arr' → In (Some x) (slots_list arr') →
  v = Some x ∨ In (Some x) (slots_list arr).
Proof.
  unfold slot_set. intros H.
  destruct (py_index 3 i) as [[|[|[|k]]]|]; cbn in H; try done;
    injection H as <-; cbn; tauto.
Qed.

Lemma slot_get_In {A} (arr : Slots A) i x :
  slot_get arr i = Some (Some x) → In (Some x) (slots_list arr).
Proof.
  unfold slot_get, py_get. intros H.
  destruct (py_index _ i) as [k|]; cbn in H; [|done].
  apply list_elem_of_In. by eapply list_elem_of_lookup_2.
Qed.

Lemma for_monsters_In f arr arr' m' :
  for_monsters f arr = Some arr' → In (Some m') (slots_list arr') →
  ∃ m, In (Some m) (slots_list arr) ∧ f m = Some m'.
Proof.
  unfold for_monsters. destruct arr as [a b c]. cbn [slot0 slot1 slot2]. intros H.
  do 3 inv_bind H. injection H as <-. cbn.
  intros [Hx|[Hx|[Hx|[]]]]; subst.
  - destruct a as [m|]; cbn in E; [|done]. destruct (f m) eqn:Hf; cbn in E; [|done].
    injection E as <-. exists m. tauto.
  - destruct b as [m|]; cbn in E0; [|done]. destruct (f m) eqn:Hf; cbn in E0; [|done].
    injection E0 as <-. exists m. tauto.
  - destruct c as [m|]; cbn in E1; [|done]. destruct (f m) eqn:Hf; cbn in E1; [|done].
    injection E1 as <-. exists m. tauto.
Qed.

Lemma drawCards_frame k b p :
  lp (drawCards k b p) = lp p
  ∧ constructs (drawCards k b p) = constructs p
  ∧ monsters (drawCards k b p) = monsters p
  ∧ summoned (drawCards k b p) = summoned p
  ∧ experienceTokens (drawCards k b p) = experienceTokens p
  ∧ pendingDiscard (drawCards k b p) = pendingDiscard p.
Proof.
  revert p. induction k as [|k IH]; intros p; [done|].
  cbn [drawCards]. destruct (_ && _); [done|].
  destruct (last (deck p)) as [c|]; [|apply IH].
  destruct (IH (drawn p c)) as (-> & -> & -> & -> & -> & ->). done.
Qed.

Lemma resolve_spell_frame cid o t ts zone zone' :
  resolve_spell cid o t ts zone = Some zone' →
  lp zone' = lp zone ∧ hand zone' = hand zone ∧ deck zone' = deck zone
  ∧ summoned zone' = summoned zone
  ∧ experienceTokens zone' = experienceTokens zone
  ∧ pendingDiscard zone' = pendingDiscard zone.
Proof.
  unfold resolve_spell. intros H.
  destruct t; inv_bind H;
    match goal with
    | H : match ?o with Some _ => _ | None => _ end = _ |- _ => destruct o
    end; try (by injection H as <-); do 2 inv_bind H; by injection H as <-.
Qed.

Lemma spell_on_monster_atk cid o b m r :
  spell_on_monster cid o b m = Some r → 0 ≤ atk m →
  match r with Some m' => 0 ≤ atk m' | None => True end.
Proof.
  unfold spell_on_monster, cast_range_restrict. cbv zeta. intros H Hm.
  repeat match type of H with
    | (if ?c then _ else _) = _ => destruct c
    end;
    try (injection H as <-; done);
    try (destruct (refreshMonsterStats _) as [m'|] eqn:E; cbn in H; [|done];
         injection H as <-; by eapply refresh_atk_nonneg).
Qed.

Lemma resolve_spell_atk cid o t ts zone zone' :
  resolve_spell cid o t ts zone = Some zone' → atk_ok zone → atk_ok zone'.
Proof.
  unfold resolve_spell. intros H Hz.
  assert (∀ o0 : option Monster,
    slot_get (monsters zone) ts = Some o0 →
    ∀ b, match o0 with
    | Some m => r ← spell_on_monster cid o b m; arr ← slot_set (monsters zone) ts r;
                Some (set_monsters arr zone)
    | None => Some zone
    end = Some zone' → atk_ok zone') as Hmon.
  { intros [m|] Hget b H'; [|by injection H' as <-].
    do 2 inv_bind H'. injection H' as <-. intros m' Hin. cbn in Hin.
    destruct (slot_set_In _ _ _ _ _ E0 Hin) as [->|Hin']; [|by apply Hz].
    eapply (spell_on_monster_atk _ _ _ _ (Some m')); [exact E|].
    apply Hz. by eapply slot_get_In. }
  destruct t.
  - inv_bind H. by eapply Hmon.
  - inv_bind H. destruct o0 as [st|]; [|by injection H as <-].
    do 2 inv_bind H. by injection H as <-.
  - inv_bind H. by eapply Hmon.
Qed.

Ltac slot_in :=
  repeat match goal with
    | E : slot_set _ _ _ = Some ?arr, H : In (Some _) (slots_list ?arr) |- _ =>
        destruct (slot_set_In _ _ _ _ _ E H) as [?|?]; clear H
    end.

Lemma resolve_attack_inv i t ts a me opp me' opp' :
  resolve_attack i t ts a me opp = Some (me', opp') → 0 ≤ atk a →
  (hand me' = hand me ∧ deck me' = deck me
   ∧ experienceTokens me' = experienceTokens me ∧ pendingDiscard me' = pendingDiscard me)
  ∧ (hand opp' = hand opp ∧ deck opp' = deck opp
     ∧ experienceTokens opp' = experienceTokens opp
     ∧ pendingDiscard opp' = pendingDiscard opp)
  ∧ (atk_ok me → atk_ok me')
  ∧ (atk_ok opp → atk_ok opp')
  ∧ (0 ≤ lp me → 0 ≤ lp opp →
     0 ≤ lp me' ≤ lp me ∧ 0 ≤ lp opp' ≤ lp opp ∧ (lp me' = lp me ∨ lp opp' = lp opp)).
Proof.
  unfold resolve_attack. intros H Ha. inv_bind H.
  match type of H with
  | (?m ≫= _) = Some _ => destruct m as [[me1 opp1]|] eqn:E1;
                            cbn [mbind option_bind] in H; [|discriminate H]
  end.
  set (att := set_attacksMade (attacksMade a + 1) a) in *.
  assert ((hand me1 = hand me ∧ deck me1 = deck me
           ∧ experienceTokens me1 = experienceTokens me
           ∧ pendingDiscard me1 = pendingDiscard me)
          ∧ (hand opp1 = hand opp ∧ deck opp1 = deck opp
             ∧ experienceTokens opp1 = experienceTokens opp
             ∧ pendingDiscard opp1 = pendingDiscard opp)
          ∧ (atk_ok me → atk_ok me1)
          ∧ (atk_ok opp → atk_ok opp1)
          ∧ (0 ≤ lp me → 0 ≤ lp opp →
             0 ≤ lp me1 ≤ lp me ∧ 0 ≤ lp opp1 ≤ lp opp
             ∧ (lp me1 = lp me ∨ lp opp1 = lp opp))) as (Hf1 & Hf2 & Hk1 & Hk2 & Hlp).
  { assert (atk_ok me → atk_ok (set_monsters s me)) as Hs.
    { intros Hme m Hin. cbn [monsters set_monsters set_lp] in Hin. slot_in; [|by apply Hme]. by simplify_eq. }
    assert (∀ ts',
      (defender ← slot_get (monsters opp) ts';
       match defender with
       | Some d =>
           if atk d <? atk a
           then arr' ← slot_set (monsters opp) ts' None;
                Some (set_monsters s me,
                      set_monsters arr' (set_lp (Z.max 0 (lp opp - (atk a - atk d))) opp))
           else if atk a <? atk d
             then arr' ← slot_set (monsters (set_monsters s me)) i None;
                  Some (set_monsters arr'
                          (set_lp (Z.max 0 (lp (set_monsters s me) - (atk d - atk a)))
                             (set_monsters s me)), opp)
             else arr' ← slot_set (monsters (set_monsters s me)) i None;
                  arr'' ← slot_set (monsters opp) ts' None;
                  Some (set_monsters arr' (set_monsters s me), set_monsters arr'' opp)
       | None => Some (set_monsters s me, opp)
       end) = Some (me1, opp1) →
      (hand me1 = hand me ∧ deck me1 = deck me
           ∧ experienceTokens me1 = experienceTokens me
           ∧ pendingDiscard me1 = pendingDiscard me)
          ∧ (hand opp1 = hand opp ∧ deck opp1 = deck opp
             ∧ experienceTokens opp1 = experienceTokens opp
             ∧ pendingDiscard opp1 = pendingDiscard opp)
          ∧ (atk_ok me → atk_ok me1)
          ∧ (atk_ok opp → atk_ok opp1)
          ∧ (0 ≤ lp me → 0 ≤ lp opp →
             0 ≤ lp me1 ≤ lp me ∧ 0 ≤ lp opp1 ≤ lp opp
             ∧ (lp me1 = lp me ∨ lp opp1 = lp opp))) as Hfight.
    { intros ts' H'. inv_bind H'. destruct o as [d|]; [|injection H' as <- <-].
      - destruct (Z.ltb_spec (atk d) (atk a)); [|destruct (Z.ltb_spec (atk a) (atk d))].
        + inv_bind H'. injection H' as <- <-. cbn.
          split; [done|]. split; [done|]. split; [done|].
          split; [|lia]. intros Hopp m Hin. cbn [monsters set_monsters set_lp] in Hin. slot_in; [done|by apply Hopp].
        + inv_bind H'. injection H' as <- <-. cbn.
          split; [done|]. split; [done|].
          split; [|split; [done|lia]].
          intros Hme m Hin. cbn [monsters set_monsters set_lp] in Hin, E0. slot_in; [done|by simplify_eq|by apply Hme].
        + do 2 inv_bind H'. injection H' as <- <-. cbn.
          split; [done|]. split; [done|].
          split; [|split; [|lia]].
          * intros Hme m Hin. cbn [monsters set_monsters set_lp] in Hin, E0. slot_in; [done|by simplify_eq|by apply Hme].
          * intros Hopp m Hin. cbn [monsters set_monsters set_lp] in Hin. slot_in; [done|by apply Hopp].
      - cbn. split; [done|]. split; [done|]. split; [done|]. split; [done|]. lia. }
    destruct t.
    - inv_bind E1. by eapply Hfight.
    - inv_bind E1. by eapply Hfight.
    - injection E1 as <- <-. cbn.
      split; [done|]. split; [done|]. split; [done|]. split; [done|]. lia. }
  assert (me' = me1 ∨ ∃ arr', slot_set (monsters me1) i None = Some arr'
                                ∧ me' = set_monsters arr' me1) as Hme'.
  { inv_bind H. destruct o as [m|]; [|injection H as <- <-; by left].
    destruct (hasPHacking m); [|injection H as <- <-; by left].
    inv_bind H. injection H as <- <-. right. by eexists. }
  assert (opp' = opp1) as ->.
  { inv_bind H. destruct o as [m|]; [|by injection H as <- <-].
    destruct (hasPHacking m); [|by injection H as <- <-].
    inv_bind H. by injection H as <- <-. }
  destruct Hme' as [->|(arr' & Harr & ->)]; [done|].
  cbn. split; [done|]. split; [done|]. split; [|done].
  intros Hme m Hin. cbn [monsters set_monsters set_lp] in Hin. slot_in; [done|]. by apply Hk1.
Qed.

Lemma buildMonster_atk ps os m : buildMonster ps os = Some m → 0 ≤ atk m.
Proof.
  unfold buildMonster. destruct (getPairAdverseImpact _ _) as [[bwd stars] requires].
  cbv zeta. intros H. do 2 inv_bind H.
  eapply refresh_atk_nonneg; [exact H|]. done.
Qed.

Lemma buildMetaMonster_atk l m : buildMetaMonster l = Some m → 0 ≤ atk m.
Proof.
  unfold buildMetaMonster. cbv zeta. intros H. do 3 inv_bind H. injection H as <-. cbn.
  eapply round_nonneg; [|exact E0].
  apply fmul_nonneg; [apply fabs_nonneg|apply of_int_10000_nonneg].
Qed.

Lemma hand_limit_cur S : hand_limit S (currentPlayer S) = 13.
Proof. unfold hand_limit. by rewrite bool_decide_eq_true_2. Qed.

Lemma hand_limit_other S : hand_limit S (other (currentPlayer S)) = 12.
Proof. unfold hand_limit. rewrite bool_decide_eq_false_2; [done|]. apply other_neq. Qed.

Lemma hand_limit_passed S pid :
  hand_limit (set_currentPlayer (other pid) S) pid = 12
  ∧ hand_limit (set_currentPlayer (other pid) S) (other pid) = 13.
Proof. by destruct pid. Qed.

Lemma zone_inv_same limit p p' :
  hand p' = hand p → pendingDiscard p' = pendingDiscard p →
  experienceTokens p' = experienceTokens p → monsters p' = monsters p → lp p' = lp p →
  zone_inv limit p → zone_inv limit p'.
Proof. unfold zone_inv, hand_ok, atk_ok. by intros -> -> -> -> ->. Qed.

Lemma zone_inv_settled p : zone_inv 13 p → pendingDiscard p ≤ 0 → zone_inv 12 p.
Proof. unfold zone_inv, hand_ok, MAX_HAND_SIZE. intros ((? & ? & ?) & ? & ?) ?. repeat split; try done; lia. Qed.

Lemma duel_ok_finish S0 pid me opp :
  status S0 = active → winner S0 = None →
  zone_inv (hand_limit S0 pid) me → zone_inv (hand_limit S0 (other pid)) opp →
  0 < lp me ∨ 0 < lp opp →
  duel_ok (finish S0 pid me opp).
Proof.
  intros Hact Hw Hme Hopp Hlp. split.
  - intros p. unfold hand_limit. rewrite finish_currentPlayer.
    destruct (decide (p = pid)) as [->|Hne].
    + by rewrite finish_me.
    + assert (p = other pid) as -> by (by destruct p, pid). by rewrite finish_opp.
  - destruct Hme as (_ & _ & Hlme), Hopp as (_ & _ & Hlopp).
    unfold score_ok, finish, _mark_game_over.
    destruct pid; cbn [with_players player1 player2 lp];
      destruct (Z.leb_spec (lp me) 0), (Z.leb_spec (lp opp) 0);
      cbn [orb status winner player1 player2]; rewrite ?Hact; try lia; try (split; [done|lia]).
    all: try (destruct (Z.ltb_spec 0 (lp me)); try lia);
         try (destruct (Z.ltb_spec 0 (lp opp)); try lia).
    all: first [ exists P1; cbn; split; [done|lia] | exists P2; cbn; split; [done|lia] ].
Qed.

Lemma zone_inv_pop limit p h c hand' :
  py_pop (hand p) h = Some (c, hand') → zone_inv limit p → pendingDiscard p ≤ 0 →
  zone_inv limit (set_hand hand' p).
Proof.
  intros Hpop ((Hlen & Hpd & Htok) & Hatk & Hlp) Hz. apply py_pop_length in Hpop.
  unfold zone_inv, hand_ok, MAX_HAND_SIZE in *. cbn. repeat split; try done; lia.
Qed.

Lemma step_duel S a S' :
  duel_ok S → In a (legal_actions S) → next_state S a = Some S' → duel_ok S'.
Proof.
  intros [Hz Hs] Hin%legal_actions_shape H. destruct Hin as [Hact Hshape].
  unfold score_ok in Hs. rewrite Hact in Hs. destruct Hs as (Hw & Hl1 & Hl2).
  unfold next_state in H. rewrite Hact in H. cbv zeta in H, Hshape.
  pose proof (Hz (currentPlayer S)) as Hme. rewrite hand_limit_cur in Hme.
  pose proof (Hz (other (currentPlayer S))) as Hopp. rewrite hand_limit_other in Hopp.
  set (pid := currentPlayer S) in *.
  assert (0 < lp (player S pid) ∧ 0 < lp (player S (other pid))) as [Hlme Hlopp]
    by (by destruct pid).
  assert (∀ me opp, zone_inv 13 me → zone_inv 12 opp → 0 < lp me ∨ 0 < lp opp →
            duel_ok (finish S pid me opp)) as Hfin.
  { intros me opp ? ? ?. apply duel_ok_finish; try done.
    - unfold pid. by rewrite hand_limit_cur.
    - unfold pid. by rewrite hand_limit_other. }
  destruct a.
  - (* end_turn *)
    inv_bind H. inv_bind H. apply (inj Some) in H. subst S'.
    destruct (hand_limit_passed S pid) as [L1 L2].
    apply duel_ok_finish; [exact Hact|exact Hw| | |left; exact Hlme].
    + rewrite L1. apply (zone_inv_settled _ Hme) in Hshape.
      destruct Hshape as (Hh & Ha & Hlp). split; [done|]. split; [|done].
      intros m' Hin. cbn [monsters set_monsters] in Hin.
      destruct (for_monsters_In _ _ _ _ E Hin) as (m & Hm & Hf).
      eapply refresh_atk_nonneg; [exact Hf|]. cbn. by apply Ha.
    + rewrite L2. destruct Hopp as ((Hlen & Hpd & Htok) & Ha & Hlp).
      pose proof (drawCards_overflow_sizes 1 (set_summoned false (player S (other pid))))
        as (Hsz & _ & Ht & Hl).
      destruct (drawCards_frame 1 true (set_summoned false (player S (other pid))))
        as (_ & _ & Hmon & _).
      cbn [monsters set_monsters enforceHandLimit set_pendingDiscard] in E0.
      rewrite Hmon in E0. cbn [monsters set_summoned] in E0.
      split; [|split].
      * unfold hand_ok.
        cbn [hand pendingDiscard experienceTokens set_monsters set_pendingDiscard
             enforceHandLimit].
        rewrite Hsz, Ht. cbn [hand deck experienceTokens set_summoned].
        unfold MAX_HAND_SIZE in *. repeat split; try done; lia.
      * intros m' Hin. cbn [monsters set_monsters] in Hin.
        destruct (for_monsters_In _ _ _ _ E0 Hin) as (m & Hm & Hf).
        eapply refresh_atk_nonneg; [exact Hf|]. cbn. by apply Ha.
      * cbn [lp set_monsters set_pendingDiscard enforceHandLimit]. rewrite Hl. done.
  - (* meta *)
    destruct (localCanMeta _); [inv_bind H|]; injection H as <-; apply Hfin; try done;
      try (by left).
    destruct Hme as (Hh & Ha & Hlp). split; [done|]. split; [|done].
    intros m' [Hin|[Hin|[Hin|[]]]]; try done. injection Hin as <-.
    by eapply buildMetaMonster_atk.
  - (* experience_draw *)
    destruct Hme as ((_ & _ & Htok) & _). unfold EXPERIENCE_MISS_THRESHOLD in Hshape. lia.
  - (* discard_card *)
    destruct Hshape as [Hpd Hh].
    destruct (Z.leb_spec 0 hand_index); [|lia].
    destruct (Z.ltb_spec hand_index (Z.of_nat (length (hand (player S pid))))); [|lia].
    cbn [andb] in H. inv_bind H. destruct p as [c hand']. injection H as <-.
    apply Hfin; [|done|by left]. apply py_pop_length in E.
    destruct Hme as ((Hlen & Hpd' & Htok) & Ha & Hlp).
    unfold zone_inv, hand_ok, MAX_HAND_SIZE in *. cbn. repeat split; try done; lia.
  - (* place_card *)
    destruct Hshape as (Hpd & _).
    inv_bind H. destruct (negb _); [injection H as <-; by split; [|unfold score_ok; rewrite Hact]|].
    inv_bind H. destruct p as [placed hand']. do 3 inv_bind H. injection H as <-.
    apply Hfin; [|done|by left].
    eapply (zone_inv_same _ (set_hand hand' (player S pid))); [done..|].
    by eapply zone_inv_pop.
  - (* play_spell *)
    destruct Hshape as (Hpd & _).
    inv_bind H. destruct p as [card hand']. destruct card as [|cid]; [done|].
    pose proof (zone_inv_pop _ _ _ _ _ E Hme Hpd) as Hme'.
    destruct target_owner; inv_bind H; injection H as <-;
      destruct (resolve_spell_frame _ _ _ _ _ _ E0) as (Hl & Hh & _ & _ & Ht & Hp);
      pose proof (resolve_spell_atk _ _ _ _ _ _ E0) as Hk.
    + apply Hfin; [|done|left; by rewrite Hl].
      destruct Hme' as ((? & ? & ?) & ? & ?).
      unfold zone_inv, hand_ok. rewrite Hl, Hh, Ht, Hp.
      repeat split; try done; try lia; by apply Hk.
    + apply Hfin; [done| |by left].
      destruct Hopp as ((? & ? & ?) & ? & ?).
      unfold zone_inv, hand_ok. rewrite Hl, Hh, Ht, Hp.
      repeat split; try done; try lia; by apply Hk.
  - (* summon *)
    do 2 inv_bind H.
    destruct o as [ps|], o0 as [os|];
      try (injection H as <-; apply Hfin; try done; by left).
    destruct (_ && _ && _); [|injection H as <-; apply Hfin; try done; by left].
    do 4 inv_bind H. injection H as <-. apply Hfin; [|done|by left].
    destruct Hme as (Hh & Ha & Hlp). split; [done|]. split; [|done].
    intros m' Hin. cbn [monsters set_monsters set_summoned set_constructs] in Hin.
    destruct (slot_set_In _ _ _ _ _ E4 Hin) as [[= <-]|Hin']; [|by apply Ha].
    by eapply buildMonster_atk.
  - (* attack *)
    inv_bind H. destruct o as [att|]; [|injection H as <-; apply Hfin; try done; by left].
    inv_bind H. destruct p as [me' opp']. injection H as <-.
    destruct Hme as ((? & ? & ?) & Hka & ? & ?), Hopp as ((? & ? & ?) & Hko & ? & ?).
    assert (0 ≤ atk att) as Hatt by (apply Hka; by eapply slot_get_In).
    destruct (resolve_attack_inv _ _ _ _ _ _ _ _ E0 Hatt)
      as ((Eh1 & _ & Et1 & Ep1) & (Eh2 & _ & Et2 & Ep2) & Hk1 & Hk2 & Hlp).
    destruct Hlp as (? & ? & ?); [lia..|].
    apply Hfin; [| |lia].
    + unfold zone_inv, hand_ok. rewrite Eh1, Et1, Ep1. repeat split; try done; try lia.
      by apply Hk1.
    + unfold zone_inv, hand_ok. rewrite Eh2, Et2, Ep2. repeat split; try done; try lia.
      by apply Hk2.
Qed.

(** ** Reachable states *)

Lemma initial_state_duel_ok : duel_ok initial_state.
Proof.
  split.
  - intros p. destruct p; (split; [|split]).
    all: try (vm_compute; repeat split; congruence).
    all: intros m Hin; vm_compute in Hin; destruct Hin as [E|[E|[E|[]]]]; discriminate E.
  - vm_compute. repeat split; congruence.
Qed.

Lemma reachable_duel_ok S : reachable S → duel_ok S.
Proof.
  induction 1 as [|S S' a _ IH Hin Hstep]; [exact initial_state_duel_ok|].
  by eapply step_duel.
Qed.

Lemma second_turn_reachable : reachable second_turn_state.
Proof.
  apply (reachable_play [EndTurn] initial_state); [constructor|].
  vm_compute. reflexivity.
Qed.

Lemma full_game_reachable : reachable full_game_state.
Proof.
  apply (reachable_play full_game initial_state); [constructor|].
  vm_compute. reflexivity.
Qed.

(** X1. In every state reachable by legal actions the player to move holds
    at most 13 cards and the other player at most 12, and each player's
    [pendingDiscard] is exactly the number of cards held beyond
    [MAX_HAND_SIZE] (so it is 0 or 1). *)
Theorem reachable_hand_sizes (S : GameState) (p : PlayerId) :
  reachable S →
  Z.of_nat (length (hand (player S p))) ≤ hand_limit S p
  ∧ pendingDiscard (player S p)
    = Z.max 0 (Z.of_nat (length (hand (player S p))) - MAX_HAND_SIZE).
Proof.
  intros [Hz _]%reachable_duel_ok. destruct (Hz p) as ((? & ? & _) & _). done.
Qed.

Lemma reachable_hand_sizes_witness :
  reachable second_turn_state
  ∧ Z.of_nat (length (hand (player second_turn_state P2))) ≤ hand_limit second_turn_state P2
  ∧ pendingDiscard (player second_turn_state P2)
    = Z.max 0 (Z.of_nat (length (hand (player second_turn_state P2))) - MAX_HAND_SIZE).
Proof.
  split; [exact second_turn_reachable|].
  exact (reachable_hand_sizes second_turn_state P2 second_turn_reachable).
Defined.

(** X2. No reachable state holds an experience token: [experienceTokens]
    is 0 for both players, so [legal_actions] never lists
    [experience_draw]. *)
Theorem experience_draw_unreachable (S : GameState) :
  reachable S →
  (∀ p, experienceTokens (player S p) = 0) ∧ ¬ In ExperienceDraw (legal_actions S).
Proof.
  intros [Hz _]%reachable_duel_ok. split.
  - intros p. by destruct (Hz p) as ((_ & _ & ?) & _).
  - intros [_ (_ & Ht & _)]%legal_actions_shape.
    destruct (Hz (currentPlayer S)) as ((_ & _ & Hz') & _).
    cbv zeta in Ht. unfold EXPERIENCE_MISS_THRESHOLD in Ht. lia.
Qed.

Lemma experience_draw_unreachable_witness :
  reachable first_stack_state
  ∧ (∀ p, experienceTokens (player first_stack_state p) = 0)
  ∧ ¬ In ExperienceDraw (legal_actions first_stack_state).
Proof.
  split; [exact first_stack_reachable|].
  exact (experience_draw_unreachable first_stack_state first_stack_reachable).
Defined.

(** X3. In every reachable state the life points of both players lie
    between 0 and the initial 8000. *)
Theorem reachable_life_points (S : GameState) (p : PlayerId) :
  reachable S → 0 ≤ lp (player S p) ≤ 8000.
Proof. intros [Hz _]%reachable_duel_ok. by destruct (Hz p) as (_ & _ & ?). Qed.

Lemma reachable_life_points_witness :
  reachable full_game_state ∧ 0 ≤ lp (player full_game_state P2) ≤ 8000.
Proof.
  split; [exact full_game_reachable|].
  exact (reachable_life_points full_game_state P2 full_game_reachable).
Defined.

(** X4. In a reachable state that is still active no winner is recorded,
    both players have positive life points and [terminal_value] is 0; in a
    reachable finished state the recorded winner has positive life points,
    the loser has exactly 0, and [terminal_value] is 1 for the winner and -1
    for the loser. *)
Theorem reachable_outcome (S : GameState) :
  reachable S →
  (status S = active →
     winner S = None ∧ 0 < lp (player1 S) ∧ 0 < lp (player2 S)
     ∧ (∀ p, terminal_value S p = 0))
  ∧ (status S = finished →
       ∃ w, winner S = Some w ∧ 0 < lp (player S w) ∧ lp (player S (other w)) = 0
            ∧ terminal_value S w = 1 ∧ terminal_value S (other w) = -1).
Proof.
  intros [_ Hs]%reachable_duel_ok. unfold score_ok in Hs. split; intros Hst; rewrite Hst in Hs.
  - destruct Hs as (Hw & ? & ?). repeat split; try done.
    intros p. unfold terminal_value, is_terminal. by rewrite Hst.
  - destruct Hs as (w & Hw & ? & ?). exists w. repeat split; try done.
    + unfold terminal_value, is_terminal. rewrite Hst, Hw. cbn. by rewrite bool_decide_eq_true_2.
    + unfold terminal_value, is_terminal. rewrite Hst, Hw. cbn.
      rewrite bool_decide_eq_false_2; [done|]. by destruct w.
Qed.

Lemma reachable_outcome_witness :
  reachable full_game_state
  ∧ (status full_game_state = active →
       winner full_game_state = None ∧ 0 < lp (player1 full_game_state)
       ∧ 0 < lp (player2 full_game_state)
       ∧ (∀ p, terminal_value full_game_state p = 0))
  ∧ (status full_game_state = finished →
       ∃ w, winner full_game_state = Some w ∧ 0 < lp (player full_game_state w)
            ∧ lp (player full_game_state (other w)) = 0
            ∧ terminal_value full_game_state w = 1
            ∧ terminal_value full_game_state (other w) = -1).
Proof.
  split; [exact full_game_reachable|].
  exact (reachable_outcome full_game_state full_game_reachable).
Defined.

(** X5. Every monster on the board of a reachable state has a
    non-negative [atk]. *)
Theorem reachable_attack_values (S : GameState) (p : PlayerId) (m : Monster) :
  reachable S → In (Some m) (slots_list (monsters (player S p))) → 0 ≤ atk m.
Proof. intros [Hz _]%reachable_duel_ok Hin. destruct (Hz p) as (_ & Ha & _). by apply Ha. Qed.

(** X6. Whenever [refreshMonsterStats] returns on a monster that is not
    the meta monster, the [baseAtk] and the [atk] it has written are not
    negative, whatever the floats of the record were. *)
Theorem refresh_attack_nonneg (m m' : Monster) :
  isMeta m = false → refreshMonsterStats m = Some m' → 0 ≤ baseAtk m' ∧ 0 ≤ atk m'.
Proof.
  intros Hm H. rewrite refresh_nonmeta in H by done.
  do 6 inv_bind H. injection H as <-. cbn. split.
  - eapply round_nonneg; [|exact E].
    apply fmul_nonneg; [apply fabs_nonneg|apply of_int_10000_nonneg].
  - eapply halve_nonneg; [|exact E1]. by eapply effective_atk_base_nonneg.
Qed.

Lemma reachable_attack_values_witness :
  reachable full_game_state
  ∧ In (Some winning_monster) (slots_list (monsters (player full_game_state P1)))
  ∧ 0 ≤ atk winning_monster.
Proof.
  assert (In (Some winning_monster) (slots_list (monsters (player full_game_state P1))))
    as Hin by (vm_compute; tauto).
  split; [exact full_game_reachable|]. split; [exact Hin|].
  exact (reachable_attack_values full_game_state P1 winning_monster full_game_reachable Hin).
Defined.

Lemma refresh_attack_nonneg_witness :
  isMeta stale_monster = false
  ∧ refreshMonsterStats stale_monster = Some refreshed_monster
  ∧ 0 ≤ baseAtk refreshed_monster ∧ 0 ≤ atk refreshed_monster.
Proof.
  assert (refreshMonsterStats stale_monster = Some refreshed_monster) as H
    by (vm_compute; reflexivity).
  split; [reflexivity|]. split; [exact H|].
  exact (refresh_attack_nonneg stale_monster refreshed_monster eq_refl H).
Defined.

(** ** The verdict, the turn and the cards *)

Ltac split_step H :=
  repeat match type of H with
    | (?m ≫= _) = Some _ => inv_bind H
    | (let '(_, _) := ?p in _) = Some _ => destruct p
    | (if ?b then _ else _) = Some _ => destruct b eqn:?
    | match ?x with _ => _ end = Some _ => destruct x eqn:?
    | None = Some _ => discriminate H
    end.

Lemma next_state_shape S a S' :
  status S = active → next_state S a = Some S' →
  S' = S ∨ ∃ me opp, S' = finish (passed a S) (currentPlayer S) me opp.
Proof.
  intros Hact H. unfold next_state in H. rewrite Hact in H. cbv zeta in H.
  destruct a; cbn [passed]; split_step H; apply (inj Some) in H; subst S';
    first [by left | right; by eexists _, _].
Qed.

(** X7. [terminal_value] is zero-sum and takes its values in -1, 0, 1; it
    is 1 only for the recorded winner of a finished game. *)
Theorem terminal_value_zero_sum (S : GameState) :
  terminal_value S P1 + terminal_value S P2 = 0
  ∧ (∀ p, -1 ≤ terminal_value S p ≤ 1)
  ∧ (∀ p, terminal_value S p = 1 → status S = finished ∧ winner S = Some p).
Proof.
  unfold terminal_value, is_terminal. split; [|split].
  - destruct (status S), (winner S) as [[|]|]; reflexivity.
  - intros p. destruct (status S), (winner S) as [w|]; cbn; try lia.
    case_bool_decide; lia.
  - intros p H. destruct (status S); cbn in H; [lia|].
    destruct (winner S) as [w|]; [|lia]. case_bool_decide; [by subst|lia].
Qed.

Lemma mark_game_over_facts (S : GameState) :
  _mark_game_over (_mark_game_over S) = _mark_game_over S
  ∧ (status (_mark_game_over S) = finished
     ↔ status S = finished ∨ lp (player1 S) ≤ 0 ∨ lp (player2 S) ≤ 0)
  ∧ (lp (player1 S) ≤ 0 ∨ lp (player2 S) ≤ 0 →
     ∃ w, winner (_mark_game_over S) = Some w ∧ lp (player S (other w)) ≤ 0
          ∧ (lp (player S w) ≤ 0 → w = P2)).
Proof.
  unfold _mark_game_over.
  destruct (Z.leb_spec (lp (player1 S)) 0) as [H1|H1],
           (Z.leb_spec (lp (player2 S)) 0) as [H2|H2]; cbn [orb]; (split; [|split]).
  all: try (cbn [player1 player2 lp];
            destruct (Z.leb_spec (lp (player1 S)) 0), (Z.leb_spec (lp (player2 S)) 0);
            cbn [orb]; (done || lia)).
  all: try (cbn [status]; split; [intros _; lia|done]).
  all: try (intros _; destruct (Z.ltb_spec 0 (lp (player1 S))); try lia;
            first [exists P2; cbn; split; [done|split; [lia|done]]
                  |exists P1; cbn; split; [done|split; [lia|lia]]]).
  split; [tauto|]. intros [?|[?|?]]; [done|lia|lia].
Qed.

(** X8. [_mark_game_over] is idempotent; it yields a finished state exactly
    when the state was finished or a player is at 0 life points or below;
    and then the loser it implies is at 0 or below, the winner being
    player 2 whenever both players are. *)
Theorem mark_game_over_verdict (S : GameState) :
  _mark_game_over (_mark_game_over S) = _mark_game_over S
  ∧ (status (_mark_game_over S) = finished
     ↔ status S = finished ∨ lp (player1 S) ≤ 0 ∨ lp (player2 S) ≤ 0)
  ∧ (lp (player1 S) ≤ 0 ∨ lp (player2 S) ≤ 0 →
     ∃ w, winner (_mark_game_over S) = Some w ∧ lp (player S (other w)) ≤ 0
          ∧ (lp (player S w) ≤ 0 → w = P2)).
Proof. exact (mark_game_over_facts S). Qed.

(** X9. When a transition of an active game ends it, the new state names
    a winner whose opponent is at 0 life points or below, and
    [terminal_value] is 1 for that winner and -1 for the opponent: a game is
    never finished as a draw. *)
Theorem finishing_move_names_winner (S : GameState) (a : Action) (S' : GameState) :
  status S = active → next_state S a = Some S' → status S' = finished →
  ∃ w, winner S' = Some w ∧ lp (player S' (other w)) ≤ 0
       ∧ terminal_value S' w = 1 ∧ terminal_value S' (other w) = -1.
Proof.
  intros Hact H Hfin.
  destruct (next_state_shape _ _ _ Hact H) as [->|(me & opp & ->)]; [congruence|].
  unfold finish in *. set (T := with_players _ _ _ _) in *.
  assert (status T = active) as HT.
  { unfold T. rewrite with_players_status. by destruct a. }
  destruct (mark_game_over_facts T) as (_ & Hst & Hw).
  apply Hst in Hfin as [Hf|Hlp]; [congruence|].
  destruct (Hw Hlp) as (w & Ew & Hl & _). exists w.
  assert (status (_mark_game_over T) = finished) as Hfin' by (apply Hst; by right).
  rewrite !mark_player. split; [done|]. split; [done|].
  unfold terminal_value, is_terminal. rewrite Hfin', Ew. cbn.
  rewrite bool_decide_eq_true_2 by done. rewrite bool_decide_eq_false_2; [done|].
  by destruct w.
Qed.

Lemma finishing_move_names_winner_witness :
  status before_last_attack = active
  ∧ next_state before_last_attack (Attack 0 TLp None) = Some full_game_state
  ∧ status full_game_state = finished
  ∧ ∃ w, winner full_game_state = Some w ∧ lp (player full_game_state (other w)) ≤ 0
         ∧ terminal_value full_game_state w = 1
         ∧ terminal_value full_game_state (other w) = -1.
Proof.
  assert (status before_last_attack = active) as H1 by (vm_compute; reflexivity).
  assert (next_state before_last_attack (Attack 0 TLp None) = Some full_game_state) as H2
    by (vm_compute; reflexivity).
  assert (status full_game_state = finished) as H3 by (vm_compute; reflexivity).
  split; [exact H1|]. split; [exact H2|]. split; [exact H3|].
  exact (finishing_move_names_winner before_last_attack (Attack 0 TLp None) full_game_state
           H1 H2 H3).
Defined.

(** X10. Only [end_turn] passes the turn: after any other action the
    player to move is the same. *)
Theorem turn_passes_only_on_end_turn (S : GameState) (a : Action) (S' : GameState) :
  next_state S a = Some S' → a ≠ EndTurn → currentPlayer S' = currentPlayer S.
Proof.
  intros H Ha. destruct (status S) eqn:Hact.
  - destruct (next_state_shape _ _ _ Hact H) as [->|(me & opp & ->)]; [done|].
    rewrite finish_currentPlayer. by destruct a.
  - unfold next_state in H. rewrite Hact in H. by injection H as <-.
Qed.

Lemma turn_passes_only_on_end_turn_witness :
  next_state second_turn_state (Discard 0) = Some after_discard_state
  ∧ Discard 0 ≠ EndTurn
  ∧ currentPlayer after_discard_state = currentPlayer second_turn_state.
Proof.
  assert (next_state second_turn_state (Discard 0) = Some after_discard_state) as H
    by (vm_compute; reflexivity).
  assert (Discard 0 ≠ EndTurn) as Hne by discriminate.
  split; [exact H|]. split; [exact Hne|].
  exact (turn_passes_only_on_end_turn second_turn_state (Discard 0) after_discard_state H Hne).
Defined.

(** X11. [drawCards] moves cards from the end of the deck to the end of
    the hand, at most [k] of them, in the order drawn, and loses or invents
    none: the deck followed by the reversed hand is unchanged. *)
Theorem drawCards_conserves_cards (k : nat) (b : bool) (p : Player) :
  deck (drawCards k b p) ++ rev (hand (drawCards k b p)) = deck p ++ rev (hand p)
  ∧ (∃ drawn_cards, hand (drawCards k b p) = hand p ++ drawn_cards
                    ∧ deck p = deck (drawCards k b p) ++ rev drawn_cards
                    ∧ (length drawn_cards ≤ k)%nat).
Proof.
  revert p. induction k as [|k IH]; intros p.
  - cbn. split; [done|]. exists []. by rewrite !app_nil_r.
  - cbn [drawCards]. destruct (_ && _).
    + split; [done|]. exists []. rewrite !app_nil_r. repeat split; try done. cbn. lia.
    + destruct (last (deck p)) as [c|] eqn:Hl.
      * apply last_Some in Hl as [d Hd].
        assert (hand (drawn p c) = hand p ++ [c] ∧ deck (drawn p c) = d) as [Hq1 Hq2].
        { unfold drawn. cbn. by rewrite Hd, removelast_last. }
        destruct (IH (drawn p c)) as (E & l & Eh & Ed & Hlen).
        rewrite Hq1, Hq2 in *. split.
        -- rewrite E, Hd, rev_app_distr, <- app_assoc. done.
        -- exists (c :: l). rewrite Eh, <- app_assoc. split; [done|]. split.
           ++ rewrite Hd, Ed. cbn. by rewrite <- !app_assoc.
           ++ cbn. lia.
      * destruct (IH p) as (E & l & Eh & Ed & Hlen). split; [done|].
        exists l. repeat split; try done. lia.
Qed.

(** X12. Without overflow, [drawCards] on a hand of at most
    [MAX_HAND_SIZE] cards stops at [MAX_HAND_SIZE]: the new hand has
    [min 12 (hand + min k deck)] cards, all of them taken from the deck. *)
Theorem drawCards_respects_limit (k : nat) (p : Player) :
  (length (hand p) ≤ 12)%nat →
  length (hand (drawCards k false p))
  = Nat.min 12 (length (hand p) + Nat.min k (length (deck p)))
  ∧ (length (hand (drawCards k false p)) + length (deck (drawCards k false p))
     = length (hand p) + length (deck p))%nat.
Proof.
  revert p. induction k as [|k IH]; intros p Hp.
  - cbn [drawCards]. lia.
  - cbn [drawCards negb andb]. unfold MAX_HAND_SIZE.
    destruct (Z.leb_spec 12 (Z.of_nat (length (hand p)))).
    + lia.
    + destruct (last (deck p)) as [c|] eqn:Hl.
      * apply last_Some in Hl as [d Hd].
        assert (hand (drawn p c) = hand p ++ [c] ∧ deck (drawn p c) = d) as [Hq1 Hq2].
        { unfold drawn. cbn. by rewrite Hd, removelast_last. }
        destruct (IH (drawn p c)) as [E1 E2].
        { rewrite Hq1, length_app. cbn [length]. lia. }
        rewrite Hq1, Hq2, Hd, !length_app in *. cbn [length] in *. lia.
      * apply last_None in Hl. destruct (IH p Hp) as [E1 E2].
        rewrite Hl in *. cbn [length] in *. lia.
Qed.

Lemma drawCards_respects_limit_witness :
  (length (hand fresh_player) ≤ 12)%nat
  ∧ length (hand (drawCards 20 false fresh_player))
    = Nat.min 12 (length (hand fresh_player) + Nat.min 20 (length (deck fresh_player)))
  ∧ (length (hand (drawCards 20 false fresh_player))
     + length (deck (drawCards 20 false fresh_player))
     = length (hand fresh_player) + length (deck fresh_player))%nat.
Proof.
  assert ((length (hand fresh_player) ≤ 12)%nat) as H by (vm_compute; lia).
  split; [exact H|]. exact (drawCards_respects_limit 20 fresh_player H).
Defined.

(** X13. [firstEmptySlot] returns -1 exactly when no slot is empty, and
    otherwise the index of an empty slot before which every slot is
    occupied. *)
Theorem firstEmptySlot_spec {A : Type} (arr : Slots A) :
  (firstEmptySlot arr = -1 ∧ ∀ x, In x (slots_list arr) → x ≠ None)
  ∨ (0 ≤ firstEmptySlot arr < 3
     ∧ slot_get arr (firstEmptySlot arr) = Some None
     ∧ ∀ j, 0 ≤ j < firstEmptySlot arr → ∃ x, slot_get arr j = Some (Some x)).
Proof.
  destruct arr as [[a|] [b|] [c|]]; cbn.
  1: { left. split; [done|]. intros x [<-|[<-|[<-|[]]]]; done. }
  all: right; (split; [lia|]); (split; [done|]); intros j Hj.
  all: try lia.
  all: try (assert (j = 0) as -> by lia; by eexists).
  all: try (assert (j = 0 ∨ j = 1) as [-> | ->] by lia; by eexists).
Qed.

(** ** Single steps *)

Lemma py_pop_nat {A} (l : list A) h c :
  0 ≤ h → l !! Z.to_nat h = Some c → py_pop l h = Some (c, delete (Z.to_nat h) l).
Proof.
  intros Hh Hl. unfold py_pop.
  assert ((Z.to_nat h < length l)%nat) by (by eapply lookup_lt_Some).
  rewrite <- (Z2Nat.id h) at 1 by done. rewrite py_index_of_nat by done.
  cbn. by rewrite Hl.
Qed.

(** X14. A discard listed by [legal_actions] never fails: it removes the
    card at the index from the hand of the player to move, lowers
    [pendingDiscard] by exactly one, and leaves the opponent and the turn
    as they are. *)
Theorem legal_discard_step (S : GameState) (h : Z) :
  In (Discard h) (legal_actions S) →
  ∃ S' c,
    next_state S (Discard h) = Some S'
    ∧ hand (player S (currentPlayer S)) !! Z.to_nat h = Some c
    ∧ hand (player S' (currentPlayer S)) = delete (Z.to_nat h) (hand (player S (currentPlayer S)))
    ∧ pendingDiscard (player S' (currentPlayer S))
      = pendingDiscard (player S (currentPlayer S)) - 1
    ∧ player S' (other (currentPlayer S)) = player S (other (currentPlayer S))
    ∧ currentPlayer S' = currentPlayer S.
Proof.
  intros [Hact [Hpd Hh]]%legal_actions_shape. cbv zeta in Hpd, Hh.
  destruct (lookup_lt_is_Some_2 (hand (player S (currentPlayer S))) (Z.to_nat h)) as [c Hc];
    [lia|].
  unfold next_state. rewrite Hact. cbv zeta.
  destruct (Z.leb_spec 0 h); [|lia].
  destruct (Z.ltb_spec h (Z.of_nat (length (hand (player S (currentPlayer S)))))); [|lia].
  cbn [andb]. rewrite (py_pop_nat _ _ _ (proj1 Hh) Hc). cbn [mbind option_bind].
  eexists _, c. split; [reflexivity|]. rewrite finish_me, finish_opp, finish_currentPlayer.
  cbn. repeat split; try done. lia.
Qed.

Lemma legal_discard_step_witness :
  ∃ S' c,
    next_state second_turn_state (Discard 0) = Some S'
    ∧ hand (player second_turn_state (currentPlayer second_turn_state)) !! Z.to_nat 0 = Some c
    ∧ hand (player S' (currentPlayer second_turn_state))
      = delete (Z.to_nat 0) (hand (player second_turn_state (currentPlayer second_turn_state)))
    ∧ pendingDiscard (player S' (currentPlayer second_turn_state))
      = pendingDiscard (player second_turn_state (currentPlayer second_turn_state)) - 1
    ∧ player S' (other (currentPlayer second_turn_state))
      = player second_turn_state (other (currentPlayer second_turn_state))
    ∧ currentPlayer S' = currentPlayer second_turn_state.
Proof.
  apply (legal_discard_step second_turn_state 0). vm_compute. left. reflexivity.
Defined.

(** X15. A placement listed by [legal_actions] never fails: the item
    leaves the hand and becomes the last card of the stack in the slot (a
    new one-card stack if the slot was empty), the stack has the card's
    [constructId], and the opponent is untouched. *)
Theorem legal_place_step (S : GameState) (h slot : Z) :
  In (Place h slot) (legal_actions S) →
  ∃ S' c old st,
    next_state S (Place h slot) = Some S'
    ∧ hand (player S (currentPlayer S)) !! Z.to_nat h = Some c
    ∧ slot_get (constructs (player S (currentPlayer S))) slot = Some old
    ∧ hand (player S' (currentPlayer S)) = delete (Z.to_nat h) (hand (player S (currentPlayer S)))
    ∧ slot_get (constructs (player S' (currentPlayer S))) slot = Some (Some st)
    ∧ cards st = match old with Some st0 => cards st0 | None => [] end ++ [c]
    ∧ card_constructId c = Some (stack_constructId st)
    ∧ player S' (other (currentPlayer S)) = player S (other (currentPlayer S)).
Proof.
  intros [Hact Hshape]%legal_actions_shape. cbv zeta in Hshape.
  destruct Hshape as (_ & Hh & t & cid & r & old & Hc & _ & Hold & Hallowed).
  unfold next_state. rewrite Hact. cbv zeta.
  rewrite (py_get_nat _ _ _ Hh Hc). cbn [mbind option_bind isItem negb].
  rewrite (py_pop_nat _ _ _ Hh Hc). cbn [mbind option_bind]. rewrite Hold.
  cbn [mbind option_bind].
  set (new := match old with
              | Some st0 => set_cards (cards st0 ++ [ItemCard t cid r]) st0
              | None => mkStack t cid [ItemCard t cid r]
              end).
  assert (match old with
          | Some st0 => Some (set_cards (cards st0 ++ [ItemCard t cid r]) st0)
          | None => makeConstructStackFromCard (ItemCard t cid r)
          end = Some new) as -> by (by destruct old).
  cbn [mbind option_bind].
  destruct (slot_get_set (constructs (player S (currentPlayer S))) slot old (Some new) Hold)
    as (arr & -> & Harr).
  cbn [mbind option_bind]. eexists _, (ItemCard t cid r), old, new.
  split; [reflexivity|]. rewrite finish_me, finish_opp.
  cbn [hand constructs set_hand set_constructs].
  repeat split; try done.
  - by destruct old.
  - destruct old as [st0|]; [|done]. cbn.
    apply andb_prop in Hallowed as [->%String.eqb_eq _]. done.
Qed.

Lemma legal_place_step_witness :
  In (Place 11 0) (legal_actions first_item_state)
  ∧ ∃ S' c old st,
      next_state first_item_state (Place 11 0) = Some S'
      ∧ hand (player first_item_state (currentPlayer first_item_state)) !! Z.to_nat 11 = Some c
      ∧ slot_get (constructs (player first_item_state (currentPlayer first_item_state))) 0
        = Some old
      ∧ hand (player S' (currentPlayer first_item_state))
        = delete (Z.to_nat 11) (hand (player first_item_state (currentPlayer first_item_state)))
      ∧ slot_get (constructs (player S' (currentPlayer first_item_state))) 0 = Some (Some st)
      ∧ cards st = match old with Some st0 => cards st0 | None => [] end ++ [c]
      ∧ card_constructId c = Some (stack_constructId st)
      ∧ player S' (other (currentPlayer first_item_state))
        = player first_item_state (other (currentPlayer first_item_state)).
Proof.
  assert (In (Place 11 0) (legal_actions first_item_state)) as H by (vm_compute; tauto).
  split; [exact H|]. exact (legal_place_step first_item_state 11 0 H).
Defined.

(** X16. [play_spell] always consumes the card: whenever the transition
    returns, the card at the index was a spell, the hand of the player to
    move is one card shorter, and neither the decks, the life points nor
    the opponent's hand have changed, whether or not the spell had an
    effect. *)
Theorem play_spell_consumes_card (S : GameState) (h : Z) (o : Owner) (t : TargetType)
    (ts : Z) (S' : GameState) :
  status S = active → next_state S (PlaySpell h o t ts) = Some S' →
  ∃ cid,
    py_get (hand (player S (currentPlayer S))) h = Some (SpellCard cid)
    ∧ (length (hand (player S' (currentPlayer S))) + 1
       = length (hand (player S (currentPlayer S))))%nat
    ∧ (∀ p, deck (player S' p) = deck (player S p) ∧ lp (player S' p) = lp (player S p))
    ∧ hand (player S' (other (currentPlayer S))) = hand (player S (other (currentPlayer S))).
Proof.
  intros Hact H. unfold next_state in H. rewrite Hact in H. cbv zeta in H.
  inv_bind H. destruct p as [card hand']. destruct card as [|cid]; [done|].
  exists cid. split; [by eapply py_pop_get|]. apply py_pop_length in E.
  set (pid := currentPlayer S) in *.
  assert (∀ me opp,
    hand me = hand' → deck me = deck (player S pid) → lp me = lp (player S pid) →
    hand opp = hand (player S (other pid)) → deck opp = deck (player S (other pid)) →
    lp opp = lp (player S (other pid)) →
    (length (hand (player (finish S pid me opp) pid)) + 1
       = length (hand (player S pid)))%nat
    ∧ (∀ p, deck (player (finish S pid me opp) p) = deck (player S p)
            ∧ lp (player (finish S pid me opp) p) = lp (player S p))
    ∧ hand (player (finish S pid me opp) (other pid)) = hand (player S (other pid))) as Hgo.
  { intros me opp Hh Hd Hl Hh' Hd' Hl'. rewrite finish_me, finish_opp, Hh. split; [lia|].
    split; [|done]. intros p. destruct (decide (p = pid)) as [->|Hne].
    - by rewrite finish_me.
    - assert (p = other pid) as -> by (by destruct p, pid). by rewrite finish_opp. }
  destruct o; inv_bind H; injection H as <-;
    destruct (resolve_spell_frame _ _ _ _ _ _ E0) as (Hl & Hh & Hd & _); by apply Hgo.
Qed.

Lemma play_spell_consumes_card_witness :
  status missing_data_fixture = active
  ∧ next_state missing_data_fixture (PlaySpell 0 Opp TConstruct 0)
    = Some (default missing_data_fixture
              (next_state missing_data_fixture (PlaySpell 0 Opp TConstruct 0)))
  ∧ ∃ cid,
      py_get (hand (player missing_data_fixture (currentPlayer missing_data_fixture))) 0
      = Some (SpellCard cid).
Proof.
  assert (next_state missing_data_fixture (PlaySpell 0 Opp TConstruct 0)
          = Some (default missing_data_fixture
                    (next_state missing_data_fixture (PlaySpell 0 Opp TConstruct 0)))) as H
    by (vm_compute; reflexivity).
  split; [reflexivity|]. split; [exact H|].
  destruct (play_spell_consumes_card missing_data_fixture 0 Opp TConstruct 0 _ eq_refl H)
    as (cid & Hc & _).
  exists cid. exact Hc.
Defined.

(** X17. Discarding, placing, drawing for experience, summoning, the meta
    fusion and a spell cast on one's own side leave the zone of the
    opponent exactly as it was. *)
Theorem solitary_actions_spare_opponent (S : GameState) (a : Action) (S' : GameState) :
  next_state S a = Some S' → solitary a = true →
  player S' (other (currentPlayer S)) = player S (other (currentPlayer S)).
Proof.
  intros H Ha. destruct (status S) eqn:Hact;
    [|unfold next_state in H; rewrite Hact in H; by injection H as <-].
  unfold next_state in H. rewrite Hact in H. cbv zeta in H.
  destruct a; try discriminate Ha; try (destruct target_owner; try discriminate Ha);
    split_step H; apply (inj Some) in H; subst S'; try done; by rewrite finish_opp.
Qed.

Lemma solitary_actions_spare_opponent_witness :
  next_state first_item_state (Place 11 0) = Some first_stack_state
  ∧ solitary (Place 11 0) = true
  ∧ player first_stack_state (other (currentPlayer first_item_state))
    = player first_item_state (other (currentPlayer first_item_state)).
Proof.
  assert (next_state first_item_state (Place 11 0) = Some first_stack_state) as H
    by (vm_compute; reflexivity).
  split; [exact H|]. split; [reflexivity|].
  exact (solitary_actions_spare_opponent first_item_state (Place 11 0) first_stack_state
           H eq_refl).
Defined.

Lemma resolve_attack_cards i t ts a me opp me' opp' :
  resolve_attack i t ts a me opp = Some (me', opp') →
  deck me' = deck me ∧ deck opp' = deck opp.
Proof.
  unfold resolve_attack. intros H. inv_bind H. inv_bind H. destruct p as [me1 opp1].
  assert (deck me1 = deck me ∧ deck opp1 = deck opp) as [D1 D2].
  { destruct t; split_step E0; by injection E0 as <- <-. }
  split_step H; injection H as <- <-; done.
Qed.

(** X18. Decks change only by drawing: after any action other than
    [end_turn] and [experience_draw] both decks are the same. *)
Theorem decks_change_only_by_drawing (S : GameState) (a : Action) (S' : GameState) :
  next_state S a = Some S' → a ≠ EndTurn → a ≠ ExperienceDraw →
  ∀ p, deck (player S' p) = deck (player S p).
Proof.
  intros H Ha1 Ha2 p. destruct (status S) eqn:Hact;
    [|unfold next_state in H; rewrite Hact in H; by injection H as <-].
  assert (∀ me opp, deck me = deck (player S (currentPlayer S)) →
            deck opp = deck (player S (other (currentPlayer S))) →
            deck (player (finish S (currentPlayer S) me opp) p) = deck (player S p)) as Hgo.
  { intros me opp Hd Hd'. destruct (decide (p = currentPlayer S)) as [->|Hne].
    - by rewrite finish_me.
    - assert (p = other (currentPlayer S)) as -> by (by destruct p, (currentPlayer S)).
      by rewrite finish_opp. }
  unfold next_state in H. rewrite Hact in H. cbv zeta in H.
  destruct a; try done; split_step H; apply (inj Some) in H; subst S'; try done;
    try (by apply Hgo).
  - destruct (resolve_spell_frame _ _ _ _ _ _ E0) as (_ & _ & Hd & _). by apply Hgo.
  - destruct (resolve_spell_frame _ _ _ _ _ _ E0) as (_ & _ & Hd & _). by apply Hgo.
  - destruct (resolve_attack_cards _ _ _ _ _ _ _ _ E0) as (Hd & Hd'). by apply Hgo.
Qed.

Lemma decks_change_only_by_drawing_witness :
  next_state before_last_attack (Attack 0 TLp None) = Some full_game_state
  ∧ Attack 0 TLp None ≠ EndTurn ∧ Attack 0 TLp None ≠ ExperienceDraw
  ∧ ∀ p, deck (player full_game_state p) = deck (player before_last_attack p).
Proof.
  assert (next_state before_last_attack (Attack 0 TLp None) = Some full_game_state) as H
    by (vm_compute; reflexivity).
  assert (Attack 0 TLp None ≠ EndTurn) as H1 by discriminate.
  assert (Attack 0 TLp None ≠ ExperienceDraw) as H2 by discriminate.
  split; [exact H|]. split; [exact H1|]. split; [exact H2|].
  exact (decks_change_only_by_drawing before_last_attack (Attack 0 TLp None) full_game_state
           H H1 H2).
Defined.

(** ** Action keys and ids *)

Lemma pretty_N_go_num x s : all_num s = true → all_num (pretty_N_go x s) = true.
Proof.
  revert s. induction (N.lt_wf_0 x) as [x _ IH]; intros s Hs.
  assert (x = 0 ∨ 0 < x)%N as [->|?] by lia.
  - by rewrite pretty_N_go_0.
  - rewrite pretty_N_go_step by done. apply IH; [by apply N.div_lt|].
    cbn [all_num]. rewrite Hs, andb_true_r.
    unfold pretty_N_char. by repeat case_match.
Qed.

Lemma pretty_Z_num (z : Z) : all_num (pretty z) = true.
Proof.
  assert (∀ p : positive, all_num (pretty p) = true) as Hp.
  { intros p. unfold pretty, pretty_positive, pretty, pretty_N.
    case_decide; [done|]. by apply pretty_N_go_num. }
  destruct z as [|p|p]; [done|apply Hp|].
  change (pretty (Z.neg p)) with ("-" +:+ pretty p).
  simpl. exact (Hp p).
Qed.

Lemma num_prefix x y c c' r r' :
  all_num x = true → all_num y = true → num_char c = false → num_char c' = false →
  x +:+ String c r = y +:+ String c' r' → x = y ∧ c = c' ∧ r = r'.
Proof.
  revert y. induction x as [|d x IH]; intros [|e y] Hx Hy Hc Hc' H;
    unfold String.append in H; fold String.append in H; cbn [all_num] in *.
  - by injection H as -> ->.
  - injection H as -> _. apply andb_prop in Hy as [Hy _]. congruence.
  - injection H as -> _. apply andb_prop in Hx as [Hx _]. congruence.
  - injection H as -> H. apply andb_prop in Hx as [_ Hx], Hy as [_ Hy].
    destruct (IH y Hx Hy Hc Hc' H) as (-> & -> & ->). done.
Qed.

Lemma num_prefix_Z (a b : Z) c c' r r' :
  num_char c = false → num_char c' = false →
  pretty a +:+ String c r = pretty b +:+ String c' r' → a = b ∧ c = c' ∧ r = r'.
Proof.
  intros Hc Hc' H.
  destruct (num_prefix _ _ _ _ _ _ (pretty_Z_num a) (pretty_Z_num b) Hc Hc' H) as (E & ? & ?).
  split; [|done]. by apply (inj pretty).
Qed.

Lemma num_prefix_other (a : Z) c d r s :
  num_char c = false → num_char d = false →
  pretty a +:+ String c r = String d s → False.
Proof.
  intros Hc Hd H.
  assert (pretty a ≠ "") as Hne.
  { intros E. pose proof (pretty_Z_num a).
    destruct a as [|p|p]; [done| |done].
    unfold pretty, pretty_Z, pretty, pretty_positive, pretty, pretty_N in E.
    case_decide; [done|].
    rewrite pretty_N_go_step in E by lia.
    assert (∀ x s, s ≠ "" → pretty_N_go x s ≠ "") as Hgo.
    { intros x. induction (N.lt_wf_0 x) as [x _ IH]; intros s0 Hs0.
      assert (x = 0 ∨ 0 < x)%N as [->|?] by lia; [by rewrite pretty_N_go_0|].
      rewrite pretty_N_go_step by done. apply IH; [by apply N.div_lt|done]. }
    eapply Hgo; [|exact E]. discriminate. }
  destruct (pretty a) as [|e x] eqn:E; [done|].
  unfold String.append in H; fold String.append in H. injection H as -> _.
  pose proof (pretty_Z_num a) as Hn. rewrite E in Hn. cbn in Hn.
  apply andb_prop in Hn as [Hn _]. congruence.
Qed.

Lemma append_assoc (a b c : string) : (a +:+ b) +:+ c = a +:+ (b +:+ c).
Proof.
  induction a as [|x a IH]; [done|].
  unfold String.append; fold String.append. by rewrite IH.
Qed.

Ltac key_norm H :=
  cbv -[pretty pretty_Z] in H; fold String.append in H;
  rewrite ?append_assoc in H;
  cbv -[pretty pretty_Z] in H; fold String.append in H.

Ltac key_step H :=
  first
    [ discriminate H
    | apply num_prefix_Z in H as (-> & _ & H); [|reflexivity|reflexivity]
    | (exfalso; apply num_prefix_other in H; [exact H|reflexivity|reflexivity])
    | (exfalso; symmetry in H; apply num_prefix_other in H; [exact H|reflexivity|reflexivity])
    | injection H as H
    | progress (rewrite !append_assoc in H);
      cbv -[pretty pretty_Z] in H; fold String.append in H ].

Lemma action_key_inj a b : _action_key a = _action_key b → a = b.
Proof.
  intros H. unfold _action_key in H.
  destruct a as [| | |h|h s|h o t ts|p q [r|]|i t [ts|]],
           b as [| | |h'|h' s'|h' o' t' ts'|p' q' [r'|]|i' t' [ts'|]];
    try (destruct o); try (destruct o'); try (destruct t); try (destruct t');
    key_norm H; try done; repeat key_step H; try done.
Qed.

Lemma space_ok_empty : space_ok (mkActionSpace [] ∅).
Proof.
  split; [intros i a H; by destruct i|].
  intros k i H. cbn [action_to_id] in H. by rewrite lookup_empty in H.
Qed.

Lemma register_ok a sp : space_ok sp → space_ok (_register a sp).
Proof.
  intros [H1 H2]. unfold _register.
  destruct (action_to_id sp !! _action_key a) as [j|] eqn:Hk; [by split|].
  split; cbn [actions action_to_id].
  - intros i b Hb. destruct (decide (i < length (actions sp))%nat) as [Hi|Hi].
    + rewrite lookup_app_l in Hb by done. pose proof (H1 _ _ Hb) as Hid.
      rewrite lookup_insert_ne; [done|]. intros E. rewrite <- E in Hid. congruence.
    + rewrite lookup_app_r in Hb by lia.
      destruct (i - length (actions sp))%nat as [|n] eqn:En; [|by destruct n].
      injection Hb as <-. assert (i = length (actions sp)) as -> by lia.
      by rewrite lookup_insert_eq.
  - intros k i Hki. destruct (decide (k = _action_key a)) as [->|Hne].
    + rewrite lookup_insert_eq in Hki. injection Hki as <-. exists a.
      split; [|done]. rewrite lookup_app_r by lia. by rewrite Nat.sub_diag.
    + rewrite lookup_insert_ne in Hki by done.
      destruct (H2 _ _ Hki) as (b & Hb & <-). exists b. split; [|done].
      rewrite lookup_app_l; [done|]. by eapply lookup_lt_Some.
Qed.

Lemma build_ok sp : space_ok sp → space_ok (_build sp).
Proof.
  unfold _build. generalize registration_order. intros l. revert sp.
  induction l as [|a l IH]; intros sp Hsp; [done|]. cbn. apply IH. by apply register_ok.
Qed.

Lemma action_space_ok : space_ok action_space.
Proof. apply build_ok, space_ok_empty. Qed.

Lemma space_round_trip sp a i :
  space_ok sp → (to_id sp a = Some i ↔ actions sp !! i = Some a).
Proof.
  intros [H1 H2]. unfold to_id. split.
  - intros H. destruct (H2 _ _ H) as (b & Hb & E). apply action_key_inj in E. by subst.
  - apply H1.
Qed.

Lemma in_range_inv k h : In h (range k) → 0 ≤ h < Z.of_nat k.
Proof. unfold range. intros (i & <- & [_ Hi]%in_seq)%in_map_iff. lia. Qed.

Lemma registered_in_schema a : In a registration_order → in_schema a.
Proof.
  unfold registration_order. intros H.
  repeat match goal with
    | H : In _ (_ ++ _) |- _ => apply in_app_iff in H as [H|H]
    | H : In _ (flat_map _ _) |- _ =>
        let x := fresh "x" in let Hx := fresh "Hx" in
        apply in_flat_map in H as (x & Hx & H)
    | H : In _ (map _ _) |- _ =>
        let x := fresh "x" in let Hx := fresh "Hx" in
        apply in_map_iff in H as (x & H & Hx)
    | H : In _ (_ :: _) |- _ => destruct H as [H|H]
    | H : In _ [] |- _ => destruct H
    | H : In _ (range _) |- _ => apply in_range_inv in H
    end; subst; cbn [in_schema]; unfold MAX_HAND_SIZE in *; cbn in *;
    repeat split; try lia; try tauto; eauto 6.
Qed.

Lemma build_actions l sp a :
  In a (actions (foldl (λ sp a, _register a sp) sp l)) → In a (actions sp) ∨ In a l.
Proof.
  revert sp. induction l as [|b l IH]; intros sp H; [by left|].
  cbn [foldl] in H. apply IH in H as [H|H]; [|right; by right].
  unfold _register in H. destruct (action_to_id sp !! _action_key b); [by left|].
  cbn [actions] in H. apply in_app_iff in H as [H|[<-|[]]]; [by left|right; by left].
Qed.

Lemma build_actions_registered sp a :
  In a (actions (_build sp)) → In a (actions sp) ∨ In a registration_order.
Proof. unfold _build. apply build_actions. Qed.

Lemma action_space_eq : action_space = _build (mkActionSpace [] ∅).
Proof. reflexivity. Qed.

Lemma id_registered a i : to_id action_space a = Some i → In a registration_order.
Proof.
  intros H. apply (space_round_trip _ _ _ action_space_ok) in H.
  apply list_elem_of_lookup_2, list_elem_of_In in H.
  rewrite action_space_eq in H.
  apply build_actions_registered in H as [H|H]; [|exact H].
  cbn [actions] in H. destruct H.
Qed.

Lemma id_in_schema a i : to_id action_space a = Some i → in_schema a.
Proof. intros H. eapply registered_in_schema, id_registered, H. Qed.

Lemma legal_low_in_schema S a :
  In a (legal_actions S) → low_hand_index a → in_schema a.
Proof.
  intros [Hs H]%legal_actions_shape Hlow.
  destruct a; cbn [in_schema low_hand_index] in *; unfold MAX_HAND_SIZE in *; cbn in H;
    try done.
  - lia.
  - destruct H as (_ & Hh & t & cid & r & st & Hl & H3 & _). split; [lia|done].
  - destruct H as (_ & Hh & Ht & H3). split; [lia|done].
  - tauto.
  - tauto.
Qed.

Lemma discards_listed S h :
  status S = active → 0 < pendingDiscard (player S (currentPlayer S)) →
  0 ≤ h < Z.of_nat (length (hand (player S (currentPlayer S)))) →
  In (Discard h) (legal_actions S).
Proof.
  intros Hact Hpd Hh. unfold legal_actions. rewrite Hact. cbv zeta.
  destruct (Z.ltb_spec 0 (pendingDiscard (player S (currentPlayer S)))); [|lia].
  apply in_map_iff. exists (Z.to_nat h). split; [f_equal; lia|]. apply in_seq. lia.
Qed.

(** C1 (amended).  In every state, an action that [legal_actions] lists
    and whose ["hand_index"], if it has one, is below [MAX_HAND_SIZE] is one
    of the registered descriptors: [to_id] succeeds on its canonical key and
    the id decodes to the action.  No descriptor with a ["hand_index"] of
    [MAX_HAND_SIZE] or more has an id.  And while a discard is pending,
    [legal_actions] lists [discard_card] for every index of the hand, so
    with more than twelve cards in hand it lists descriptors without an
    id. *)
Theorem legal_actions_registered (S : GameState) (a : Action) :
  In a (legal_actions S) →
  (low_hand_index a →
     In a registration_order
     ∧ ∃ i, to_id action_space a = Some i ∧ actions action_space !! i = Some a)
  ∧ (∀ b, ¬ low_hand_index b → to_id action_space b = None)
  ∧ (0 < pendingDiscard (player S (currentPlayer S)) →
     ∀ h, 0 ≤ h < Z.of_nat (length (hand (player S (currentPlayer S)))) →
          In (Discard h) (legal_actions S)).
Proof.
  intros Hl. split; [|split].
  - intros Hlow.
    assert (In a registration_order) as Hr
      by eauto using schema_registered, legal_low_in_schema.
    split; [exact Hr|]. destruct (build_registers a (mkActionSpace [] ∅) Hr) as [i Hi].
    exists i. split; [exact Hi|]. by apply (space_round_trip _ _ _ action_space_ok).
  - intros b Hb. destruct (to_id action_space b) as [i|] eqn:Hi; [|reflexivity].
    exfalso. apply Hb. apply id_in_schema in Hi.
    destruct b; cbn [in_schema low_hand_index] in *; try done; lia.
  - intros Hpd h Hh. apply legal_actions_shape in Hl as [Hact _]. by apply discards_listed.
Qed.

Lemma legal_actions_registered_witness :
  In (Discard 3) (legal_actions second_turn_state)
  ∧ (low_hand_index (Discard 3) →
       In (Discard 3) registration_order
       ∧ ∃ i, to_id action_space (Discard 3) = Some i
              ∧ actions action_space !! i = Some (Discard 3))
  ∧ (∀ b, ¬ low_hand_index b → to_id action_space b = None)
  ∧ (0 < pendingDiscard (player second_turn_state (currentPlayer second_turn_state)) →
     ∀ h, 0 ≤ h < Z.of_nat (length (hand (player second_turn_state
                                            (currentPlayer second_turn_state)))) →
          In (Discard h) (legal_actions second_turn_state)).
Proof.
  assert (In (Discard 3) (legal_actions second_turn_state)) as Hin by (vm_compute; tauto).
  split; [exact Hin|]. exact (legal_actions_registered second_turn_state (Discard 3) Hin).
Defined.

(** The claim C1 as it is stated fails in the state that follows the first
    [end_turn] of a game: with thirteen cards in hand [legal_actions] lists
    [discard_card] with [hand_index] 12, which has no id. *)
Lemma legal_actions_registered_counterexample :
  next_state initial_state EndTurn = Some second_turn_state
  ∧ length (hand (player second_turn_state (currentPlayer second_turn_state))) = 13%nat
  ∧ In (Discard 12) (legal_actions second_turn_state)
  ∧ to_id action_space (Discard 12) = None.
Proof.
  split; [vm_compute; reflexivity|]. split; [vm_compute; reflexivity|].
  split; [vm_compute; tauto|]. vm_compute. reflexivity.
Qed.

(** X19. Registering an action keeps the two tables of an action space
    in agreement, gives the action an id, never changes an id that was
    already given, adds at most one entry, and is idempotent. *)
Theorem register_keeps_ids_consistent (a : Action) (sp : ActionSpace) :
  space_ok sp →
  space_ok (_register a sp)
  ∧ is_Some (to_id (_register a sp) a)
  ∧ (∀ b i, to_id sp b = Some i → to_id (_register a sp) b = Some i)
  ∧ (size sp ≤ size (_register a sp) ≤ size sp + 1)%nat
  ∧ _register a (_register a sp) = _register a sp.
Proof.
  intros Hsp. split; [by apply register_ok|]. unfold _register, to_id, size.
  destruct (action_to_id sp !! _action_key a) as [j|] eqn:Hk.
  - rewrite Hk. repeat split; try done; lia.
  - cbn [actions action_to_id]. rewrite lookup_insert_eq. cbn [actions action_to_id].
    split; [done|]. split.
    + intros b i Hb. rewrite lookup_insert_ne; [done|]. intros E. rewrite <- E in Hb.
      congruence.
    + rewrite length_app. cbn. split; [lia|done].
Qed.

Lemma register_keeps_ids_consistent_witness :
  space_ok (mkActionSpace [] ∅)
  ∧ space_ok (_register EndTurn (mkActionSpace [] ∅))
  ∧ is_Some (to_id (_register EndTurn (mkActionSpace [] ∅)) EndTurn)
  ∧ (∀ b i, to_id (mkActionSpace [] ∅) b = Some i →
            to_id (_register EndTurn (mkActionSpace [] ∅)) b = Some i)
  ∧ (size (mkActionSpace [] ∅) ≤ size (_register EndTurn (mkActionSpace [] ∅))
     ≤ size (mkActionSpace [] ∅) + 1)%nat
  ∧ _register EndTurn (_register EndTurn (mkActionSpace [] ∅))
    = _register EndTurn (mkActionSpace [] ∅).
Proof.
  split; [exact space_ok_empty|].
  exact (register_keeps_ids_consistent EndTurn (mkActionSpace [] ∅) space_ok_empty).
Defined.

(** X20. In the action space that [_build] fills, [to_id] and indexing
    into [actions] are inverse to each other: an action has id [i] exactly
    when it is the action stored at index [i], and every id is below
    [size]. *)
Theorem action_id_round_trip (a : Action) (i : nat) :
  (to_id action_space a = Some i ↔ actions action_space !! i = Some a)
  ∧ (to_id action_space a = Some i → (i < size action_space)%nat).
Proof.
  split; [apply space_round_trip, action_space_ok|].
  intros H%(space_round_trip _ _ _ action_space_ok). by eapply lookup_lt_Some.
Qed.

(** X21. [_legal_ids] returns exactly the indexes of the registered
    actions that are legal in the state: each id it returns is below
    [size] and decodes to a legal action, and it never returns more ids
    than there are legal actions. *)
Theorem legal_ids_decode (sp : ActionSpace) (S : GameState) (i : nat) :
  space_ok sp →
  (In i (_legal_ids sp S) ↔ ∃ a, In a (legal_actions S) ∧ actions sp !! i = Some a)
  ∧ (In i (_legal_ids sp S) → (i < size sp)%nat)
  ∧ (length (_legal_ids sp S) ≤ length (legal_actions S))%nat.
Proof.
  intros Hsp. unfold _legal_ids.
  assert (In i (omap (to_id sp) (legal_actions S))
          ↔ ∃ a, In a (legal_actions S) ∧ actions sp !! i = Some a) as Hiff.
  { rewrite <- list_elem_of_In, list_elem_of_omap. split.
    - intros (a & Ha & Hid). exists a. split; [by apply list_elem_of_In|].
      by apply (space_round_trip sp a i Hsp).
    - intros (a & Ha & Hid). exists a. split; [by apply list_elem_of_In|].
      by apply (space_round_trip sp a i Hsp). }
  split; [done|]. split.
  - intros (a & _ & Ha)%Hiff. by eapply lookup_lt_Some.
  - generalize (legal_actions S). intros l.
    induction l as [|a l IH]; [done|]. cbn. destruct (to_id sp a); cbn; lia.
Qed.

Lemma legal_ids_decode_witness :
  space_ok action_space
  ∧ (In 0%nat (_legal_ids action_space initial_state)
     ↔ ∃ a, In a (legal_actions initial_state) ∧ actions action_space !! 0%nat = Some a)
  ∧ (In 0%nat (_legal_ids action_space initial_state) → (0 < size action_space)%nat)
  ∧ (length (_legal_ids action_space initial_state) ≤ length (legal_actions initial_state))%nat.
Proof.
  split; [exact action_space_ok|].
  exact (legal_ids_decode action_space initial_state 0%nat action_space_ok).
Defined.

(** ** The game loops on reachable states *)

Lemma legal_ids_iff sp S i :
  space_ok sp →
  In i (_legal_ids sp S) ↔ ∃ a, In a (legal_actions S) ∧ actions sp !! i = Some a.
Proof.
  intros Hsp. unfold _legal_ids. rewrite <- list_elem_of_In, list_elem_of_omap. split.
  - intros (a & Ha & Hid). exists a. split; [by apply list_elem_of_In|].
    by apply (space_round_trip sp a i Hsp).
  - intros (a & Ha & Hid). exists a. split; [by apply list_elem_of_In|].
    by apply (space_round_trip sp a i Hsp).
Qed.

Lemma reachable_has_legal_id S :
  reachable S → is_terminal S = false →
  ∃ a i, In a (legal_actions S) ∧ to_id action_space a = Some i.
Proof.
  intros HS Ht. assert (status S = active) as Hact.
  { unfold is_terminal in Ht. by destruct (status S). }
  destruct (reachable_duel_ok S HS) as [Hz _].
  destruct (Hz (currentPlayer S)) as ((_ & Hpd & _) & _).
  destruct (Z.ltb_spec 0 (pendingDiscard (player S (currentPlayer S)))) as [Hlt|Hle].
  - destruct (build_registers (Discard 0) (mkActionSpace [] ∅)) as [i Hi].
    { apply schema_registered. cbn. unfold MAX_HAND_SIZE. lia. }
    exists (Discard 0), i. split; [|exact Hi].
    unfold legal_actions. rewrite Hact. cbv zeta.
    destruct (Z.ltb_spec 0 (pendingDiscard (player S (currentPlayer S)))); [|lia].
    apply in_map_iff. exists 0%nat. split; [done|]. apply in_seq.
    unfold MAX_HAND_SIZE in Hpd. lia.
  - destruct (build_registers EndTurn (mkActionSpace [] ∅)) as [i Hi].
    { apply schema_registered. by cbn. }
    exists EndTurn, i. split; [|exact Hi].
    unfold legal_actions. rewrite Hact. cbv zeta.
    destruct (Z.ltb_spec 0 (pendingDiscard (player S (currentPlayer S)))); [lia|].
    rewrite !in_app_iff. do 5 right. by left.
Qed.

(** X22. A reachable state that is not terminal is never a dead end:
    [legal_actions] is not empty and at least one legal action has an id in
    the static action space. *)
Theorem legal_ids_nonempty (S : GameState) :
  reachable S → is_terminal S = false →
  legal_actions S ≠ [] ∧ _legal_ids action_space S ≠ [].
Proof.
  intros HS Ht. destruct (reachable_has_legal_id S HS Ht) as (a & i & Ha & Hi). split.
  - intros E. by rewrite E in Ha.
  - intros E. assert (In i (_legal_ids action_space S)) as Hin.
    { unfold _legal_ids. apply list_elem_of_In, list_elem_of_omap. exists a.
      split; [by apply list_elem_of_In|done]. }
    by rewrite E in Hin.
Qed.

Lemma legal_ids_nonempty_witness :
  reachable second_turn_state
  ∧ is_terminal second_turn_state = false
  ∧ legal_actions second_turn_state ≠ [] ∧ _legal_ids action_space second_turn_state ≠ [].
Proof.
  assert (is_terminal second_turn_state = false) as H by (vm_compute; reflexivity).
  split; [exact second_turn_reachable|]. split; [exact H|].
  exact (legal_ids_nonempty second_turn_state second_turn_reachable H).
Defined.

Lemma legal_id_step S i :
  In i (_legal_ids action_space S) →
  ∃ a, actions action_space !! i = Some a ∧ In a (legal_actions S).
Proof.
  intros (a & Ha & Hi)%(legal_ids_iff _ _ _ action_space_ok).
  exists a. split; assumption.
Qed.

(** X23. When the search only answers ids taken from [_legal_ids], the
    loops of [self_play_episode] and [play_match] only visit reachable
    states: the state they stop in is reachable, they make at most
    [max_moves] moves, and self-play records one sample per move. *)
Theorem game_loops_stay_reachable (Search : Type)
    (select : Search → GameState → PlayerId → Z → nat * Search)
    (greedy : Search → GameState → PlayerId → nat) :
  (∀ sr S p mv, reachable S → is_terminal S = false →
     In (fst (select sr S p mv)) (_legal_ids action_space S)) →
  (∀ sr S p, reachable S → is_terminal S = false →
     In (greedy sr S p) (_legal_ids action_space S)) →
  (∀ n sr st mv tr st' k tr',
     reachable st →
     self_play_loop Search select n sr st mv tr = Some (st', k, tr') →
     reachable st' ∧ mv ≤ k ≤ mv + Z.of_nat n
     ∧ Z.of_nat (length tr') = Z.of_nat (length tr) + (k - mv))
  ∧ (∀ n net_a net_b st mv st' k,
       reachable st →
       match_loop Search greedy n net_a net_b st mv = Some (st', k) →
       reachable st' ∧ mv ≤ k ≤ mv + Z.of_nat n).
Proof.
  intros Hsel Hgr. split.
  - intros n. induction n as [|n IH]; intros sr st mv tr st' k tr' Hst H.
    + cbn in H. destruct (is_terminal st); injection H as <- <- <-; (split; [done|lia]).
    + cbn [self_play_loop] in H. destruct (is_terminal st) eqn:Ht.
      { injection H as <- <- <-. split; [done|lia]. }
      pose proof (Hsel sr st (currentPlayer st) mv Hst Ht) as Hin.
      destruct (select sr st (currentPlayer st) mv) as [id sr'].
      destruct (legal_id_step _ _ Hin) as (a & Ha & Hlegal). cbn [fst] in Ha.
      rewrite Ha in H. cbn [mbind option_bind] in H. inv_bind H.
      apply IH in H as (Hr & Hk & Hlen); [|by eapply reachable_step].
      split; [done|]. rewrite length_app in Hlen. cbn in Hlen. lia.
  - intros n. induction n as [|n IH]; intros net_a net_b st mv st' k Hst H.
    + cbn in H. destruct (is_terminal st); injection H as <- <-; (split; [done|lia]).
    + cbn [match_loop] in H. destruct (is_terminal st) eqn:Ht.
      { injection H as <- <-. split; [done|lia]. }
      cbv zeta in H.
      set (net := if bool_decide (currentPlayer st = P1) then net_a else net_b) in H.
      pose proof (Hgr net st (currentPlayer st) Hst Ht) as Hin.
      destruct (legal_id_step _ _ Hin) as (a & Ha & Hlegal).
      rewrite Ha in H. cbn [mbind option_bind] in H. inv_bind H.
      apply IH in H as (Hr & Hk); [|by eapply reachable_step].
      split; [done|lia].
Qed.

Lemma first_legal_in S :
  reachable S → is_terminal S = false →
  In (hd 0%nat (_legal_ids action_space S)) (_legal_ids action_space S).
Proof.
  intros HS Ht. destruct (reachable_has_legal_id S HS Ht) as (a & i & Ha & Hi).
  assert (In i (_legal_ids action_space S)) as Hin.
  { unfold _legal_ids. apply list_elem_of_In, list_elem_of_omap. exists a.
    split; [by apply list_elem_of_In|done]. }
  destruct (_legal_ids action_space S) as [|j l]; [done|]. by left.
Qed.

Lemma three_moves :
  self_play_loop unit first_legal 3 tt initial_state 0 [] = Some (initial_state, 3, [P1; P1; P1]).
Proof. vm_compute. reflexivity. Qed.

Lemma game_loops_stay_reachable_witness :
  self_play_loop unit first_legal 3 tt initial_state 0 [] = Some (initial_state, 3, [P1; P1; P1])
  ∧ reachable initial_state ∧ 0 ≤ 3 ≤ 0 + Z.of_nat 3
  ∧ Z.of_nat (length [P1; P1; P1]) = Z.of_nat (length (@nil PlayerId)) + (3 - 0).
Proof.
  split; [exact three_moves|].
  exact (proj1 (game_loops_stay_reachable unit first_legal first_legal_greedy
                  (λ sr S p mv HS Ht, first_legal_in S HS Ht)
                  (λ sr S p HS Ht, first_legal_in S HS Ht))
           3%nat tt initial_state 0 [] initial_state 3 [P1; P1; P1]
           reachable_initial three_moves).
Defined.
